(** * pysmiles.smiles_helper: valence model, hydrogen and bond-order
      completion, aromaticity marking.

    A shallow embedding of [pysmiles/smiles_helper.py].  The molecule is the
    [networkx] graph of the source: nodes carry an attribute dictionary (here
    a record of optional fields, [None] meaning "key absent"), edges carry
    the optional attribute [order].  Node and edge lists are kept in
    insertion order, which is the iteration order of [networkx].

    Numbers: [hcount], [charge] and valences are Python [int]s ([Z]); a bond
    order is an [int] or the float [1.5] and is modelled as a rational [Q]
    (arithmetic on integers and halves is exact in floating point).

    Strings: a [str] is the [string] of its UTF-8 encoding.  [int],
    [str.isdigit] and [str] are those of CPython 3.11: the digits of all
    scripts (Unicode 14.0), and at most 4300 digits in a conversion between
    [int] and [str].  [str.capitalize], [str.lower] and [str.islower] are
    modelled on ASCII letters, which is what element symbols are made of.

    In-place mutation is explicit state passing; a function that can raise
    returns a [result]; a loop that mutates and can raise returns the state
    reached together with the outcome. *)

From Stdlib Require Import String Ascii ZArith QArith Qminmax Qround List Sorted Relations Bool Lia Lqa DecimalString DecimalPos.
From Stdlib Require DecimalFacts DecimalN.
Import ListNotations.

Open Scope Z_scope.

(** ** Exceptions and results *)

Inductive exn : Type :=
| ValueError      (* valence: "Too many electrons for sanity"; parse_atom *)
| IndexError      (* list index out of range *)
| AssertionError  (* a failed [assert] *)
| KeyError        (* a node or edge that is not in the graph *)
| NetworkXError   (* networkx: a matching with a node that is not in the graph *)
| SyntaxError.    (* "Your molecule is invalid and cannot be kekulized." *)

Inductive result (A : Type) : Type :=
| Ok (a : A)
| Raise (e : exn).
Arguments Ok {A} a.
Arguments Raise {A} e.

Definition bind {A B : Type} (r : result A) (f : A -> result B) : result B :=
  match r with
  | Ok a => f a
  | Raise e => Raise e
  end.

Notation "x <- r ;; k" := (bind r (fun x => k))
  (at level 61, r at next level, right associativity).

Definition of_option {A : Type} (e : exn) (o : option A) : result A :=
  match o with
  | Some a => Ok a
  | None => Raise e
  end.

(** [d.get(key, default)] *)
Definition get {A : Type} (o : option A) (default : A) : A :=
  match o with
  | Some a => a
  | None => default
  end.

(** ** Strings: [str.capitalize], [str.islower] on ASCII *)

Definition is_upper (c : ascii) : bool :=
  (65 <=? nat_of_ascii c)%nat && (nat_of_ascii c <=? 90)%nat.
Definition is_lower (c : ascii) : bool :=
  (97 <=? nat_of_ascii c)%nat && (nat_of_ascii c <=? 122)%nat.
Definition to_upper (c : ascii) : ascii :=
  if is_lower c then ascii_of_nat (nat_of_ascii c - 32) else c.
Definition to_lower (c : ascii) : ascii :=
  if is_upper c then ascii_of_nat (nat_of_ascii c + 32) else c.

Fixpoint lower (s : string) : string :=
  match s with
  | EmptyString => EmptyString
  | String c s' => String (to_lower c) (lower s')
  end.

Definition capitalize (s : string) : string :=
  match s with
  | EmptyString => EmptyString
  | String c s' => String (to_upper c) (lower s')
  end.

Fixpoint has_upper (s : string) : bool :=
  match s with
  | EmptyString => false
  | String c s' => is_upper c || has_upper s'
  end.
Fixpoint has_lower (s : string) : bool :=
  match s with
  | EmptyString => false
  | String c s' => is_lower c || has_lower s'
  end.

(** [str.islower]: at least one cased character and no uppercase one. *)
Definition islower (s : string) : bool := has_lower s && negb (has_upper s).

(** ** Data model *)

(** Node attribute dictionary. *)
Record atom : Type := mkAtom {
  element  : option string;
  charge   : option Z;
  hcount   : option Z;
  aromatic : option bool;
  isotope  : option Z;
  class_   : option Z;
  stereo   : option string
}.

(** Edge attribute dictionary. *)
Record bond : Type := mkBond { order : option Q }.

Abbreviation node := Z (only parsing).

(** [nx.Graph]: nodes and edges in insertion order.  An edge [(u, v)] is
    undirected. *)
Record mol : Type := mkMol {
  nodes : list (node * atom);
  edges : list ((node * node) * bond)
}.

Definition set_hcount (h : option Z) (a : atom) : atom :=
  mkAtom (element a) (charge a) h (aromatic a) (isotope a) (class_ a) (stereo a).
Definition set_aromatic (b : option bool) (a : atom) : atom :=
  mkAtom (element a) (charge a) (hcount a) b (isotope a) (class_ a) (stereo a).

(** ** Module constants *)

Definition ORBITAL_SIZES : list (list Z) :=
  [ [2];             (* 1s *)
    [2; 6];          (* 2s, 2p *)
    [2; 6];          (* 3s, 3p *)
    [2; 10; 6];      (* 4s, 3d, 4p *)
    [2; 10; 6];      (* 5s, 4d, 5p *)
    [2; 14; 10; 6] ].  (* 6s, 4f, 5d, 6p *)

Definition ELECTRON_COUNTS : list (string * Z) :=
  [ ("H", 1); ("B", 5); ("C", 6); ("N", 7); ("O", 8); ("F", 9); ("P", 15);
    ("S", 16); ("Cl", 17); ("As", 33); ("Se", 34); ("Br", 35); ("I", 53) ]%string.

Fixpoint dict_get {V : Type} (d : list (string * V)) (k : string) : option V :=
  match d with
  | [] => None
  | (k', v) :: d' => if String.eqb k' k then Some v else dict_get d' k
  end.

Definition py_sum (l : list Z) : Z := fold_left Z.add l 0.

(** ** valence *)

(** The [for idx, shell in enumerate(ORBITAL_SIZES)] loop with its [break]:
    [Some (idx, electrons)] when the loop breaks at [idx], [None] when it runs
    to the end (the [else] branch of the loop). *)
Fixpoint fill_shells (shells : list (list Z)) (idx : nat) (electrons : Z)
  : option (nat * Z) :=
  match shells with
  | [] => None
  | shell :: rest =>
      let shell_size := py_sum shell in
      if shell_size <=? electrons
      then fill_shells rest (S idx) (electrons - shell_size)
      else Some (idx, electrons)
  end.

(** [range(n)] as a list of integers. *)
Definition range (n : Z) : list Z := map Z.of_nat (seq 0 (Z.to_nat n)).

Definition electron_count (a : atom) : Z :=
  get (dict_get ELECTRON_COUNTS (capitalize (get (element a) "*"%string))) 0
  - get (charge a) 0.

(** The part of [valence] after the loop: the electrons left over are
    distributed over the orbitals of shell [idx]. *)
Definition valence_outer (idx : nat) (electrons : Z) : result (list Z) :=
  shell <- of_option IndexError (nth_error ORBITAL_SIZES idx) ;;
  let shell_size := py_sum shell in
  let to_assign := Z.min electrons (shell_size / 2) in
  let single_electrons := to_assign in
  let electrons := electrons - to_assign in
  let to_assign := Z.min electrons (shell_size / 2) in
  let electron_pairs := to_assign in
  let single_electrons := single_electrons - to_assign in
  let electrons := electrons - to_assign in
  if negb (electrons =? 0) then Raise AssertionError else
  next <- of_option IndexError (nth_error ORBITAL_SIZES (S idx)) ;;
  if (3 <=? Z.of_nat (List.length next))
  then Ok (map (fun n => single_electrons + 2 * n) (range (electron_pairs + 1)))
  else Ok [single_electrons].

Definition valence (a : atom) : result (list Z) :=
  let electrons := electron_count a in
  match fill_shells ORBITAL_SIZES 0 electrons with
  | None => Raise ValueError
  | Some (idx, electrons) => valence_outer idx electrons
  end.

(** ** Graph access *)

Fixpoint lookup {V : Type} (l : list (node * V)) (k : node) : option V :=
  match l with
  | [] => None
  | (k', v) :: l' => if k' =? k then Some v else lookup l' k
  end.

(** [mol.nodes[n]] *)
Definition node_attrs (m : mol) (n : node) : option atom := lookup (nodes m) n.

Definition mem (n : node) (l : list node) : bool := existsb (Z.eqb n) l.

Definition update {V : Type} (k : node) (f : V -> V) (l : list (node * V))
  : list (node * V) :=
  map (fun kv => if fst kv =? k then (fst kv, f (snd kv)) else kv) l.

(** [mol.nodes[n][...] = ...]: the attribute dictionary of [n] is replaced by
    [f] of it. *)
Definition update_node (n : node) (f : atom -> atom) (m : mol) : mol :=
  mkMol (update n f (nodes m)) (edges m).

Definition incident (n : node) (e : node * node) : bool :=
  (fst e =? n) || (snd e =? n).
Definition other (n : node) (e : node * node) : node :=
  if fst e =? n then snd e else fst e.
Definition same_edge (u v : node) (e : node * node) : bool :=
  ((fst e =? u) && (snd e =? v)) || ((fst e =? v) && (snd e =? u)).

(** [mol[n]]: the neighbours of [n] with the attributes of the connecting
    edge, in the order in which the edges were added. *)
Definition adj (m : mol) (n : node) : list (node * bond) :=
  map (fun e => (other n (fst e), snd e))
      (filter (fun e => incident n (fst e)) (edges m)).

(** [mol.edges[u, v]] *)
Definition edge_attrs (m : mol) (u v : node) : option bond :=
  option_map snd (find (fun e => same_edge u v (fst e)) (edges m)).

Definition update_edge (u v : node) (f : bond -> bond) (m : mol) : mol :=
  mkMol (nodes m)
        (map (fun e => if same_edge u v (fst e) then (fst e, f (snd e)) else e)
             (edges m)).

(** Iteration over [mol.edges]: for every node in order, its neighbours that
    were not visited as a node before. *)
Fixpoint edge_view_from (m : mol) (ns seen : list node) : list (node * node) :=
  match ns with
  | [] => []
  | n :: ns' =>
      map (fun nb => (n, fst nb))
          (filter (fun nb => negb (mem (fst nb) seen)) (adj m n))
      ++ edge_view_from m ns' (n :: seen)
  end.
Definition edge_view (m : mol) : list (node * node) :=
  edge_view_from m (map fst (nodes m)) [].

(** A [for] loop over [xs] whose body mutates the state and may raise: the
    state reached is returned with the outcome. *)
Fixpoint for_each {S X : Type} (xs : list X) (body : X -> S -> S * result unit)
  (s : S) : S * result unit :=
  match xs with
  | [] => (s, Ok tt)
  | x :: xs' =>
      match body x s with
      | (s', Ok _) => for_each xs' body s'
      | (s', Raise e) => (s', Raise e)
      end
  end.

(** ** Bond accounting *)

(** [int(x)]: truncation toward zero. *)
Definition py_int (q : Q) : Z := Z.quot (Qnum q) (Zpos (Qden q)).

Definition Qsum (l : list Q) : Q := fold_left Qplus l (0 : Q).

Definition _bonds (m : mol) (node_idx : node) (use_order : bool) : Q :=
  if use_order
  then Qsum (map (fun nb => get (order (snd nb)) (1 : Q)) (adj m node_idx))
  else inject_Z (Z.of_nat (List.length (adj m node_idx))).

(** [[v for v in val if v >= bonds] or [0]] *)
Definition admissible (val : list Z) (bonds : Q) : list Z :=
  match filter (fun v => Qle_bool bonds (inject_Z v)) val with
  | [] => [0]
  | l => l
  end.

Definition bonds_missing (m : mol) (node_idx : node) (use_order : bool)
  : result Z :=
  a <- of_option KeyError (node_attrs m node_idx) ;;
  let bonds := (_bonds m node_idx use_order + inject_Z (get (hcount a) 0%Z))%Q in
  val <- valence a ;;
  v0 <- of_option IndexError (nth_error (admissible val bonds) 0) ;;
  Ok (py_int (Qmax (inject_Z v0 - bonds) (0 : Q))).

Definition has_default_h_count (m : mol) (node_idx : node) (use_order : bool)
  : result bool :=
  a <- of_option KeyError (node_attrs m node_idx) ;;
  let bonds := _bonds m node_idx use_order in
  val <- valence a ;;
  v0 <- of_option IndexError (nth_error (admissible val bonds) 0) ;;
  let hcount := get (hcount a) 0 in
  Ok (Qeq_bool (Qmax (inject_Z v0 - bonds) (0 : Q)) (inject_Z hcount)).

(** ** increment_bond_orders *)

(** The dictionary [missing_bonds], gathered before any bond is changed. *)
Fixpoint gather_missing (m : mol) (ns : list node) : result (list (node * Z)) :=
  match ns with
  | [] => Ok []
  | idx :: ns' =>
      x <- bonds_missing m idx true ;;
      rest <- gather_missing m ns' ;;
      Ok ((idx, Z.max x 0) :: rest)
  end.

Definition set_order (o : Q) (b : bond) : bond := mkBond (Some o).

(** The body of the loop over the edges; the state is the molecule with the
    dictionary [missing_bonds]. *)
Definition increment_edge (max_bond_order : Q) (e : node * node)
  (s : mol * list (node * Z)) : (mol * list (node * Z)) * result unit :=
  let '(molecule, missing_bonds) := s in
  let '(idx, jdx) := e in
  match lookup missing_bonds idx, lookup missing_bonds jdx,
        edge_attrs molecule idx jdx with
  | Some missing_idx, Some missing_jdx, Some attrs =>
      let edge_missing := Z.min missing_idx missing_jdx in
      let current_order := get (order attrs) (1 : Q) in
      if Qeq_bool current_order (3 # 2) then (s, Ok tt) else
      let new_order := (inject_Z edge_missing + current_order)%Q in
      let new_order := Qmin new_order max_bond_order in
      let molecule := update_edge idx jdx (set_order new_order) molecule in
      let missing_bonds := update idx (fun x => x - edge_missing) missing_bonds in
      let missing_bonds := update jdx (fun x => x - edge_missing) missing_bonds in
      ((molecule, missing_bonds), Ok tt)
  | _, _, _ => (s, Raise KeyError)
  end.

(** The loop over the edges, with the final [missing_bonds] kept visible. *)
Definition increment_loop (max_bond_order : Q) (molecule : mol)
  (missing_bonds : list (node * Z)) : (mol * list (node * Z)) * result unit :=
  for_each (edge_view molecule) (increment_edge max_bond_order)
           (molecule, missing_bonds).

Definition increment_bond_orders (max_bond_order : Q) (molecule : mol)
  : mol * result unit :=
  match gather_missing molecule (map fst (nodes molecule)) with
  | Raise e => (molecule, Raise e)
  | Ok missing_bonds =>
      let '((molecule', _), r) :=
        increment_loop max_bond_order molecule missing_bonds in
      (molecule', r)
  end.

(** ** fill_valence *)

Definition is_some {A : Type} (o : option A) : bool :=
  match o with Some _ => true | None => false end.

Definition fill_valence_node (respect_hcount : bool) (n_idx : node) (m : mol)
  : mol * result unit :=
  match node_attrs m n_idx with
  | None => (m, Raise KeyError)
  | Some a =>
      if is_some (hcount a) && respect_hcount then (m, Ok tt) else
      match bonds_missing m n_idx true with
      | Raise e => (m, Raise e)
      | Ok x =>
          let missing := Z.max x 0 in
          (update_node n_idx
             (fun a => set_hcount (Some (get (hcount a) 0 + missing)) a) m,
           Ok tt)
      end
  end.

Definition fill_valence (respect_hcount respect_bond_order : bool)
  (max_bond_order : Q) (m : mol) : mol * result unit :=
  let '(m1, r) :=
    if negb respect_bond_order
    then increment_bond_orders max_bond_order m
    else (m, Ok tt) in
  match r with
  | Raise e => (m1, Raise e)
  | Ok _ => for_each (map fst (nodes m1)) (fill_valence_node respect_hcount) m1
  end.

(** [fill_valence(mol)] with the default arguments. *)
Definition fill_valence_default (m : mol) : mol * result unit :=
  fill_valence true true (3 : Q) m.

(** ** mark_aromatic_edges *)

(** The values [mol.nodes[node].get('aromatic', 'False')] can take: the stored
    boolean, or the default, which is the string ['False']. *)
Inductive value : Type :=
| VBool (b : bool)
| VStr (s : string).

(** Python truth value: a string is true unless it is empty. *)
Definition truthy (v : value) : bool :=
  match v with
  | VBool b => b
  | VStr s => negb (String.eqb s EmptyString)
  end.

Definition get_aromatic_or_False_string (a : atom) : value :=
  match aromatic a with
  | Some b => VBool b
  | None => VStr "False"
  end.

Definition mark_aromatic_edge (e : node * node) (m : mol) : mol * result unit :=
  let '(u, v) := e in
  match node_attrs m u, node_attrs m v, edge_attrs m u v with
  | Some au, Some av, Some attrs =>
      if truthy (get_aromatic_or_False_string au)
         && truthy (get_aromatic_or_False_string av)
      then (update_edge u v (set_order (3 # 2)) m, Ok tt)
      else if negb (is_some (order attrs))
      then (update_edge u v (set_order (1 : Q)) m, Ok tt)
      else (m, Ok tt)
  | _, _, _ => (m, Raise KeyError)
  end.

Definition mark_aromatic_edges (m : mol) : mol * result unit :=
  for_each (edge_view m) mark_aromatic_edge m.

(** ** Python strings

    A Python [str] is a sequence of code points; a [string] holds its UTF-8
    encoding and [code_points] reads the sequence back.  Bytes that are not
    UTF-8 encode no [str]; they are read as U+FFFD. *)

Definition byte (c : ascii) : Z := Z.of_N (N_of_ascii c).

Definition REPLACEMENT : Z := 0xFFFD.

(** The code point [acc] after its last continuation byte: it must need the
    bytes that were used ([low] is the least code point that does) and be
    no surrogate. *)
Definition close_code_point (low acc : Z) : Z :=
  if (low <=? acc) && (acc <=? 0x10FFFF)
     && negb ((0xD800 <=? acc) && (acc <=? 0xDFFF))
  then acc else REPLACEMENT.

(** [pending] continuation bytes are still to come for the code point whose
    leading bits are [acc]. *)
Fixpoint decode (s : string) (pending : nat) (low acc : Z) : list Z :=
  match s with
  | EmptyString => match pending with O => [] | S _ => [REPLACEMENT] end
  | String c s' =>
      let b := byte c in
      let first :=
        if b <? 0x80 then b :: decode s' 0%nat 0 0
        else if (0xC0 <=? b) && (b <? 0xE0) then decode s' 1%nat 0x80 (b - 0xC0)
        else if (0xE0 <=? b) && (b <? 0xF0) then decode s' 2%nat 0x800 (b - 0xE0)
        else if (0xF0 <=? b) && (b <? 0xF8) then decode s' 3%nat 0x10000 (b - 0xF0)
        else REPLACEMENT :: decode s' 0%nat 0 0 in
      match pending with
      | O => first
      | S k =>
          if (0x80 <=? b) && (b <? 0xC0)
          then let acc := 64 * acc + (b - 0x80) in
               match k with
               | O => close_code_point low acc :: decode s' 0%nat 0 0
               | S _ => decode s' k low acc
               end
          else REPLACEMENT :: first
      end
  end.

Definition code_points (s : string) : list Z := decode s 0%nat 0 0.

(** The Unicode character database of CPython 3.11 (Unicode 14.0). *)

(** The digits zero of the decimal digits (category Nd); the nine code
    points after each are its digits one to nine. *)
Definition DECIMAL_ZEROS : list Z :=
  [
   0x30; 0x660; 0x6F0; 0x7C0; 0x966; 0x9E6; 0xA66; 0xAE6; 0xB66; 0xBE6;
   0xC66; 0xCE6; 0xD66; 0xDE6; 0xE50; 0xED0; 0xF20; 0x1040; 0x1090; 0x17E0;
   0x1810; 0x1946; 0x19D0; 0x1A80; 0x1A90; 0x1B50; 0x1BB0; 0x1C40; 0x1C50;
   0xA620; 0xA8D0; 0xA900; 0xA9D0; 0xA9F0; 0xAA50; 0xABF0; 0xFF10; 0x104A0;
   0x10D30; 0x11066; 0x110F0; 0x11136; 0x111D0; 0x112F0; 0x11450; 0x114D0;
   0x11650; 0x116C0; 0x11730; 0x118E0; 0x11950; 0x11C50; 0x11D50; 0x11DA0;
   0x16A60; 0x16AC0; 0x16B50; 0x1D7CE; 0x1D7D8; 0x1D7E2; 0x1D7EC; 0x1D7F6;
   0x1E140; 0x1E2F0; 0x1E950; 0x1FBF0 ].

(** The ranges of the characters with [Numeric_Type] Digit or Decimal. *)
Definition DIGIT_RANGES : list (Z * Z) :=
  [
   (0x30, 0x39); (0xB2, 0xB3); (0xB9, 0xB9); (0x660, 0x669); (0x6F0, 0x6F9);
   (0x7C0, 0x7C9); (0x966, 0x96F); (0x9E6, 0x9EF); (0xA66, 0xA6F);
   (0xAE6, 0xAEF); (0xB66, 0xB6F); (0xBE6, 0xBEF); (0xC66, 0xC6F);
   (0xCE6, 0xCEF); (0xD66, 0xD6F); (0xDE6, 0xDEF); (0xE50, 0xE59);
   (0xED0, 0xED9); (0xF20, 0xF29); (0x1040, 0x1049); (0x1090, 0x1099);
   (0x1369, 0x1371); (0x17E0, 0x17E9); (0x1810, 0x1819); (0x1946, 0x194F);
   (0x19D0, 0x19DA); (0x1A80, 0x1A89); (0x1A90, 0x1A99); (0x1B50, 0x1B59);
   (0x1BB0, 0x1BB9); (0x1C40, 0x1C49); (0x1C50, 0x1C59); (0x2070, 0x2070);
   (0x2074, 0x2079); (0x2080, 0x2089); (0x2460, 0x2468); (0x2474, 0x247C);
   (0x2488, 0x2490); (0x24EA, 0x24EA); (0x24F5, 0x24FD); (0x24FF, 0x24FF);
   (0x2776, 0x277E); (0x2780, 0x2788); (0x278A, 0x2792); (0xA620, 0xA629);
   (0xA8D0, 0xA8D9); (0xA900, 0xA909); (0xA9D0, 0xA9D9); (0xA9F0, 0xA9F9);
   (0xAA50, 0xAA59); (0xABF0, 0xABF9); (0xFF10, 0xFF19); (0x104A0, 0x104A9);
   (0x10A40, 0x10A43); (0x10D30, 0x10D39); (0x10E60, 0x10E68);
   (0x11052, 0x1105A); (0x11066, 0x1106F); (0x110F0, 0x110F9);
   (0x11136, 0x1113F); (0x111D0, 0x111D9); (0x112F0, 0x112F9);
   (0x11450, 0x11459); (0x114D0, 0x114D9); (0x11650, 0x11659);
   (0x116C0, 0x116C9); (0x11730, 0x11739); (0x118E0, 0x118E9);
   (0x11950, 0x11959); (0x11C50, 0x11C59); (0x11D50, 0x11D59);
   (0x11DA0, 0x11DA9); (0x16A60, 0x16A69); (0x16AC0, 0x16AC9);
   (0x16B50, 0x16B59); (0x1D7CE, 0x1D7FF); (0x1E140, 0x1E149);
   (0x1E2F0, 0x1E2F9); (0x1E950, 0x1E959); (0x1F100, 0x1F10A);
   (0x1FBF0, 0x1FBF9) ].

(** The whitespace characters from U+007F on. *)
Definition WHITESPACE : list Z :=
  [
   0x85; 0xA0; 0x1680; 0x2000; 0x2001; 0x2002; 0x2003; 0x2004; 0x2005;
   0x2006; 0x2007; 0x2008; 0x2009; 0x200A; 0x2028; 0x2029; 0x202F; 0x205F;
   0x3000 ].

(** [Py_UNICODE_TODECIMAL] *)
Definition unicode_decimal (cp : Z) : option Z :=
  option_map (fun zero => cp - zero)
             (find (fun zero => (zero <=? cp) && (cp <? zero + 10)) DECIMAL_ZEROS).

(** [str.isdigit] on one character. *)
Definition isdigit (cp : Z) : bool :=
  existsb (fun r => (fst r <=? cp) && (cp <=? snd r)) DIGIT_RANGES.

(** ** int and str *)

(** [sys.get_int_max_str_digits()], at its default. *)
Definition int_max_str_digits : Z := 4300.

(** What a character is to [int]: [int] first maps whitespace from U+007F
    on to a blank and decimal digits to ASCII digits
    ([_PyUnicode_TransformDecimalAndSpaceToASCII]), and then reads ASCII
    ([PyLong_FromString]). *)
Inductive int_char : Type :=
| Blank | Plus | Minus | Underscore | Digit (d : Z) | Other.

Definition int_char_of (cp : Z) : int_char :=
  if cp <? 127 then
    if ((9 <=? cp) && (cp <=? 13)) || (cp =? 32) then Blank
    else if cp =? 43 then Plus
    else if cp =? 45 then Minus
    else if cp =? 95 then Underscore
    else if (48 <=? cp) && (cp <=? 57) then Digit (cp - 48)
    else Other
  else if existsb (Z.eqb cp) WHITESPACE then Blank
  else match unicode_decimal cp with
       | Some d => Digit d
       | None => Other
       end.

Fixpoint skip_blanks (l : list int_char) : list int_char :=
  match l with
  | Blank :: l' => skip_blanks l'
  | _ => l
  end.

(** The digits of the literal, with single underscores between them;
    [after_underscore] holds at the start too, where an underscore is as
    wrong as after another one.  [None] is a malformed literal, or one
    without digits. *)
Fixpoint scan_digits (l : list int_char) (after_underscore : bool) (digits : list Z)
  : option (list Z * list int_char) :=
  match l with
  | Digit d :: l' => scan_digits l' false (d :: digits)
  | Underscore :: l' =>
      if after_underscore then None else scan_digits l' true digits
  | _ => if after_underscore then None else Some (rev digits, l)
  end.

Definition decimal_value (digits : list Z) : Z :=
  fold_left (fun acc d => 10 * acc + d) digits 0.

(** [int(s)] on the characters of a string. *)
Definition int_of_code_points (cps : list Z) : result Z :=
  let l := skip_blanks (map int_char_of cps) in
  let '(sign, l) := match l with
                    | Plus :: l' => (1, l')
                    | Minus :: l' => (-1, l')
                    | _ => (1, l)
                    end in
  match scan_digits l true [] with
  | None => Raise ValueError
  | Some (digits, rest) =>
      match skip_blanks rest with
      | [] =>
          if int_max_str_digits <? Z.of_nat (List.length digits)
          then Raise ValueError
          else Ok (sign * decimal_value digits)
      | _ :: _ => Raise ValueError
      end
  end.

Definition int_of_string (s : string) : result Z :=
  int_of_code_points (code_points s).

(** [str(z)]: decimal digits, with a minus sign when negative. *)
Definition py_str (z : Z) : result string :=
  let digits := match Z.to_int z with
                | Decimal.Pos u => u
                | Decimal.Neg u => u
                end in
  if int_max_str_digits <? Z.of_nat (Decimal.nb_digits digits)
  then Raise ValueError
  else Ok (NilZero.string_of_int (Z.to_int z)).

(** ** parse_atom *)

(** The named groups of a match of [ATOM_PATTERN]; [None] is a group that
    did not take part in the match.  The group [element] is not optional in
    the pattern. *)
Record groups : Type := mkGroups {
  g_isotope : option string;
  g_element : string;
  g_stereo  : option string;
  g_hcount  : option string;
  g_charge  : option string;
  g_class   : option string
}.

(** [None] is the default [0] of the dictionary [defaults], on which
    [not hcount_str] holds. *)
Definition parse_hcount (hcount_str : option string) : result Z :=
  match hcount_str with
  | None => Ok 0
  | Some s =>
      match code_points s with
      | [] => Ok 0
      | c :: rest =>
          if (c =? 72) && match rest with [] => true | _ :: _ => false end
          then Ok 1
          else int_of_code_points rest
      end
  end.

(** [s.count(c)] for a single character [c]. *)
Fixpoint count_char (c : Z) (s : list Z) : Z :=
  match s with
  | [] => 0
  | c' :: s' => (if c =? c' then 1 else 0) + count_char c s'
  end.

Definition parse_charge (charge_str : option string) : result Z :=
  match charge_str with
  | None => Ok 0
  | Some s =>
      match code_points s with
      | [] => Ok 0
      | c :: rest =>
          sign <- (if c =? 45 then Ok (-1)
                   else if c =? 43 then Ok 1
                   else Raise KeyError) ;;
          match rest with
          | d :: _ =>
              if isdigit d
              then (n <- int_of_code_points rest ;; Ok (sign * n))
              else Ok (sign * count_char c (c :: rest))
          | [] => Ok (sign * count_char c (c :: rest))
          end
      end
  end.

(** [parse_atom] from the match of [ATOM_PATTERN] on.  The values are
    converted in the order of the dictionary [out]: [charge], [hcount],
    [isotope], [class]. *)
Definition parse_atom_match (m : option groups) : result atom :=
  match m with
  | None => Raise ValueError
  | Some g =>
      let aromatic := islower (g_element g) in
      charge <- parse_charge (g_charge g) ;;
      hcount <- parse_hcount (g_hcount g) ;;
      isotope <- match g_isotope g with
                 | None => Ok None
                 | Some s => (n <- int_of_string s ;; Ok (Some n))
                 end ;;
      let element := capitalize (g_element g) in
      class <- match g_class g with
               | None => Ok None
               | Some s => (n <- int_of_string s ;; Ok (Some n))
               end ;;
      let element := if String.eqb element "*" then None else Some element in
      if match element with Some e => String.eqb e "H" | None => false end
         && negb (hcount =? 0)
      then Raise ValueError
      else Ok (mkAtom element (Some charge) (Some hcount) (Some aromatic)
                      isotope class (g_stereo g))
  end.

Definition startswith (s : string) (c : ascii) : bool :=
  match s with
  | String c' _ => Ascii.eqb c c'
  | EmptyString => false
  end.
Fixpoint endswith (s : string) (c : ascii) : bool :=
  match s with
  | EmptyString => false
  | String c' EmptyString => Ascii.eqb c c'
  | String _ s' => endswith s' c
  end.

Section Tokens.
(** [ATOM_PATTERN.match]: the regular expression of the tokenizer. *)
Variable ATOM_PATTERN : string -> option groups.

Definition parse_atom (token : string) : result atom :=
  if negb (startswith token "[") && negb (endswith token "]") then
    if negb (String.eqb token "*")
    then Ok (mkAtom (Some (capitalize token)) (Some 0) None
                    (Some (islower token)) None None None)
    else Ok (mkAtom None (Some 0) (Some 0) (Some false) None None None)
  else parse_atom_match (ATOM_PATTERN token).
End Tokens.

(** ** add_explicit_hydrogens *)

(** The match of [ATOM_PATTERN] on ["[H]"]: the element alone. *)
Definition H_groups : groups := mkGroups None "H" None None None None.

(** [h_atom]: [parse_atom('[H]')] without its key [hcount]. *)
Definition h_atom : result atom :=
  a <- parse_atom_match (Some H_groups) ;; Ok (set_hcount None a).

(** [max(mol)]: the largest node key; fails on an empty graph. *)
Definition max_node (m : mol) : result node :=
  match map fst (nodes m) with
  | [] => Raise ValueError
  | k :: ks => Ok (fold_left Z.max ks k)
  end.

(** [**attrs] of [add_nodes_from] on a node that exists: the keys of [h]
    overwrite those of [a]. *)
Definition or_else {A : Type} (x y : option A) : option A :=
  match x with Some _ => x | None => y end.
Definition merge_atom (h a : atom) : atom :=
  mkAtom (or_else (element h) (element a)) (or_else (charge h) (charge a))
         (or_else (hcount h) (hcount a)) (or_else (aromatic h) (aromatic a))
         (or_else (isotope h) (isotope a)) (or_else (class_ h) (class_ a))
         (or_else (stereo h) (stereo a)).

Definition empty_atom : atom := mkAtom None None None None None None None.

Definition add_node (k : node) (attrs : atom) (m : mol) : mol :=
  if mem k (map fst (nodes m))
  then update_node k (merge_atom attrs) m
  else mkMol (nodes m ++ [(k, attrs)]) (edges m).

Definition add_nodes_from (ks : list node) (attrs : atom) (m : mol) : mol :=
  fold_left (fun m k => add_node k attrs m) ks m.

(** [add_edge(u, v, order=...)]: missing end points are added with no
    attribute; an edge that exists has its attribute overwritten. *)
Definition add_edge (u v : node) (attrs : bond) (m : mol) : mol :=
  let m := add_node u empty_atom m in
  let m := add_node v empty_atom m in
  if existsb (fun e => same_edge u v (fst e)) (edges m)
  then update_edge u v (fun _ => attrs) m
  else mkMol (nodes m) (edges m ++ [((u, v), attrs)]).

Definition add_edges_from (es : list (node * node)) (attrs : bond) (m : mol)
  : mol :=
  fold_left (fun m e => add_edge (fst e) (snd e) attrs m) es m.

Definition add_hydrogens_node (h : atom) (n_idx : node) (m : mol)
  : mol * result unit :=
  match node_attrs m n_idx, max_node m with
  | Some a, Ok mx =>
      let hcount := get (hcount a) 0 in
      (* range(max(mol) + 1, max(mol) + hcount + 1) *)
      let idxs := map (fun i => mx + 1 + i) (range hcount) in
      let m := add_nodes_from idxs h m in
      let m := add_edges_from (map (fun jdx => (n_idx, jdx)) idxs)
                              (mkBond (Some (1 : Q))) m in
      (update_node n_idx (set_hcount None) m, Ok tt)
  | None, _ => (m, Raise KeyError)
  | _, Raise e => (m, Raise e)
  end.

Definition add_explicit_hydrogens (m : mol) : mol * result unit :=
  match h_atom with
  | Raise e => (m, Raise e)
  | Ok h => for_each (map fst (nodes m)) (add_hydrogens_node h) m
  end.

(** ** remove_explicit_hydrogens *)

Definition element_is_H (a : atom) : bool :=
  String.eqb (get (element a) EmptyString) "H".

(** The test of the first loop: the node is a hydrogen that will be removed,
    and [Some neighbor] is returned. *)
Definition removable (m : mol) (n_idx : node) (a : atom) : option node :=
  let neighbors := map fst (adj m n_idx) in
  if (get (charge a) 0 =? 0) && element_is_H a && negb (is_some (isotope a))
     && (get (class_ a) 0 =? 0) && (Z.of_nat (List.length neighbors) =? 1)
  then
    match adj m n_idx with
    | (neighbor, attrs) :: _ =>
        match node_attrs m neighbor with
        | Some b =>
            if element_is_H b || negb (Qeq_bool (get (order attrs) (1 : Q)) (1 : Q))
            then None
            else Some neighbor
        | None => None
        end
    | [] => None
    end
  else None.

Definition remove_hydrogens_node (n_idx : node) (s : mol * list node)
  : (mol * list node) * result unit :=
  let '(m, to_remove) := s in
  match node_attrs m n_idx with
  | None => (s, Raise KeyError)
  | Some a =>
      match removable m n_idx a with
      | None => (s, Ok tt)
      | Some neighbor =>
          ((update_node neighbor
              (fun b => set_hcount (Some (get (hcount b) 0 + 1)) b) m,
            n_idx :: to_remove), Ok tt)
      end
  end.

(** [mol.remove_nodes_from]: the nodes and the edges on them. *)
Definition remove_nodes_from (to_remove : list node) (m : mol) : mol :=
  mkMol (filter (fun kv => negb (mem (fst kv) to_remove)) (nodes m))
        (filter (fun e => negb (mem (fst (fst e)) to_remove)
                          && negb (mem (snd (fst e)) to_remove)) (edges m)).

Definition default_hcount (a : atom) : atom :=
  if is_some (hcount a) then a else set_hcount (Some 0) a.

Definition remove_explicit_hydrogens (m : mol) : mol * result unit :=
  let '((m1, to_remove), r) :=
    for_each (map fst (nodes m)) remove_hydrogens_node (m, []) in
  match r with
  | Raise e => (m1, Raise e)
  | Ok _ =>
      let m2 := remove_nodes_from to_remove m1 in
      (mkMol (map (fun kv => (fst kv, default_hcount (snd kv))) (nodes m2))
             (edges m2), Ok tt)
  end.

(** ** mark_aromatic_atoms *)

(** [mol.subgraph(ns)]: the nodes of [ns] and the edges between them. *)
Definition subgraph (m : mol) (ns : list node) : mol :=
  mkMol (filter (fun kv => mem (fst kv) ns) (nodes m))
        (filter (fun e => mem (fst (fst e)) ns && mem (snd (fst e)) ns)
                (edges m)).

(** The list [new_nodes] of [_prune_nodes]. *)
Fixpoint eligible_nodes (m : mol) (ns : list node) : result (list node) :=
  match ns with
  | [] => Ok []
  | n :: ns' =>
      a <- of_option KeyError (node_attrs m n) ;;
      if String.eqb (get (element a) "*"%string) "*"
      then (rest <- eligible_nodes m ns' ;; Ok (n :: rest))
      else
        missing <- bonds_missing m n true ;;
        rest <- eligible_nodes m ns' ;;
        Ok (if 0 <? missing then n :: rest else rest)
  end.

Definition _prune_nodes (ns : list node) (m : mol) : result mol :=
  new_nodes <- eligible_nodes m ns ;; Ok (subgraph m new_nodes).

(** What the graph algorithms of [networkx] read: node keys and edge end
    points (no edge of the data model carries a [weight]). *)
Definition skeleton : Type := (list node * list (node * node))%type.
Definition structure (m : mol) : skeleton :=
  (map fst (nodes m), map fst (edges m)).

Definition has_edge (g : skeleton) (u v : node) : bool :=
  existsb (same_edge u v) (snd g).

(** [nx.is_perfect_matching(G, matching)] for a matching given as a set of
    pairs; [seen] is the local set [nodes]. *)
Fixpoint is_perfect_matching_from (g : skeleton) (matching : list (node * node))
  (seen : list node) : result bool :=
  match matching with
  | [] => Ok (Nat.eqb (List.length seen) (List.length (fst g)))
  | (u, v) :: rest =>
      if negb (mem u (fst g)) || negb (mem v (fst g)) then Raise NetworkXError
      else if u =? v then Ok false
      else if negb (has_edge g u v) then Ok false
      else if mem u seen || mem v seen then Ok false
      else is_perfect_matching_from g rest (v :: u :: seen)
  end.
Definition is_perfect_matching (g : skeleton) (matching : list (node * node))
  : result bool :=
  is_perfect_matching_from g matching [].

(** [nx.set_node_attributes(mol, False, 'aromatic')] *)
Definition clear_aromatic (m : mol) : mol :=
  mkMol (map (fun kv => (fst kv, set_aromatic (Some false) (snd kv))) (nodes m))
        (edges m).

Section Kekulize.
(** The graph algorithms taken from [networkx]. *)
Variable connected_components : skeleton -> list (list node).
Variable max_weight_matching : skeleton -> list (node * node).
Variable cycle_basis : skeleton -> list (list node).

(** The body of the loop over the connected components. *)
Definition mark_component (sub_ds : list node) (m : mol) : mol * result unit :=
  let sub_ds_graph := subgraph m sub_ds in
  let max_match := max_weight_matching (structure sub_ds_graph) in
  match is_perfect_matching (structure sub_ds_graph) max_match with
  | Raise e => (m, Raise e)
  | Ok false => (m, Raise SyntaxError)
  | Ok true =>
      let cycles := cycle_basis (structure sub_ds_graph) in
      let nodes_in_cycles := concat cycles in
      let m :=
        fold_left
          (fun m cycle =>
             fold_left (fun m n => update_node n (set_aromatic (Some true)) m)
                       cycle m)
          cycles m in
      let m :=
        fold_left
          (fun m n =>
             if negb (mem n nodes_in_cycles)
             then update_node n (set_aromatic (Some false)) m
             else m)
          (map fst (nodes sub_ds_graph)) m in
      for_each max_match
        (fun edge m =>
           if negb (mem (fst edge) nodes_in_cycles)
              && negb (mem (snd edge) nodes_in_cycles)
           then match edge_attrs m (fst edge) (snd edge) with
                | Some _ =>
                    (update_edge (fst edge) (snd edge) (set_order 2) m, Ok tt)
                | None => (m, Raise KeyError)
                end
           else (m, Ok tt))
        m
  end.

(** [atoms = None] is the default: all the nodes of the molecule. *)
Definition mark_aromatic_atoms (atoms : option (list node)) (m : mol)
  : mol * result unit :=
  let atoms := get atoms (map fst (nodes m)) in
  match _prune_nodes atoms m with
  | Raise e => (m, Raise e)
  | Ok ds_graph =>
      let m := clear_aromatic m in
      for_each (connected_components (structure ds_graph)) mark_component m
  end.

Definition correct_aromatic_rings (m : mol) : mol * result unit :=
  let '(m, r) := fill_valence_default m in
  match r with
  | Raise e => (m, Raise e)
  | Ok _ =>
      let '(m, r) := mark_aromatic_atoms (Some (map fst (nodes m))) m in
      match r with
      | Raise e => (m, Raise e)
      | Ok _ => mark_aromatic_edges m
      end
  end.
End Kekulize.

(** ** Example atoms and molecules *)

(** The elements of [ELECTRON_COUNTS]. *)
Definition supported (e : string) : Prop := In e (map fst ELECTRON_COUNTS).

(** [parse_atom('[I-]')] *)
Definition iodide : atom :=
  mkAtom (Some "I"%string) (Some (-1)) (Some 0) (Some false) None None None.

(** [parse_atom('[H+2]')] *)
Definition H_plus2 : atom :=
  mkAtom (Some "H"%string) (Some 2) (Some 0) (Some false) None None None.

(** The property of the valence list, as a predicate of the list. *)
Definition ascending_valences (l : list Z) : Prop :=
  l <> [] /\ Forall (fun v => 0 <= v) l /\ StronglySorted Z.lt l.

(** [parse_atom('C')] and [parse_atom('c')]: no key [hcount]. *)
Definition carbon : atom :=
  mkAtom (Some "C"%string) (Some 0) None (Some false) None None None.
Definition aromatic_carbon : atom :=
  mkAtom (Some "C"%string) (Some 0) None (Some true) None None None.

(** [parse_atom('H')] *)
Definition plain_H : atom :=
  mkAtom (Some "H"%string) (Some 0) None (Some false) None None None.

(** A node added with [mol.add_node(n, element='C')]: no key [aromatic]. *)
Definition element_only_carbon : atom :=
  mkAtom (Some "C"%string) None None None None None None.

(** An edge without the key [order]. *)
Definition no_order : bond := mkBond None.

(** Three carbons in a chain, C-C-C, no [hcount]. *)
Definition propane_chain : mol :=
  mkMol [(0, carbon); (1, carbon); (2, carbon)]
        [((0, 1), no_order); ((1, 2), no_order)].

(** Two aromatic carbons joined by a bond of order 1.5. *)
Definition aromatic_pair : mol :=
  mkMol [(0, aromatic_carbon); (1, aromatic_carbon)]
        [((0, 1), mkBond (Some (3 # 2)))].

(** Two carbons without the key [aromatic], joined by an edge without
    [order]. *)
Definition plain_pair : mol :=
  mkMol [(0, element_only_carbon); (1, element_only_carbon)]
        [((0, 1), no_order)].

(** A single hydrogen atom. *)
Definition lone_H : mol := mkMol [(0, plain_H)] [].

(** The smallest element of a list of integers ([d] for the empty list). *)
Definition list_min (l : list Z) (d : Z) : Z :=
  match l with
  | [] => d
  | x :: l' => fold_left Z.min l' x
  end.

(** [bonds_missing] in the words of the specification: the load is the bond
    load plus the stored hcount, the admissible valences are those [>= load]
    with [[0]] as fall-back, and the result is
    [max(min(admissible) - load, 0)]. *)
Definition load (m : mol) (n : node) (weighted : bool) (a : atom) : Q :=
  (_bonds m n weighted + inject_Z (get (hcount a) 0%Z))%Q.
Definition bonds_missing_spec (val : list Z) (load : Q) : Q :=
  Qmax (inject_Z (list_min (admissible val load) 0) - load) (0 : Q).

(** The valences of a shell of even size [2 * half] holding [e < 2 * half]
    electrons. *)
Definition singles (half e : Z) : Z := if e <=? half then e else 2 * half - e.
Definition pairs (half e : Z) : Z := if e <=? half then 0 else e - half.


(** The molecule [m] with the [hcount] of every node [k] replaced by
    [H k]. *)
Definition with_hcounts (H : node -> option Z) (m : mol) : mol :=
  mkMol (map (fun kv => (fst kv, set_hcount (H (fst kv)) (snd kv))) (nodes m))
        (edges m).

Definition hcount_of (m : mol) (k : node) : option Z :=
  match node_attrs m k with
  | Some a => hcount a
  | None => None
  end.

(** [mol.nodes[nb]['hcount'] = mol.nodes[nb].get('hcount', 0) + 1] on the
    table of hcounts. *)
Definition bump (nb : node) (H : node -> option Z) : node -> option Z :=
  fun k => if k =? nb then Some (get (H k) 0 + 1) else H k.

(** The hydrogen [x] of [m] passes the test of [remove_explicit_hydrogens]
    and its neighbour is [n]. *)
Definition removed_from (m : mol) (n x : node) : bool :=
  match node_attrs m x with
  | Some a =>
      match removable m x a with
      | Some nb => nb =? n
      | None => false
      end
  | None => false
  end.

(** The number of hydrogens that [remove_explicit_hydrogens] takes from
    [n]. *)
Definition count_removed (m : mol) (n : node) : nat :=
  length (filter (removed_from m n) (map fst (nodes m))).

(** The first loop of [remove_explicit_hydrogens] on the table of hcounts
    and the set [to_remove]. *)
Definition remove_step (m : mol) (s : (node -> option Z) * list node) (x : node)
  : (node -> option Z) * list node :=
  match node_attrs m x with
  | Some a =>
      match removable m x a with
      | Some nb => (bump nb (fst s), x :: snd s)
      | None => s
      end
  | None => s
  end.

(** Well-formed graphs: node keys are unique and the end points of every
    edge are nodes, as [networkx] keeps them. *)
Definition keys (m : mol) : list node := map fst (nodes m).
Definition edges_closed (m : mol) : Prop :=
  forall e, In e (edges m) -> In (fst (fst e)) (keys m) /\ In (snd (fst e)) (keys m).
Definition wf (m : mol) : Prop := NoDup (keys m) /\ edges_closed m.

(** The value of [h_atom]. *)
Definition hydrogen_atom : atom :=
  mkAtom (Some "H"%string) (Some 0) None (Some false) None None None.

(** The state of the loop of [add_explicit_hydrogens]: the nodes [done] have
    lost their [hcount], the nodes [todo] are still to be visited, and [p]
    lists for every node of [done] the keys of the hydrogens added to it. *)
Definition strip (kv : node * atom) : node * atom :=
  (fst kv, set_hcount None (snd kv)).
Definition new_nodes (p : list (node * list node)) : list (node * atom) :=
  flat_map (fun q => map (fun j => (j, hydrogen_atom)) (snd q)) p.
Definition new_edges (p : list (node * list node)) : list ((node * node) * bond) :=
  flat_map (fun q => map (fun j => ((fst q, j), mkBond (Some (1 : Q)))) (snd q)) p.
Definition with_hydrogens (done todo : list (node * atom))
  (es : list ((node * node) * bond)) (p : list (node * list node)) : mol :=
  mkMol ((map strip done ++ todo) ++ new_nodes p) (es ++ new_edges p).

(** [p] gives every node of [done] as many hydrogens as its [hcount]. *)
Definition planned (q : node * list node) (d : node * atom) : Prop :=
  fst q = fst d /\ length (snd q) = Z.to_nat (get (hcount (snd d)) 0).

(** [parse_atom('[CH3]')] and [parse_atom('[H]')]. *)
Definition CH3 : atom :=
  mkAtom (Some "C"%string) (Some 0) (Some 3) (Some false) None None None.
Definition bracket_H : atom :=
  mkAtom (Some "H"%string) (Some 0) (Some 0) (Some false) None None None.

(** Methane written with one explicit hydrogen: [[CH3][H]]. *)
Definition methane_one_explicit : mol :=
  mkMol [(0, CH3); (1, bracket_H)] [((0, 1), mkBond (Some (1 : Q)))].



(** [add_explicit_hydrogens] followed by [remove_explicit_hydrogens]. *)
Definition round_trip (m : mol) : mol :=
  fst (remove_explicit_hydrogens (fst (add_explicit_hydrogens m))).

(** Two carbons with [hcount = 3] joined by a single bond: [[CH3][CH3]]. *)
Definition ethane : mol :=
  mkMol [(0, CH3); (1, CH3)] [((0, 1), mkBond (Some (1 : Q)))].

(** ** Matchings and connected components *)

(** The sub-graph induced by the nodes [C], on the skeleton. *)
Definition induced (g : skeleton) (C : list node) : skeleton :=
  (filter (fun k => mem k C) (fst g),
   filter (fun e => mem (fst e) C && mem (snd e) C) (snd g)).

Definition endpoints (M : list (node * node)) : list node :=
  flat_map (fun e => [fst e; snd e]) M.

(** A matching: edges of the graph, no two of which share a node. *)
Definition matching (g : skeleton) (M : list (node * node)) : Prop :=
  NoDup (endpoints M) /\
  forall e, In e M ->
    In (fst e) (fst g) /\ In (snd e) (fst g) /\ has_edge g (fst e) (snd e) = true.

(** A perfect matching covers every node. *)
Definition perfect_matching (g : skeleton) (M : list (node * node)) : Prop :=
  matching g M /\ forall v, In v (fst g) -> In v (endpoints M).

(** A matching of maximum cardinality. *)
Definition maximum_matching (g : skeleton) (M : list (node * node)) : Prop :=
  matching g M /\ forall M', matching g M' -> (length M' <= length M)%nat.

Definition adjacent (g : skeleton) (u v : node) : Prop :=
  In u (fst g) /\ In v (fst g) /\ has_edge g u v = true.

Definition connected (g : skeleton) : node -> node -> Prop :=
  clos_refl_trans node (adjacent g).

(** [C] lists, without repetition, the nodes connected to one node [r]. *)
Definition is_component (g : skeleton) (C : list node) : Prop :=
  NoDup C /\
  exists r, In r (fst g) /\ forall v, In v C <-> In v (fst g) /\ connected g r v.

(** [Cs] are the connected components of [g]: what
    [nx.connected_components] yields. *)
Definition components_of (g : skeleton) (Cs : list (list node)) : Prop :=
  (forall C, In C Cs -> is_component g C) /\
  (forall v, In v (fst g) -> exists C, In C Cs /\ In v C).

(** [parse_atom('*')] *)
Definition wildcard : atom :=
  mkAtom None (Some 0) (Some 0) (Some false) None None None.

(** Five wildcard atoms in a ring. *)
Definition wildcard_ring5 : mol :=
  mkMol [(0, wildcard); (1, wildcard); (2, wildcard); (3, wildcard); (4, wildcard)]
        [((0, 1), no_order); ((1, 2), no_order); ((2, 3), no_order);
         ((3, 4), no_order); ((4, 0), no_order)].

(** Reference algorithms on small graphs, standing for those of [networkx]
    in the examples: a maximum matching by exhaustive search, and connected
    components by closure under adjacency. *)
Fixpoint best_matching (es : list (node * node)) (used : list node)
  : list (node * node) :=
  match es with
  | [] => []
  | (u, v) :: es' =>
      let skip := best_matching es' used in
      if (u =? v) || mem u used || mem v used then skip
      else
        let take := (u, v) :: best_matching es' (u :: v :: used) in
        if (length skip <? length take)%nat then take else skip
  end.
Definition search_matching (g : skeleton) : list (node * node) :=
  best_matching
    (filter (fun e => mem (fst e) (fst g) && mem (snd e) (fst g)) (snd g)) [].

Fixpoint grow (g : skeleton) (fuel : nat) (C : list node) : list node :=
  match fuel with
  | O => C
  | S fuel' =>
      grow g fuel'
           (C ++ filter (fun w => negb (mem w C)
                                  && existsb (fun u => has_edge g u w) C) (fst g))
  end.
Fixpoint components_from (g : skeleton) (vs seen : list node) : list (list node) :=
  match vs with
  | [] => []
  | v :: vs' =>
      if mem v seen then components_from g vs' seen
      else
        let C := grow g (length (fst g)) [v] in
        C :: components_from g vs' (C ++ seen)
  end.
Definition closure_components (g : skeleton) : list (list node) :=
  components_from g (fst g) [].

(** The update of [fill_valence] on one node: [x] more hydrogens. *)
Definition add_hcount (x : Z) (a : atom) : atom :=
  set_hcount (Some (get (hcount a) 0 + Z.max x 0)) a.

(** An ethane skeleton without hydrogen counts: two carbons, one bond. *)
Definition two_carbons : mol :=
  mkMol [(0, carbon); (1, carbon)] [((0, 1), no_order)].

(** ** format_atom *)

(** The block of [format_atom] that builds [hcountstr]. *)
Definition hcountstr (hcount : Z) : result string :=
  if negb (hcount =? 0)
  then (if 1 <? hcount
        then (s <- py_str hcount ;; Ok ("H" ++ s)%string)
        else Ok "H"%string)
  else Ok EmptyString.

(** The block of [format_atom] that builds [chargestr]. *)
Definition chargestr (charge : Z) : result string :=
  if 0 <? charge
  then (if 1 <? charge
        then (s <- py_str charge ;; Ok ("+" ++ s)%string)
        else Ok "+"%string)
  else if charge <? 0
  then (if charge <? -1
        then (s <- py_str (- charge) ;; Ok ("-" ++ s)%string)
        else Ok "-"%string)
  else Ok EmptyString.





(** An atom takes part in the delocalization: it is a wildcard, or it
    misses at least one bond. *)
Definition eligible (m : mol) (n : node) : Prop :=
  exists a, node_attrs m n = Some a /\
            (get (element a) "*"%string = "*"%string \/
             exists x, bonds_missing m n true = Ok x /\ 0 < x).

(** A charge written as repeated signs: [n] times the character [c]. *)
Fixpoint replicate (c : ascii) (n : nat) : string :=
  match n with
  | O => EmptyString
  | S n' => String c (replicate c n')
  end.

(** The number of implicit hydrogens of a molecule: the sum of the positive
    [hcount]s. *)
Definition total_hcount (m : mol) : nat :=
  list_sum (map (fun kv => Z.to_nat (get (hcount (snd kv)) 0)) (nodes m)).

(** The atom [n] is a simple explicit hydrogen: its element is H, its
    charge 0 or absent, it has no isotope and the class 0 or none, and it is
    bonded to exactly one atom, which is not a hydrogen, by a bond of order 1
    or without order. *)
Definition simple_hydrogen (m : mol) (n : node) : Prop :=
  exists a nb attrs b,
    node_attrs m n = Some a /\
    element a = Some "H"%string /\ get (charge a) 0 = 0 /\ isotope a = None /\
    get (class_ a) 0 = 0 /\
    adj m n = [(nb, attrs)] /\
    node_attrs m nb = Some b /\ element b <> Some "H"%string /\
    get (order attrs) (1 : Q) == 1.

(** The node [n] of [m] is one that [remove_explicit_hydrogens] removes. *)
Definition is_removed (m : mol) (n : node) : Prop :=
  exists a nb, node_attrs m n = Some a /\ removable m n a = Some nb.

(** ** mark_aromatic_edges, edge by edge *)

(** The truth value [mark_aromatic_edges] reads on a node. *)
Definition reads_aromatic (m : mol) (n : node) : bool :=
  match node_attrs m n with
  | Some a => truthy (get_aromatic_or_False_string a)
  | None => false
  end.

(** What [mark_aromatic_edges] makes of one edge. *)
Definition marked (m : mol) (e : (node * node) * bond) : (node * node) * bond :=
  (fst e,
   mkBond (Some (if reads_aromatic m (fst (fst e)) && reads_aromatic m (snd (fst e))
                 then 3 # 2
                 else get (order (snd e)) (1 : Q)))).

(** No two edges join the same pair of nodes. *)
Definition simple (m : mol) : Prop :=
  ForallOrdPairs
    (fun e1 e2 => same_edge (fst (fst e1)) (snd (fst e1)) (fst e2) = false)
    (edges m).

(** The edge [e] joins one of the pairs of [prs]. *)
Definition covered (prs : list (node * node)) (e : (node * node) * bond) : bool :=
  existsb (fun pr => same_edge (fst pr) (snd pr) (fst e)) prs.

(** ** What mark_aromatic_atoms may change *)

(** [s] differs from [m] at most in the [aromatic] attribute of atoms and in
    the attributes of edges. *)
Definition same_but_aromatic (m s : mol) : Prop :=
  structure s = structure m /\
  forall n, option_map (set_aromatic None) (node_attrs s n)
            = option_map (set_aromatic None) (node_attrs m n).

(** Every atom has the key [aromatic]. *)
Definition all_aromatic_set (s : mol) : Prop :=
  forall n a, node_attrs s n = Some a -> is_some (aromatic a) = true.

(** The atom [n] carries [aromatic = True]. *)
Definition stored_aromatic (m : mol) (n : node) : Prop :=
  exists a, node_attrs m n = Some a /\ aromatic a = Some true.

(** [parse_atom('[cH]')] *)
Definition cH : atom :=
  mkAtom (Some "C"%string) (Some 0) (Some 1) (Some true) None None None.

(** Benzene as [[cH]1[cH][cH][cH][cH][cH]1]: six carbons with one hydrogen
    each in a ring of bonds without order, so that every carbon misses one
    bond. *)
Definition benzene_ring : mol :=
  mkMol [(0, cH); (1, cH); (2, cH); (3, cH); (4, cH); (5, cH)]
        [((0, 1), no_order); ((1, 2), no_order); ((2, 3), no_order);
         ((3, 4), no_order); ((4, 5), no_order); ((0, 5), no_order)].

(** ** What increment_bond_orders makes of an edge *)

(** [molecule.edges[idx, jdx].get("order", 1)] *)
Definition current_order (e : (node * node) * bond) : Q := get (order (snd e)) (1 : Q).

(** No edge joins a node to itself. *)
Definition loop_free (m : mol) : Prop :=
  forall e, In e (edges m) -> fst (fst e) <> snd (fst e).

(** The edge [e'] is the edge [e] after a visit of the loop: left alone when
    its order is 1.5, and otherwise given an order that is at most
    [max_bond_order] and not below the order it had (or [max_bond_order], if
    that is less). *)
Definition raised (max_bond_order : Q) (e e' : (node * node) * bond) : Prop :=
  fst e' = fst e /\
  if Qeq_bool (current_order e) (3 # 2) then e' = e
  else exists q, order (snd e') = Some q /\
                 (q <= max_bond_order)%Q /\
                 (Qmin (current_order e) max_bond_order <= q)%Q.

(** The state of the loop of [increment_bond_orders] over the edges once the
    pairs [done] have been visited: [s] is the molecule and the dictionary
    [missing_bonds], [mb0] the dictionary as it was gathered. *)
Definition increment_state (max_bond_order : Q) (m : mol) (mb0 : list (node * Z))
  (done : list (node * node)) (s : mol * list (node * Z)) : Prop :=
  nodes (fst s) = nodes m /\
  Forall2 (fun e e' => if covered done e then raised max_bond_order e e' else e' = e)
          (edges m) (edges (fst s)) /\
  map fst (snd s) = map fst (nodes m) /\
  (forall n x, lookup (snd s) n = Some x -> 0 <= x) /\
  (forall n x0 x, lookup mb0 n = Some x0 -> lookup (snd s) n = Some x ->
     (_bonds (fst s) n true + inject_Z x <= _bonds m n true + inject_Z x0)%Q).

(** ** Decimal literals *)

(** The decimal digits of [u], the most significant first. *)
Fixpoint uint_digits (u : Decimal.uint) : list Z :=
  match u with
  | Decimal.Nil => []
  | Decimal.D0 u' => 0 :: uint_digits u'
  | Decimal.D1 u' => 1 :: uint_digits u'
  | Decimal.D2 u' => 2 :: uint_digits u'
  | Decimal.D3 u' => 3 :: uint_digits u'
  | Decimal.D4 u' => 4 :: uint_digits u'
  | Decimal.D5 u' => 5 :: uint_digits u'
  | Decimal.D6 u' => 6 :: uint_digits u'
  | Decimal.D7 u' => 7 :: uint_digits u'
  | Decimal.D8 u' => 8 :: uint_digits u'
  | Decimal.D9 u' => 9 :: uint_digits u'
  end.

(** ** The groups of ATOM_PATTERN *)

(** A character that [\d] matches: a Unicode decimal digit. *)
Definition decimal_digit (cp : Z) : Prop := exists d, unicode_decimal cp = Some d.

(** [[\d]+]: the groups [isotope] and [class]. *)
Definition digits_group (s : string) : Prop :=
  code_points s <> [] /\ Forall decimal_digit (code_points s).

(** [H[\d]?]: the group [hcount]. *)
Definition hcount_group (s : string) : Prop :=
  exists ds, code_points s = 72 :: ds /\ (List.length ds <= 1)%nat /\
             Forall decimal_digit ds.

(** [(-|\+)(\++|-+|[\d]{1,2})?]: the group [charge]. *)
Definition charge_group (s : string) : Prop :=
  exists c rest, code_points s = c :: rest /\ (c = 45 \/ c = 43) /\
    (Forall (eq 43) rest \/ Forall (eq 45) rest \/
     ((List.length rest <= 2)%nat /\ Forall decimal_digit rest)).

(** The numeric groups of a match are as [ATOM_PATTERN] spells them. *)
Definition pattern_groups (g : groups) : Prop :=
  (forall s, g_isotope g = Some s -> digits_group s) /\
  (forall s, g_hcount g = Some s -> hcount_group s) /\
  (forall s, g_charge g = Some s -> charge_group s) /\
  (forall s, g_class g = Some s -> digits_group s).

(** The match of [ATOM_PATTERN] on the token [[13CH2-:7]], for a pattern
    that matches this token only. *)
Definition carbanion_pattern (token : string) : option groups :=
  if String.eqb token "[13CH2-:7]"
  then Some (mkGroups (Some "13") "C" None (Some "H2") (Some "-") (Some "7"))%string
  else None.

(** [parse_atom('[13CH2-:7]')] *)
Definition carbanion : atom :=
  mkAtom (Some "C"%string) (Some (-1)) (Some 2) (Some false) (Some 13) (Some 7) None.

(* THEOREMS *)

(** * Properties *)

(** ** The valence model *)

Lemma fill_shells_ORBITAL_SIZES (e : Z) :
  fill_shells ORBITAL_SIZES 0 e =
  if e <? 2 then Some (0%nat, e)
  else if e <? 10 then Some (1%nat, e - 2)
  else if e <? 18 then Some (2%nat, e - 10)
  else if e <? 36 then Some (3%nat, e - 18)
  else if e <? 54 then Some (4%nat, e - 36)
  else if e <? 86 then Some (5%nat, e - 54)
  else None.
Proof.
  unfold ORBITAL_SIZES, fill_shells.
  repeat match goal with
         | |- context [py_sum ?l] =>
             let v := eval compute in (py_sum l) in change (py_sum l) with v
         end.
  repeat match goal with
         | |- context [?a <=? ?b] => destruct (Z.leb_spec a b)
         | |- context [?a <? ?b] => destruct (Z.ltb_spec a b)
         end; try (exfalso; lia); try reflexivity; do 2 f_equal; lia.
Qed.

Lemma valence_outer_eq (idx : nat) (shell : list Z) (half e : Z) :
  nth_error ORBITAL_SIZES idx = Some shell ->
  py_sum shell = 2 * half -> 0 <= half -> e < 2 * half ->
  valence_outer idx e =
  match nth_error ORBITAL_SIZES (S idx) with
  | None => Raise IndexError
  | Some next =>
      if 3 <=? Z.of_nat (length next)
      then Ok (map (fun n => singles half e + 2 * n) (range (pairs half e + 1)))
      else Ok [singles half e]
  end.
Proof.
  intros Hs Hsum Hh He. unfold valence_outer. rewrite Hs. cbn [of_option bind].
  rewrite Hsum. replace (2 * half / 2) with half by (rewrite Z.mul_comm, Z.div_mul; lia).
  unfold singles, pairs.
  destruct (Z.leb_spec e half).
  - rewrite (Z.min_l e half) by lia.
    replace (e - e) with 0 by lia. rewrite (Z.min_l 0 half) by lia.
    cbn [Z.sub Z.opp Z.add Z.eqb negb]. replace (e - 0) with e by lia.
    destruct (nth_error ORBITAL_SIZES (S idx)); reflexivity.
  - rewrite (Z.min_r e half) by lia. rewrite (Z.min_l (e - half) half) by lia.
    replace (e - half - (e - half) =? 0) with true by (symmetry; apply Z.eqb_eq; lia).
    cbn [negb]. replace (half - (e - half)) with (2 * half - e) by lia.
    destruct (nth_error ORBITAL_SIZES (S idx)); reflexivity.
Qed.

Lemma range_nonempty (n : Z) : 0 < n -> range n <> [].
Proof.
  intros H. unfold range. destruct (Z.to_nat n) eqn:E; [lia | discriminate].
Qed.

Lemma seq_affine_sorted (a : Z) (len start : nat) :
  StronglySorted Z.lt (map (fun n => a + 2 * n) (map Z.of_nat (seq start len))).
Proof.
  revert start; induction len as [|len IH]; intros start; cbn [seq map].
  - constructor.
  - constructor; [apply IH|].
    apply Forall_forall. intros x Hx.
    rewrite map_map in Hx. apply in_map_iff in Hx. destruct Hx as [k [<- Hk]].
    apply in_seq in Hk. lia.
Qed.

Lemma seq_affine_nonneg (a : Z) (n : Z) :
  0 <= a -> Forall (fun v => 0 <= v) (map (fun n => a + 2 * n) (range n)).
Proof.
  intros Ha. apply Forall_forall. intros x Hx. unfold range in Hx.
  rewrite map_map in Hx. apply in_map_iff in Hx. destruct Hx as [k [<- _]]. lia.
Qed.

(** The result of [valence] by the number of electrons. *)
Lemma valence_cases (a : atom) :
  let e := electron_count a in
  (86 <= e /\ valence a = Raise ValueError) \/
  (54 <= e < 86 /\ valence a = Raise IndexError) \/
  (e < 54 /\ exists l, valence a = Ok l /\ l <> [] /\ StronglySorted Z.lt l /\
                      (0 <= e -> Forall (fun v => 0 <= v) l)).
Proof.
  intros e. unfold valence. fold e. rewrite fill_shells_ORBITAL_SIZES.
  assert (Hgen : forall idx shell next half e',
             nth_error ORBITAL_SIZES idx = Some shell ->
             nth_error ORBITAL_SIZES (S idx) = Some next ->
             py_sum shell = 2 * half -> 0 < half -> e' < 2 * half ->
             exists l, valence_outer idx e' = Ok l /\ l <> [] /\
                       StronglySorted Z.lt l /\
                       (0 <= e' -> Forall (fun v => 0 <= v) l)).
  { intros idx shell next half e' Hs Hn Hsum Hh He'.
    rewrite (valence_outer_eq idx shell half e' Hs Hsum) by lia. rewrite Hn.
    assert (Hp : 0 <= pairs half e') by (unfold pairs; destruct (Z.leb_spec e' half); lia).
    assert (Hsg : 0 <= e' -> 0 <= singles half e')
      by (unfold singles; destruct (Z.leb_spec e' half); lia).
    destruct (3 <=? Z.of_nat (length next)); eexists; split; try reflexivity.
    - split; [|split].
      + intros Hnil. apply map_eq_nil in Hnil. revert Hnil. apply range_nonempty. lia.
      + apply seq_affine_sorted.
      + intros H0. apply seq_affine_nonneg. auto.
    - split; [discriminate|split].
      + repeat constructor.
      + intros H0. constructor; auto. }
  repeat match goal with
         | |- context [?x <? ?y] => destruct (Z.ltb_spec x y)
         end.
  - right; right. split; [lia|].
    destruct (Hgen 0%nat [2] [2;6] 1 e) as [l Hl]; try reflexivity; try lia.
    exists l. destruct Hl as (? & ? & ? & Hf). repeat split; auto; intros; apply Hf; lia.
  - right; right. split; [lia|].
    destruct (Hgen 1%nat [2;6] [2;6] 4 (e - 2)) as [l Hl]; try reflexivity; try lia.
    exists l. destruct Hl as (? & ? & ? & Hf). repeat split; auto; intros; apply Hf; lia.
  - right; right. split; [lia|].
    destruct (Hgen 2%nat [2;6] [2;10;6] 4 (e - 10)) as [l Hl]; try reflexivity; try lia.
    exists l. destruct Hl as (? & ? & ? & Hf). repeat split; auto; intros; apply Hf; lia.
  - right; right. split; [lia|].
    destruct (Hgen 3%nat [2;10;6] [2;10;6] 9 (e - 18)) as [l Hl]; try reflexivity; try lia.
    exists l. destruct Hl as (? & ? & ? & Hf). repeat split; auto; intros; apply Hf; lia.
  - right; right. split; [lia|].
    destruct (Hgen 4%nat [2;10;6] [2;14;10;6] 9 (e - 36)) as [l Hl]; try reflexivity; try lia.
    exists l. destruct Hl as (? & ? & ? & Hf). repeat split; auto; intros; apply Hf; lia.
  - right; left. split; [lia|].
    rewrite (valence_outer_eq 5%nat [2;14;10;6] 16 (e - 54)); try reflexivity; lia.
  - left. split; [lia | reflexivity].
Qed.

Lemma capitalize_supported (e : string) : supported e -> capitalize e = e.
Proof.
  unfold supported. cbn [map fst ELECTRON_COUNTS In].
  intros H. repeat (destruct H as [<- | H]; [reflexivity|]). destruct H.
Qed.

(** C10: iodide, [I] with charge -1, is a supported element whose 54
    electrons fill the first five shells exactly; [valence] then reads
    [ORBITAL_SIZES[idx + 1]] past the end of the table and fails with an
    index error.  This happens exactly for 54 to 85 electrons, and it is not
    the "too many electrons" error, which is raised exactly when the loop
    runs through the whole table (86 electrons or more). *)
Theorem valence_index_out_of_range :
  supported "I" /\ electron_count iodide = 54 /\
  valence iodide = Raise IndexError /\
  (forall a, valence a = Raise IndexError <-> 54 <= electron_count a < 86) /\
  (forall a, valence a = Raise ValueError <-> 86 <= electron_count a).
Proof.
  split; [unfold supported; cbn; tauto|].
  split; [reflexivity|]. split; [reflexivity|].
  split; intros a; destruct (valence_cases a) as [[He Hv] | [[He Hv] | [He [l [Hv _]]]]];
    rewrite Hv; split; intros H; try discriminate; try reflexivity; try lia.
Qed.

(** C6, as stated, fails: [H] with charge +2 (the token [[H+2]]) is accepted
    by [valence], which returns the list [[-1]]. *)
Lemma valence_H_plus2_negative :
  supported "H" /\ element H_plus2 = Some "H"%string /\
  valence H_plus2 = Ok [-1] /\ ~ ascending_valences [-1].
Proof.
  split; [unfold supported; cbn; tauto|].
  split; [reflexivity|]. split; [reflexivity|].
  intros (_ & Hpos & _). inversion Hpos; subst. lia.
Qed.

(** C6, amended: for a supported element and a charge that does not exceed
    the electron count of the element, [valence] returns exactly when fewer
    than 54 electrons are left, and the list it returns is non-empty, holds
    non-negative integers only and is strictly ascending. *)
Theorem valence_supported_ascending (a : atom) (e : string) :
  element a = Some e -> supported e ->
  get (charge a) 0 <= get (dict_get ELECTRON_COUNTS e) 0 ->
  (electron_count a < 54 -> exists l, valence a = Ok l /\ ascending_valences l) /\
  (forall l, valence a = Ok l -> electron_count a < 54 /\ ascending_valences l).
Proof.
  intros He Hsup Hc.
  assert (H0 : 0 <= electron_count a).
  { unfold electron_count. rewrite He. cbn [get].
    rewrite (capitalize_supported e Hsup). lia. }
  unfold ascending_valences.
  destruct (valence_cases a) as [[Hn Hv] | [[Hn Hv] | [Hn [l [Hv (Hne & Hs & Hp)]]]]];
    rewrite Hv; split.
  - intros; lia.
  - intros l Hl; discriminate.
  - intros; lia.
  - intros l Hl; discriminate.
  - intros _. exists l. auto.
  - intros l' Hl'. inversion Hl'; subst. auto.
Qed.

Lemma valence_supported_ascending_witness :
  exists l, valence carbon = Ok l /\ ascending_valences l.
Proof.
  refine (proj1 (valence_supported_ascending carbon "C" eq_refl _ _) _).
  - unfold supported; cbn; tauto.
  - now vm_compute.
  - now vm_compute.
Defined.

(** ** Bond accounting *)

Lemma filter_StronglySorted (f : Z -> bool) (l : list Z) :
  StronglySorted Z.lt l -> StronglySorted Z.lt (filter f l).
Proof.
  induction 1 as [|x l Hs IH Hx]; cbn [filter]; [constructor|].
  destruct (f x); [|exact IH].
  constructor; [exact IH|].
  apply Forall_forall. intros y Hy. apply filter_In in Hy.
  rewrite Forall_forall in Hx. apply Hx, Hy.
Qed.

Lemma fold_min_below (x : Z) (l : list Z) :
  Forall (Z.lt x) l -> fold_left Z.min l x = x.
Proof.
  induction 1 as [|y l Hy _ IH]; cbn [fold_left]; [reflexivity|].
  rewrite Z.min_l by lia. exact IH.
Qed.

Lemma list_min_sorted (l : list Z) (d : Z) :
  StronglySorted Z.lt l -> l <> [] -> nth_error l 0 = Some (list_min l d).
Proof.
  intros Hs Hne. destruct l as [|x l]; [congruence|].
  inversion Hs; subst. cbn [nth_error list_min].
  rewrite fold_min_below by assumption. reflexivity.
Qed.

Lemma admissible_sorted (val : list Z) (bonds : Q) :
  StronglySorted Z.lt val ->
  StronglySorted Z.lt (admissible val bonds) /\ admissible val bonds <> [].
Proof.
  intros Hs. unfold admissible.
  pose proof (filter_StronglySorted (fun v => Qle_bool bonds (inject_Z v)) val Hs) as Hf.
  destruct (filter _ val); split; try discriminate; auto.
  repeat constructor.
Qed.

Lemma valence_sorted (a : atom) (val : list Z) :
  valence a = Ok val -> StronglySorted Z.lt val.
Proof.
  intros Hv.
  destruct (valence_cases a) as [[_ H] | [[_ H] | [_ [l [H (_ & Hs & _)]]]]];
    rewrite H in Hv; inversion Hv; subst; exact Hs.
Qed.

Lemma py_int_Qmax_nonneg (q : Q) : 0 <= py_int (Qmax q (0 : Q)).
Proof.
  unfold py_int. apply Z.quot_pos; [|lia].
  pose proof (Q.le_max_r q (0 : Q)) as H. unfold Qle in H. cbn in H. lia.
Qed.

Lemma py_int_integral (q : Q) (z : Z) : q == inject_Z z -> py_int q = z.
Proof.
  unfold Qeq, py_int. cbn. intros H.
  replace (Qnum q) with (z * Z.pos (Qden q)) by lia.
  apply Z.quot_mul. lia.
Qed.

Lemma Qmax_inject_Z (x : Z) :
  Qmax (inject_Z x) (0 : Q) == inject_Z (Z.max x 0).
Proof.
  destruct (Q.max_spec (inject_Z x) (0 : Q)) as [[Hlt ->] | [Hle ->]].
  - unfold Qlt in Hlt. cbn in Hlt. rewrite Z.max_r by lia. reflexivity.
  - unfold Qle in Hle. cbn in Hle. rewrite Z.max_l by lia. reflexivity.
Qed.

(** C5, as stated, fails: a carbon with one bond of order 1.5 has load 3/2,
    so [max(min(admissible) - load, 0)] is 5/2, and [bonds_missing] returns
    2. *)
Lemma bonds_missing_not_the_max_formula :
  node_attrs aromatic_pair 0 = Some aromatic_carbon /\
  valence aromatic_carbon = Ok [4] /\
  bonds_missing_spec [4] (load aromatic_pair 0 true aromatic_carbon) == 5 # 2 /\
  bonds_missing aromatic_pair 0 true = Ok 2 /\
  ~ inject_Z 2 == bonds_missing_spec [4] (load aromatic_pair 0 true aromatic_carbon).
Proof.
  repeat split; try reflexivity. vm_compute. discriminate.
Qed.

(** C5, amended: for every atom of the graph on which [valence] returns,
    [bonds_missing] returns [int(max(min(admissible) - load, 0))], the value
    of the formula truncated to an integer; the result is [>= 0], and is the
    value of the formula itself when the load is an integer.  No load makes
    it raise: the only errors are those of [valence]. *)
Theorem bonds_missing_truncates (m : mol) (n : node) (use_order : bool) (a : atom) :
  node_attrs m n = Some a ->
  (forall val, valence a = Ok val ->
     let r := bonds_missing_spec val (load m n use_order a) in
     bonds_missing m n use_order = Ok (py_int r) /\ 0 <= py_int r /\
     (forall k, load m n use_order a == inject_Z k -> inject_Z (py_int r) == r)) /\
  (forall e, valence a = Raise e -> bonds_missing m n use_order = Raise e).
Proof.
  intros Ha. split.
  - intros val Hv r. subst r. unfold bonds_missing, bonds_missing_spec.
    rewrite Ha. cbn [of_option bind]. rewrite Hv. cbn [bind]. fold (load m n use_order a).
    destruct (admissible_sorted val (load m n use_order a) (valence_sorted a val Hv))
      as [Hs Hne].
    rewrite (list_min_sorted _ 0 Hs Hne). cbn [of_option bind].
    split; [reflexivity|]. split; [apply py_int_Qmax_nonneg|].
    intros k Hk.
    set (v := list_min (admissible val (load m n use_order a)) 0).
    assert (E : Qmax (inject_Z v - load m n use_order a) (0 : Q)
                == inject_Z (Z.max (v - k) 0)).
    { rewrite <- Qmax_inject_Z. apply Q.max_compat; [|reflexivity].
      rewrite Hk. unfold Qminus, Qeq. cbn. lia. }
    rewrite (py_int_integral _ _ E). symmetry. exact E.
  - intros e Hv. unfold bonds_missing. rewrite Ha. cbn [of_option bind].
    rewrite Hv. reflexivity.
Qed.

Lemma bonds_missing_truncates_witness :
  bonds_missing aromatic_pair 0 true
  = Ok (py_int (bonds_missing_spec [4] (load aromatic_pair 0 true aromatic_carbon))).
Proof.
  refine (proj1 (proj1 (bonds_missing_truncates aromatic_pair 0 true aromatic_carbon
                          eq_refl) [4] eq_refl)).
Defined.

(** ** Evaluations *)

(** C2: on two atoms that have no key [aromatic], joined by an edge that has
    no [order], [mark_aromatic_edges] reads the default ['False'], a
    non-empty string and so a true value, for both atoms, and sets the order
    of the edge to 1.5, where order 1 is expected for atoms that are not
    aromatic. *)
Theorem mark_aromatic_edges_absent_key :
  aromatic element_only_carbon = None /\
  truthy (get_aromatic_or_False_string element_only_carbon) = true /\
  mark_aromatic_edges plain_pair
  = (mkMol (nodes plain_pair) [((0, 1), mkBond (Some (3 # 2)))], Ok tt).
Proof. repeat split. Qed.

(** C7: two aromatic carbons joined by a bond of order 1.5, neither with an
    [hcount].  [fill_valence] with its default arguments sets the [hcount] of
    both to [int(4 - 1.5) = 2]; [has_default_h_count] then compares
    [4 - 1.5 = 2.5] with 2 and returns [False] for the atoms just filled. *)
Theorem fill_valence_then_has_default_h_count :
  let filled := fst (fill_valence_default aromatic_pair) in
  snd (fill_valence_default aromatic_pair) = Ok tt /\
  option_map hcount (node_attrs aromatic_pair 0) = Some None /\
  option_map hcount (node_attrs filled 0) = Some (Some 2) /\
  has_default_h_count filled 0 true = Ok false /\
  has_default_h_count filled 1 true = Ok false.
Proof. repeat split. Qed.

(** C3: [parse_atom('H')] is a hydrogen atom without [hcount], whatever the
    pattern of bracketed tokens is; on the graph of that single atom
    [fill_valence] with its default arguments stores [hcount = 1] on the
    hydrogen and raises nothing. *)
Theorem fill_valence_gives_hydrogen_a_hydrogen :
  (forall ATOM_PATTERN, parse_atom ATOM_PATTERN "H" = Ok plain_H) /\
  fill_valence_default lone_H = (mkMol [(0, set_hcount (Some 1) plain_H)] [], Ok tt) /\
  element (set_hcount (Some 1) plain_H) = Some "H"%string.
Proof. repeat split. Qed.

(** C1: three carbons in a chain with [max_bond_order = 2].  The budgets
    gathered are 3, 2 and 3.  On the edge (0, 1) the order goes from 1 to
    [min(1 + 2, 2) = 2], an increase of 1, and [edge_missing = 2] is taken
    from both budgets, which leaves 0 for atom 1; the edge (1, 2) then stays
    at order 1 although atom 1 still misses a bond. *)
Theorem increment_bond_orders_deducts_unclamped :
  let budgets := [(0, 3); (1, 2); (2, 3)] in
  let after_01 := mkMol (nodes propane_chain)
                        [((0, 1), mkBond (Some (2 : Q))); ((1, 2), no_order)] in
  gather_missing propane_chain [0; 1; 2] = Ok budgets /\
  edge_view propane_chain = [(0, 1); (1, 2)] /\
  increment_edge (2 : Q) (0, 1) (propane_chain, budgets)
  = ((after_01, [(0, 1); (1, 0); (2, 3)]), Ok tt) /\
  bonds_missing after_01 1 true = Ok 1 /\
  increment_bond_orders (2 : Q) propane_chain
  = (mkMol (nodes propane_chain)
           [((0, 1), mkBond (Some (2 : Q))); ((1, 2), mkBond (Some (1 : Q)))],
     Ok tt).
Proof. repeat split. Qed.

(** ** fill_valence *)

Lemma lookup_update_same {V : Type} (k : node) (f : V -> V) (l : list (node * V)) :
  lookup (update k f l) k = option_map f (lookup l k).
Proof.
  induction l as [|[k' v] l IH]; cbn [update map lookup fst snd option_map]; [reflexivity|].
  destruct (Z.eqb_spec k' k) as [->|Hne]; cbn [lookup].
  - rewrite Z.eqb_refl. reflexivity.
  - destruct (Z.eqb_spec k' k); [contradiction|]. exact IH.
Qed.

Lemma lookup_update_other {V : Type} (k j : node) (f : V -> V) (l : list (node * V)) :
  j <> k -> lookup (update k f l) j = lookup l j.
Proof.
  intros Hjk. induction l as [|[k' v] l IH]; cbn [update map lookup fst snd]; [reflexivity|].
  destruct (Z.eqb_spec k' k) as [->|Hne]; cbn [lookup].
  - destruct (Z.eqb_spec k j); [congruence|]. exact IH.
  - destruct (Z.eqb_spec k' j); [reflexivity|]. exact IH.
Qed.

Lemma keys_update {V : Type} (k : node) (f : V -> V) (l : list (node * V)) :
  map fst (update k f l) = map fst l.
Proof.
  unfold update. rewrite map_map. apply map_ext. intros [k' v]. cbn.
  destruct (k' =? k); reflexivity.
Qed.







Lemma fill_valence_node_keys (rh : bool) (k : node) (m : mol) :
  map fst (nodes (fst (fill_valence_node rh k m))) = map fst (nodes m).
Proof.
  unfold fill_valence_node.
  destruct (node_attrs m k) as [a|]; [|reflexivity].
  destruct (is_some (hcount a) && rh); [reflexivity|].
  destruct (bonds_missing m k true); [|reflexivity].
  cbn [fst update_node nodes]. apply keys_update.
Qed.

Lemma fill_valence_loop_keys (rh : bool) (ks : list node) (m : mol) :
  map fst (nodes (fst (for_each ks (fill_valence_node rh) m))) = map fst (nodes m).
Proof.
  revert m. induction ks as [|k ks IH]; intros m; cbn [for_each]; [reflexivity|].
  pose proof (fill_valence_node_keys rh k m) as H1.
  destruct (fill_valence_node rh k m) as [m1 [[]|e]]; cbn [fst] in *; [|exact H1].
  rewrite IH. exact H1.
Qed.



(** ** remove_explicit_hydrogens *)

Lemma set_hcount_same (a : atom) : set_hcount (hcount a) a = a.
Proof. destruct a; reflexivity. Qed.

Lemma lookup_In {V : Type} (l : list (node * V)) (k : node) (v : V) :
  NoDup (map fst l) -> In (k, v) l -> lookup l k = Some v.
Proof.
  induction l as [|[k' v'] l IH]; cbn [map fst lookup In]; [tauto|].
  intros Hnd [Heq | Hin].
  - inversion Heq; subst. rewrite Z.eqb_refl. reflexivity.
  - inversion Hnd; subst.
    destruct (Z.eqb_spec k' k) as [->|Hne]; [|auto].
    exfalso. apply H1. apply in_map_iff. exists (k, v). auto.
Qed.

Lemma lookup_Some_In {V : Type} (l : list (node * V)) (k : node) (v : V) :
  lookup l k = Some v -> In (k, v) l.
Proof.
  induction l as [|[k' v'] l IH]; cbn [lookup In]; [discriminate|].
  destruct (Z.eqb_spec k' k) as [->|Hne].
  - intros H; inversion H; subst. auto.
  - auto.
Qed.

Lemma lookup_None {V : Type} (l : list (node * V)) (k : node) :
  ~ In k (map fst l) -> lookup l k = None.
Proof.
  induction l as [|[k' v'] l IH]; cbn [map fst lookup In]; [reflexivity|].
  intros H. destruct (Z.eqb_spec k' k) as [->|Hne]; [tauto|]. apply IH. tauto.
Qed.

Lemma lookup_in_keys {V : Type} (l : list (node * V)) (k : node) :
  In k (map fst l) -> exists v, lookup l k = Some v.
Proof.
  induction l as [|[k' v'] l IH]; cbn [map fst lookup In]; [tauto|].
  intros [-> | H].
  - rewrite Z.eqb_refl. eauto.
  - destruct (k' =? k); eauto.
Qed.

Lemma lookup_map_values {V W : Type} (g : node -> V -> W) (l : list (node * V)) (k : node) :
  lookup (map (fun kv => (fst kv, g (fst kv) (snd kv))) l) k
  = option_map (g k) (lookup l k).
Proof.
  induction l as [|[k' v'] l IH]; cbn [map lookup fst snd option_map]; [reflexivity|].
  destruct (Z.eqb_spec k' k) as [->|Hne]; [reflexivity | exact IH].
Qed.

Lemma mem_In (n : node) (l : list node) : mem n l = true <-> In n l.
Proof.
  unfold mem. rewrite existsb_exists. split.
  - intros [x [Hx Hn]]. apply Z.eqb_eq in Hn. subst. exact Hx.
  - intros H. exists n. split; [exact H | apply Z.eqb_refl].
Qed.

Lemma mem_false (n : node) (l : list node) : mem n l = false <-> ~ In n l.
Proof.
  rewrite <- mem_In. destruct (mem n l); split; intros; congruence.
Qed.

Lemma lookup_filter_keys {V : Type} (p : node -> bool) (l : list (node * V)) (k : node) :
  p k = true -> lookup (filter (fun kv => p (fst kv)) l) k = lookup l k.
Proof.
  intros Hp. induction l as [|[k' v'] l IH]; cbn [filter lookup fst]; [reflexivity|].
  destruct (Z.eqb_spec k' k) as [->|Hne].
  - rewrite Hp. cbn [lookup]. rewrite Z.eqb_refl. reflexivity.
  - destruct (p k'); cbn [lookup]; [|exact IH].
    destruct (Z.eqb_spec k' k); [contradiction | exact IH].
Qed.

Lemma with_hcounts_self (m : mol) :
  NoDup (map fst (nodes m)) -> with_hcounts (hcount_of m) m = m.
Proof.
  intros Hnd. destruct m as [ns es]. unfold with_hcounts. cbn [nodes edges].
  f_equal. rewrite <- (map_id ns) at 2. apply map_ext_in.
  intros [k a] Hin. cbn [fst snd]. unfold hcount_of, node_attrs. cbn [nodes].
  rewrite (lookup_In ns k a Hnd Hin). rewrite set_hcount_same. reflexivity.
Qed.

Lemma node_attrs_with_hcounts (H : node -> option Z) (m : mol) (k : node) :
  node_attrs (with_hcounts H m) k = option_map (set_hcount (H k)) (node_attrs m k).
Proof.
  unfold node_attrs, with_hcounts. cbn [nodes].
  exact (lookup_map_values (fun k a => set_hcount (H k) a) (nodes m) k).
Qed.

Lemma removable_with_hcounts (H : node -> option Z) (m : mol) (k : node)
  (h : option Z) (a : atom) :
  removable (with_hcounts H m) k (set_hcount h a) = removable m k a.
Proof.
  unfold removable. cbn [charge isotope class_ set_hcount].
  change (adj (with_hcounts H m) k) with (adj m k).
  change (element_is_H (set_hcount h a)) with (element_is_H a).
  destruct (_ && _); [|reflexivity].
  destruct (adj m k) as [|[nb attrs] rest]; [reflexivity|].
  rewrite node_attrs_with_hcounts.
  destruct (node_attrs m nb) as [b|]; reflexivity.
Qed.

Lemma update_node_with_hcounts (H : node -> option Z) (m : mol) (nb : node) :
  update_node nb (fun b => set_hcount (Some (get (hcount b) 0 + 1)) b)
              (with_hcounts H m)
  = with_hcounts (bump nb H) m.
Proof.
  unfold update_node, with_hcounts, update, bump. cbn [nodes edges].
  f_equal. rewrite map_map. apply map_ext. intros [k a]. cbn [fst snd].
  destruct (k =? nb); reflexivity.
Qed.

Lemma remove_hydrogens_node_eq (m : mol) (x : node) (H : node -> option Z)
  (tr : list node) :
  In x (map fst (nodes m)) ->
  remove_hydrogens_node x (with_hcounts H m, tr)
  = (let s := remove_step m (H, tr) x in (with_hcounts (fst s) m, snd s), Ok tt).
Proof.
  intros Hin. unfold remove_hydrogens_node, remove_step.
  rewrite node_attrs_with_hcounts.
  destruct (lookup_in_keys (nodes m) x Hin) as [a Ha].
  unfold node_attrs. rewrite Ha. cbn [option_map].
  rewrite removable_with_hcounts.
  destruct (removable m x a) as [nb|]; cbn [fst snd]; [|reflexivity].
  rewrite update_node_with_hcounts. reflexivity.
Qed.

Lemma remove_loop_eq (m : mol) (ks : list node) (H : node -> option Z) (tr : list node) :
  (forall x, In x ks -> In x (map fst (nodes m))) ->
  for_each ks remove_hydrogens_node (with_hcounts H m, tr)
  = (let s := fold_left (remove_step m) ks (H, tr) in
     (with_hcounts (fst s) m, snd s), Ok tt).
Proof.
  revert H tr. induction ks as [|x ks IH]; intros H tr Hin; cbn [for_each fold_left].
  - reflexivity.
  - rewrite remove_hydrogens_node_eq by (apply Hin; left; reflexivity).
    cbn zeta. destruct (remove_step m (H, tr) x) as [H1 tr1]. cbn [fst snd].
    apply IH. intros; apply Hin; right; assumption.
Qed.

Lemma remove_fold_hcount (m : mol) (n : node) (ks : list node)
  (s : (node -> option Z) * list node) :
  let s' := fold_left (remove_step m) ks s in
  (get (fst s' n) 0 = get (fst s n) 0 + Z.of_nat (length (filter (removed_from m n) ks))) /\
  (forall x, In x (snd s') ->
             In x (snd s) \/ exists a, node_attrs m x = Some a /\ removable m x a <> None).
Proof.
  revert s. induction ks as [|x ks IH]; intros s; cbn [fold_left filter].
  - cbn [length]. split; [lia | auto].
  - destruct (IH (remove_step m s x)) as [IH1 IH2]. cbn zeta in *.
    split.
    + rewrite IH1. unfold remove_step, removed_from.
      destruct (node_attrs m x) as [a|] eqn:Ha; [|lia].
      destruct (removable m x a) as [nb|] eqn:Hr; [|lia].
      cbn [fst]. unfold bump. destruct (Z.eqb_spec n nb) as [->|Hne].
      * rewrite Z.eqb_refl. cbn [length get]. lia.
      * destruct (Z.eqb_spec nb n); [congruence|]. lia.
    + intros y Hy. destruct (IH2 y Hy) as [Hin | Hex]; auto.
      revert Hin. unfold remove_step.
      destruct (node_attrs m x) as [a|] eqn:Ha; auto.
      destruct (removable m x a) as [nb|] eqn:Hr; auto.
      cbn [snd In]. intros [<- | Hin]; auto.
      right. exists a. split; [exact Ha | congruence].
Qed.

(** What [remove_explicit_hydrogens] leaves on a node that it does not
    remove: the node keeps its attributes, and its [hcount] is the stored one
    (0 when absent) plus the number of hydrogens taken from it. *)
Lemma remove_explicit_hydrogens_kept (m : mol) (n : node) (a : atom) :
  NoDup (map fst (nodes m)) ->
  node_attrs m n = Some a -> removable m n a = None ->
  snd (remove_explicit_hydrogens m) = Ok tt /\
  node_attrs (fst (remove_explicit_hydrogens m)) n
  = Some (set_hcount (Some (get (hcount a) 0 + Z.of_nat (count_removed m n))) a).
Proof.
  intros Hnd Ha Hr. unfold remove_explicit_hydrogens.
  pose proof (remove_loop_eq m (map fst (nodes m)) (hcount_of m) [] (fun x H => H)) as E.
  rewrite (with_hcounts_self m Hnd) in E. rewrite E. clear E. cbn zeta.
  destruct (remove_fold_hcount m n (map fst (nodes m)) (hcount_of m, []))
    as [Hh Htr].
  destruct (fold_left (remove_step m) (map fst (nodes m)) (hcount_of m, [])) as [H' tr].
  cbn [fst snd] in *. split; [reflexivity|].
  assert (Hn : ~ In n tr).
  { intros Hin. destruct (Htr n Hin) as [[] | [a' [Ha' Hr']]]. congruence. }
  unfold node_attrs. cbn [nodes remove_nodes_from].
  rewrite (lookup_map_values (fun _ a => default_hcount a)).
  rewrite (lookup_filter_keys (fun k => negb (mem k tr)))
    by (apply negb_true_iff, mem_false, Hn).
  change (lookup (nodes (with_hcounts H' m)) n) with (node_attrs (with_hcounts H' m) n).
  rewrite node_attrs_with_hcounts, Ha. cbn [option_map]. f_equal.
  unfold hcount_of in Hh. rewrite Ha in Hh. fold (count_removed m n) in Hh.
  unfold default_hcount. cbn [hcount set_hcount].
  destruct (H' n) as [h|] eqn:E; cbn [is_some get] in *.
  - unfold set_hcount. cbn. do 2 f_equal. lia.
  - unfold set_hcount. cbn. do 2 f_equal. lia.
Qed.

(** ** add_explicit_hydrogens *)

Lemma h_atom_value : h_atom = Ok hydrogen_atom.
Proof. reflexivity. Qed.

Lemma lookup_app {V : Type} (l1 l2 : list (node * V)) (k : node) :
  lookup (l1 ++ l2) k
  = match lookup l1 k with Some v => Some v | None => lookup l2 k end.
Proof.
  induction l1 as [|[k' v'] l1 IH]; cbn [app lookup]; [reflexivity|].
  destruct (k' =? k); [reflexivity | exact IH].
Qed.

Lemma fold_max_ge (l : list Z) (x : Z) :
  x <= fold_left Z.max l x /\ forall y, In y l -> y <= fold_left Z.max l x.
Proof.
  revert x. induction l as [|z l IH]; intros x; cbn [fold_left In].
  - split; [lia | tauto].
  - destruct (IH (Z.max x z)) as [H1 H2]. split; [lia|].
    intros y [<- | Hy]; [lia | auto].
Qed.

Lemma max_node_ge (m : mol) (k : node) :
  In k (keys m) -> exists mx, max_node m = Ok mx /\ forall y, In y (keys m) -> y <= mx.
Proof.
  unfold max_node, keys. destruct (map fst (nodes m)) as [|x l]; cbn [In]; [tauto|].
  intros _. eexists; split; [reflexivity|].
  destruct (fold_max_ge l x) as [H1 H2]. intros y [<- | Hy]; auto.
Qed.

Lemma update_absent {V : Type} (k : node) (f : V -> V) (l : list (node * V)) :
  ~ In k (map fst l) -> update k f l = l.
Proof.
  intros H. unfold update. rewrite <- (map_id l) at 2. apply map_ext_in.
  intros [k' v] Hin. cbn [fst snd].
  destruct (Z.eqb_spec k' k) as [->|]; [|reflexivity].
  exfalso. apply H. apply in_map_iff. exists (k, v). auto.
Qed.

Lemma update_app {V : Type} (k : node) (f : V -> V) (l1 l2 : list (node * V)) :
  update k f (l1 ++ l2) = update k f l1 ++ update k f l2.
Proof. apply map_app. Qed.

Lemma update_id {V : Type} (k : node) (f : V -> V) (l : list (node * V)) :
  (forall v, f v = v) -> update k f l = l.
Proof.
  intros H. unfold update. rewrite <- (map_id l) at 2. apply map_ext.
  intros [k' v]. cbn [fst snd]. destruct (k' =? k); [rewrite H|]; reflexivity.
Qed.

Lemma merge_empty_atom (a : atom) : merge_atom empty_atom a = a.
Proof. destruct a; reflexivity. Qed.

Lemma add_node_present (k : node) (m : mol) :
  In k (keys m) -> add_node k empty_atom m = m.
Proof.
  intros H. unfold add_node. apply mem_In in H. unfold keys in H. rewrite H.
  unfold update_node. rewrite (update_id k _ (nodes m) merge_empty_atom).
  destruct m; reflexivity.
Qed.

Lemma add_nodes_from_fresh (ids : list node) (h : atom) (m : mol) :
  NoDup ids -> (forall j, In j ids -> ~ In j (keys m)) ->
  add_nodes_from ids h m = mkMol (nodes m ++ map (fun j => (j, h)) ids) (edges m).
Proof.
  revert m. induction ids as [|j ids IH]; intros m Hnd Hfresh;
    unfold add_nodes_from; cbn [fold_left map].
  - rewrite app_nil_r. destruct m; reflexivity.
  - inversion Hnd; subst.
    assert (Hj : mem j (map fst (nodes m)) = false)
      by (apply mem_false, Hfresh; left; reflexivity).
    unfold add_node at 2. rewrite Hj.
    fold (add_nodes_from ids h (mkMol (nodes m ++ [(j, h)]) (edges m))).
    rewrite IH; cbn [nodes edges]; auto.
    + rewrite <- app_assoc. reflexivity.
    + intros j' Hj'. unfold keys. cbn [nodes]. rewrite map_app, in_app_iff.
      cbn [map fst In]. intros [Hin | [<- | []]].
      * apply (Hfresh j'); [right; assumption | exact Hin].
      * contradiction.
Qed.

Lemma existsb_false {A : Type} (f : A -> bool) (l : list A) :
  (forall x, In x l -> f x = false) -> existsb f l = false.
Proof.
  intros H. induction l as [|x l IH]; cbn [existsb]; [reflexivity|].
  rewrite (H x) by (left; reflexivity). apply IH. intros; apply H; right; assumption.
Qed.

Lemma same_edge_false (u v : node) (e : node * node) :
  fst e <> v -> snd e <> v -> same_edge u v e = false.
Proof.
  intros H1 H2. unfold same_edge.
  destruct (Z.eqb_spec (snd e) v); [contradiction|].
  destruct (Z.eqb_spec (fst e) v); [contradiction|].
  rewrite !andb_false_r. reflexivity.
Qed.

Lemma add_edges_from_fresh (k : node) (ids : list node) (b : bond) (m : mol) :
  NoDup ids -> In k (keys m) -> ~ In k ids ->
  (forall j, In j ids -> In j (keys m)) ->
  (forall j e, In j ids -> In e (edges m) -> fst (fst e) <> j /\ snd (fst e) <> j) ->
  add_edges_from (map (fun j => (k, j)) ids) b m
  = mkMol (nodes m) (edges m ++ map (fun j => ((k, j), b)) ids).
Proof.
  revert m. induction ids as [|j ids IH]; intros m Hnd Hk Hkids Hids Hfresh;
    unfold add_edges_from; cbn [fold_left map].
  - rewrite app_nil_r. destruct m; reflexivity.
  - inversion Hnd; subst. cbn [fst snd].
    unfold add_edge at 2.
    rewrite (add_node_present k m Hk).
    rewrite (add_node_present j m) by (apply Hids; left; reflexivity).
    rewrite existsb_false.
    2:{ intros e He. destruct (Hfresh j e (or_introl eq_refl) He).
        apply same_edge_false; assumption. }
    fold (add_edges_from (map (fun j => (k, j)) ids) b
            (mkMol (nodes m) (edges m ++ [((k, j), b)]))).
    rewrite IH; cbn [nodes edges]; auto.
    + rewrite <- app_assoc. reflexivity.
    + intros Hin. apply Hkids. right. exact Hin.
    + intros j' Hj'. apply (Hids j'). right. exact Hj'.
    + intros j' e Hj' He. apply in_app_iff in He. destruct He as [He | [<- | []]].
      * apply (Hfresh j' e); auto. right; exact Hj'.
      * cbn [fst snd]. split.
        -- intros ->. apply Hkids. right. exact Hj'.
        -- intros ->. contradiction.
Qed.

Lemma NoDup_map_inj {A B : Type} (f : A -> B) (l : list A) :
  (forall x y, f x = f y -> x = y) -> NoDup l -> NoDup (map f l).
Proof.
  intros Hinj. induction 1 as [|x l Hx Hnd IH]; cbn [map]; constructor; auto.
  intros Hin. apply in_map_iff in Hin. destruct Hin as [y [Hy Hin]].
  apply Hinj in Hy. subst. contradiction.
Qed.

Lemma range_ids (mx h : Z) :
  let ids := map (fun i => mx + 1 + i) (range h) in
  NoDup ids /\ length ids = Z.to_nat h /\ forall j, In j ids -> mx < j.
Proof.
  cbn zeta. unfold range. split; [|split].
  - apply NoDup_map_inj; [intros; lia|].
    apply NoDup_map_inj; [intros; lia|]. apply seq_NoDup.
  - rewrite !length_map, length_seq. reflexivity.
  - intros j Hj. apply in_map_iff in Hj. destruct Hj as [i [<- Hi]].
    apply in_map_iff in Hi. destruct Hi as [n [<- _]]. lia.
Qed.

Lemma keys_new_nodes (p : list (node * list node)) :
  map fst (new_nodes p) = flat_map snd p.
Proof.
  unfold new_nodes. induction p as [|q p IH]; cbn [flat_map]; [reflexivity|].
  rewrite map_app, IH, map_map. cbn [fst]. rewrite map_id. reflexivity.
Qed.

Lemma keys_strip (l : list (node * atom)) : map fst (map strip l) = map fst l.
Proof. rewrite map_map. reflexivity. Qed.

Lemma keys_with_hydrogens (done todo : list (node * atom))
  (es : list ((node * node) * bond)) (p : list (node * list node)) :
  keys (with_hydrogens done todo es p)
  = (map fst done ++ map fst todo) ++ flat_map snd p.
Proof.
  unfold keys, with_hydrogens. cbn [nodes].
  rewrite !map_app, keys_strip, keys_new_nodes. reflexivity.
Qed.

Lemma with_hydrogens_next (done todo : list (node * atom)) (k : node) (a : atom)
  (es : list ((node * node) * bond)) (p : list (node * list node)) (ids : list node) :
  with_hydrogens (done ++ [(k, a)]) todo es (p ++ [(k, ids)])
  = mkMol (((map strip done ++ (k, set_hcount None a) :: todo) ++ new_nodes p)
           ++ map (fun j => (j, hydrogen_atom)) ids)
          ((es ++ new_edges p) ++ map (fun j => ((k, j), mkBond (Some (1 : Q)))) ids).
Proof.
  unfold with_hydrogens, new_nodes, new_edges.
  rewrite !flat_map_app, map_app. cbn [flat_map map fst snd strip].
  rewrite !app_nil_r, <- !app_assoc. reflexivity.
Qed.

Lemma add_hydrogens_node_step (done todo : list (node * atom)) (k : node) (a : atom)
  (es : list ((node * node) * bond)) (p : list (node * list node)) :
  wf (with_hydrogens done ((k, a) :: todo) es p) ->
  exists ids,
    length ids = Z.to_nat (get (hcount a) 0) /\
    add_hydrogens_node hydrogen_atom k (with_hydrogens done ((k, a) :: todo) es p)
    = (with_hydrogens (done ++ [(k, a)]) todo es (p ++ [(k, ids)]), Ok tt) /\
    wf (with_hydrogens (done ++ [(k, a)]) todo es (p ++ [(k, ids)])).
Proof.
  set (s := with_hydrogens done ((k, a) :: todo) es p).
  intros [Hnd Hcl].
  assert (Hks : keys s = (map fst done ++ k :: map fst todo) ++ flat_map snd p)
    by apply keys_with_hydrogens.
  assert (Hk : In k (keys s)).
  { rewrite Hks. apply in_or_app. left. apply in_or_app. right. left. reflexivity. }
  assert (Ha : node_attrs s k = Some a).
  { apply lookup_In; [exact Hnd|]. unfold s, with_hydrogens. cbn [nodes].
    apply in_or_app. left. apply in_or_app. right. left. reflexivity. }
  destruct (max_node_ge s k Hk) as [mx [Hmx Hle]].
  destruct (range_ids mx (get (hcount a) 0)) as [Hnd_ids [Hlen Hgt]].
  set (ids := map (fun i => mx + 1 + i) (range (get (hcount a) 0))) in *.
  assert (Hfresh : forall j, In j ids -> ~ In j (keys s)).
  { intros j Hj Hin. specialize (Hgt j Hj). specialize (Hle j Hin). lia. }
  exists ids. split; [exact Hlen|].
  assert (Hkeys' : keys (with_hydrogens (done ++ [(k, a)]) todo es (p ++ [(k, ids)]))
                   = keys s ++ ids).
  { rewrite keys_with_hydrogens, Hks, flat_map_app, map_app.
    cbn [flat_map map fst snd]. rewrite app_nil_r, <- !app_assoc. reflexivity. }
  split.
  - unfold add_hydrogens_node. rewrite Ha, Hmx. fold ids.
    rewrite (add_nodes_from_fresh ids hydrogen_atom s Hnd_ids Hfresh).
    rewrite add_edges_from_fresh; cbn [nodes edges]; auto.
    + f_equal. rewrite with_hydrogens_next. unfold update_node. cbn [nodes edges].
      f_equal. unfold s, with_hydrogens. cbn [nodes].
      assert (Hsplit : NoDup (((map fst done ++ [k]) ++ map fst todo) ++ flat_map snd p)).
      { rewrite <- (app_assoc (map fst done)). cbn [app]. rewrite <- Hks. exact Hnd. }
      rewrite !update_app. cbn [update map fst snd]. rewrite Z.eqb_refl.
      fold (update k (set_hcount None) todo).
      rewrite (update_absent k _ (map strip done)).
      2:{ rewrite keys_strip. intros Hin.
          apply NoDup_app_remove_r, NoDup_app_remove_r in Hsplit.
          apply NoDup_remove_2 in Hsplit. rewrite app_nil_r in Hsplit. contradiction. }
      rewrite (update_absent k _ todo).
      2:{ intros Hin. apply NoDup_app_remove_r in Hsplit.
          rewrite <- app_assoc in Hsplit. apply NoDup_remove_2 in Hsplit.
          apply Hsplit. apply in_or_app. right. exact Hin. }
      rewrite (update_absent k _ (new_nodes p)).
      2:{ rewrite keys_new_nodes. intros Hin.
          rewrite <- !app_assoc in Hsplit. apply NoDup_remove_2 in Hsplit.
          apply Hsplit. apply in_or_app. right. apply in_or_app. right. exact Hin. }
      rewrite (update_absent k _ (map (fun j => (j, hydrogen_atom)) ids)).
      2:{ rewrite map_map. cbn [fst]. rewrite map_id. intros Hin.
          exact (Hfresh k Hin Hk). }
      reflexivity.
    + unfold keys. cbn [nodes]. rewrite map_app. apply in_or_app. left. exact Hk.
    + intros Hin. exact (Hfresh k Hin Hk).
    + intros j Hj. unfold keys. cbn [nodes]. rewrite map_app, map_map. cbn [fst].
      rewrite map_id. apply in_or_app. right. exact Hj.
    + intros j e Hj He. destruct (Hcl e He) as [H1 H2].
      split; intros Heq; subst j; eapply Hfresh; eauto.
  - split.
    + rewrite Hkeys'. apply NoDup_app; auto.
      intros x Hx Hin. exact (Hfresh x Hin Hx).
    + intros e He. rewrite Hkeys'. rewrite with_hydrogens_next in He. cbn [edges] in He.
      apply in_app_iff in He. destruct He as [He | He].
      * destruct (Hcl e He). split; apply in_or_app; left; assumption.
      * apply in_map_iff in He. destruct He as [j [<- Hj]]. cbn [fst snd].
        split; apply in_or_app; [left | right]; assumption.
Qed.

Lemma add_hydrogens_loop (todo done : list (node * atom))
  (es : list ((node * node) * bond)) (p : list (node * list node)) :
  wf (with_hydrogens done todo es p) -> Forall2 planned p done ->
  exists p',
    for_each (map fst todo) (add_hydrogens_node hydrogen_atom)
             (with_hydrogens done todo es p)
    = (with_hydrogens (done ++ todo) [] es p', Ok tt) /\
    wf (with_hydrogens (done ++ todo) [] es p') /\
    Forall2 planned p' (done ++ todo).
Proof.
  revert done p. induction todo as [|[k a] todo IH]; intros done p Hwf Hp;
    cbn [map fst for_each].
  - exists p. rewrite app_nil_r. auto.
  - destruct (add_hydrogens_node_step done todo k a es p Hwf) as [ids [Hlen [Hstep Hwf']]].
    rewrite Hstep.
    destruct (IH (done ++ [(k, a)]) (p ++ [(k, ids)]) Hwf') as [p' [Hloop [Hwf'' Hp']]].
    { apply Forall2_app; [exact Hp|]. constructor; [|constructor].
      split; [reflexivity | exact Hlen]. }
    exists p'. rewrite <- app_assoc in Hloop, Hwf'', Hp'. auto.
Qed.

(** [add_explicit_hydrogens] on a well-formed graph: every node loses its
    [hcount], and gets as many new hydrogen neighbours as it had. *)
Lemma add_explicit_hydrogens_eq (m : mol) :
  wf m ->
  exists p,
    add_explicit_hydrogens m = (with_hydrogens (nodes m) [] (edges m) p, Ok tt) /\
    wf (with_hydrogens (nodes m) [] (edges m) p) /\
    Forall2 planned p (nodes m).
Proof.
  intros Hwf. unfold add_explicit_hydrogens. rewrite h_atom_value.
  assert (E : with_hydrogens [] (nodes m) (edges m) [] = m).
  { unfold with_hydrogens. cbn [map app new_nodes new_edges flat_map].
    rewrite !app_nil_r. destruct m; reflexivity. }
  destruct (add_hydrogens_loop (nodes m) [] (edges m) []) as [p' H].
  - rewrite E. exact Hwf.
  - constructor.
  - rewrite E in H. cbn [app] in H. exists p'. exact H.
Qed.

(** ** The round trip *)

Lemma planned_keys (p : list (node * list node)) (N : list (node * atom)) :
  Forall2 planned p N -> map fst p = map fst N.
Proof.
  induction 1 as [|q d p N [Hk _] _ IH]; cbn [map]; [reflexivity|].
  rewrite Hk, IH. reflexivity.
Qed.

Lemma filter_nil {A : Type} (f : A -> bool) (l : list A) :
  (forall x, In x l -> f x = false) -> filter f l = [].
Proof.
  intros H. induction l as [|x l IH]; cbn [filter]; [reflexivity|].
  rewrite (H x) by (left; reflexivity). apply IH. intros; apply H; right; assumption.
Qed.

Lemma filter_all {A : Type} (f : A -> bool) (l : list A) :
  (forall x, In x l -> f x = true) -> filter f l = l.
Proof.
  intros H. induction l as [|x l IH]; cbn [filter]; [reflexivity|].
  rewrite (H x) by (left; reflexivity). f_equal. apply IH.
  intros; apply H; right; assumption.
Qed.

Lemma NoDup_app_disjoint {A : Type} (l1 l2 : list A) (x : A) :
  NoDup (l1 ++ l2) -> In x l1 -> In x l2 -> False.
Proof.
  induction l1 as [|y l1 IH]; cbn [app In]; [tauto|].
  intros Hnd [-> | Hin] H2; inversion Hnd; subst.
  - apply H1. apply in_or_app. right. exact H2.
  - auto.
Qed.

Lemma adj_in_keys (m : mol) (x nb : node) (b : bond) :
  edges_closed m -> In (nb, b) (adj m x) -> In nb (keys m).
Proof.
  intros Hcl Hin. unfold adj in Hin. apply in_map_iff in Hin.
  destruct Hin as [e [He Hin]]. apply filter_In in Hin. destruct Hin as [Hin _].
  inversion He; subst. destruct (Hcl e Hin) as [H1 H2].
  unfold other. destruct (fst (fst e) =? x); assumption.
Qed.

Section RoundTrip.
Variable m : mol.
Variable p : list (node * list node).
Hypothesis Hwf : wf m.
Hypothesis Hwf1 : wf (with_hydrogens (nodes m) [] (edges m) p).
Hypothesis Hp : Forall2 planned p (nodes m).

Lemma keys_m1 : keys (with_hydrogens (nodes m) [] (edges m) p) = keys m ++ flat_map snd p.
Proof.
  rewrite keys_with_hydrogens. cbn [map]. rewrite app_nil_r. reflexivity.
Qed.

Lemma new_not_old (j : node) : In j (flat_map snd p) -> ~ In j (keys m).
Proof.
  intros Hj Hin. destruct Hwf1 as [Hnd _]. rewrite keys_m1 in Hnd.
  exact (NoDup_app_disjoint _ _ j Hnd Hin Hj).
Qed.

Lemma node_attrs_old (n : node) (a : atom) :
  node_attrs m n = Some a ->
  node_attrs (with_hydrogens (nodes m) [] (edges m) p) n
  = Some (set_hcount None a).
Proof.
  intros Ha. unfold node_attrs, with_hydrogens. cbn [nodes].
  rewrite app_nil_r, lookup_app.
  change (map strip (nodes m))
    with (map (fun kv => (fst kv, (fun (_ : node) a => set_hcount None a) (fst kv) (snd kv)))
              (nodes m)).
  rewrite lookup_map_values. unfold node_attrs in Ha. rewrite Ha. reflexivity.
Qed.

Lemma node_attrs_new (j : node) :
  In j (flat_map snd p) ->
  node_attrs (with_hydrogens (nodes m) [] (edges m) p) j = Some hydrogen_atom.
Proof.
  intros Hj. unfold node_attrs, with_hydrogens. cbn [nodes].
  rewrite app_nil_r, lookup_app.
  rewrite (lookup_None (map strip (nodes m)))
    by (rewrite keys_strip; apply new_not_old; exact Hj).
  apply lookup_In.
  - rewrite keys_new_nodes. destruct Hwf1 as [Hnd _].
    rewrite keys_m1 in Hnd. apply NoDup_app_remove_l in Hnd. exact Hnd.
  - unfold new_nodes. apply in_flat_map in Hj. destruct Hj as [q [Hq Hj]].
    apply in_flat_map. exists q. split; [exact Hq|].
    apply in_map_iff. exists j. auto.
Qed.

Lemma plan_key_old (q : node * list node) : In q p -> In (fst q) (keys m).
Proof.
  intros Hq. unfold keys. rewrite <- (planned_keys p (nodes m) Hp).
  apply in_map. exact Hq.
Qed.

Lemma incident_new_edges_none (l : list (node * list node)) (j : node) :
  (forall q, In q l -> fst q <> j) -> ~ In j (flat_map snd l) ->
  filter (fun e => incident j (fst e)) (new_edges l) = [].
Proof.
  intros Hk Hj. apply filter_nil. intros e He. unfold new_edges in He.
  apply in_flat_map in He. destruct He as [q [Hq He]].
  apply in_map_iff in He. destruct He as [j' [<- Hj']]. cbn [fst snd].
  unfold incident. cbn [fst snd].
  destruct (Z.eqb_spec (fst q) j) as [E|_]; [exfalso; exact (Hk q Hq E)|].
  destruct (Z.eqb_spec j' j) as [->|_]; [|reflexivity].
  exfalso. apply Hj. apply in_flat_map. exists q. auto.
Qed.

Lemma incident_own_edge (k j : node) (ids : list node) :
  NoDup ids -> In j ids -> k <> j ->
  filter (fun e => incident j (fst e))
         (map (fun j' => ((k, j'), mkBond (Some (1 : Q)))) ids)
  = [((k, j), mkBond (Some (1 : Q)))].
Proof.
  intros Hnd Hj Hkj. induction ids as [|i ids IH]; [destruct Hj|].
  inversion Hnd; subst. cbn [map filter fst snd]. unfold incident at 1. cbn [fst snd].
  destruct (Z.eqb_spec k j) as [E|_]; [contradiction|]. cbn [orb].
  destruct (Z.eqb_spec i j) as [->|Hij].
  - f_equal. apply filter_nil. intros e He. apply in_map_iff in He.
    destruct He as [j' [<- Hj']]. unfold incident. cbn [fst snd].
    destruct (Z.eqb_spec k j); [contradiction|].
    destruct (Z.eqb_spec j' j) as [->|]; [contradiction | reflexivity].
  - apply IH; auto. destruct Hj; [contradiction | assumption].
Qed.

Lemma incident_new_edges_one (l : list (node * list node)) (k j : node)
  (ids : list node) :
  NoDup (flat_map snd l) -> (forall q, In q l -> fst q <> j) ->
  In (k, ids) l -> In j ids ->
  filter (fun e => incident j (fst e)) (new_edges l)
  = [((k, j), mkBond (Some (1 : Q)))].
Proof.
  induction l as [|q l IH]; intros Hnd Hk Hq Hj; [destruct Hq|].
  cbn [flat_map] in Hnd. unfold new_edges. cbn [flat_map]. rewrite filter_app.
  fold (new_edges l).
  destruct Hq as [-> | Hq]; cbn [fst snd] in *.
  - rewrite incident_own_edge; auto.
    + rewrite incident_new_edges_none; [reflexivity | |].
      * intros q Hq. apply Hk. right. exact Hq.
      * intros Hin. exact (NoDup_app_disjoint _ _ j Hnd Hj Hin).
    + apply NoDup_app_remove_r in Hnd. exact Hnd.
    + apply (Hk (k, ids)). left. reflexivity.
  - rewrite filter_nil.
    + cbn [app]. apply IH; auto.
      * apply NoDup_app_remove_l in Hnd. exact Hnd.
      * intros q' Hq'. apply Hk. right. exact Hq'.
    + intros e He. apply in_map_iff in He. destruct He as [j' [<- Hj']].
      unfold incident. cbn [fst snd].
      destruct (Z.eqb_spec (fst q) j) as [E|_];
        [exfalso; apply (Hk q); [left; reflexivity | exact E]|].
      destruct (Z.eqb_spec j' j) as [->|_]; [|reflexivity].
      exfalso. apply (NoDup_app_disjoint _ _ j Hnd Hj').
      apply in_flat_map. exists (k, ids). auto.
Qed.

Lemma adj_new (k j : node) (ids : list node) :
  In (k, ids) p -> In j ids ->
  adj (with_hydrogens (nodes m) [] (edges m) p) j = [(k, mkBond (Some (1 : Q)))].
Proof.
  intros Hq Hj.
  assert (Hjn : In j (flat_map snd p)) by (apply in_flat_map; exists (k, ids); auto).
  pose proof (new_not_old j Hjn) as Hjo.
  assert (Hkj : forall q, In q p -> fst q <> j).
  { intros q Hq' E. apply Hjo. rewrite <- E. apply plan_key_old. exact Hq'. }
  unfold adj, with_hydrogens. cbn [edges]. rewrite filter_app.
  rewrite (filter_nil _ (edges m)).
  - cbn [app]. rewrite (incident_new_edges_one p k j ids); auto.
    + cbn [map fst snd]. unfold other. cbn [fst snd].
      destruct (Z.eqb_spec k j) as [E|_]; [|reflexivity].
      exfalso. apply (Hkj (k, ids) Hq). exact E.
    + destruct Hwf1 as [Hnd _]. rewrite keys_m1 in Hnd.
      apply NoDup_app_remove_l in Hnd. exact Hnd.
  - intros e He. destruct Hwf as [_ Hcl]. destruct (Hcl e He) as [H1 H2].
    unfold incident.
    destruct (Z.eqb_spec (fst (fst e)) j) as [E|_]; [rewrite E in H1; contradiction|].
    destruct (Z.eqb_spec (snd (fst e)) j) as [E|_]; [rewrite E in H2; contradiction|].
    reflexivity.
Qed.

Lemma adj_old (x : node) :
  In x (keys m) ->
  exists extra, adj (with_hydrogens (nodes m) [] (edges m) p) x = adj m x ++ extra /\
                forall nb b, In (nb, b) extra -> In nb (flat_map snd p).
Proof.
  intros Hx. unfold adj at 1. unfold with_hydrogens. cbn [edges].
  rewrite filter_app, map_app. eexists. split; [reflexivity|].
  intros nb b Hin. apply in_map_iff in Hin. destruct Hin as [e [He Hin]].
  apply filter_In in Hin. destruct Hin as [Hin Hinc].
  unfold new_edges in Hin. apply in_flat_map in Hin. destruct Hin as [q [Hq Hin]].
  apply in_map_iff in Hin. destruct Hin as [j [<- Hj]].
  cbn [fst snd] in *. inversion He; subst.
  assert (Hjn : In j (flat_map snd p)) by (apply in_flat_map; exists q; auto).
  unfold incident in Hinc. cbn [fst snd] in Hinc. unfold other. cbn [fst snd].
  destruct (Z.eqb_spec (fst q) x) as [E|_]; [exact Hjn|].
  destruct (Z.eqb_spec j x) as [E|_]; [|discriminate].
  exfalso. subst x. exact (new_not_old j Hjn Hx).
Qed.

Lemma removable_old (x n : node) (ax : atom) :
  node_attrs m x = Some ax -> In n (keys m) ->
  removable (with_hydrogens (nodes m) [] (edges m) p) x (set_hcount None ax) = Some n ->
  removable m x ax = Some n.
Proof.
  intros Hax Hn. destruct Hwf as [_ Hcl].
  assert (Hx : In x (keys m)).
  { apply lookup_Some_In in Hax. unfold keys. apply in_map_iff. exists (x, ax). auto. }
  destruct (adj_old x Hx) as [extra [Hadj Hextra]].
  unfold removable. cbn [charge isotope class_ set_hcount].
  change (element_is_H (set_hcount None ax)) with (element_is_H ax).
  rewrite Hadj, length_map.
  destruct (adj m x) as [|[nb b] rest] eqn:Eadj; cbn [app].
  - destruct extra as [|[nb b] extra'].
    + rewrite andb_false_r. discriminate.
    + rewrite (node_attrs_new nb) by (apply (Hextra nb b); left; reflexivity).
      cbn [element_is_H hydrogen_atom element get String.eqb Ascii.eqb Bool.eqb orb andb].
      destruct (_ && _); discriminate.
  - assert (Hnb : In nb (keys m)).
    { apply (adj_in_keys m x nb b Hcl). rewrite Eadj. left. reflexivity. }
    destruct (lookup_in_keys (nodes m) nb Hnb) as [b' Hb'].
    rewrite (node_attrs_old nb b' Hb'). unfold node_attrs. rewrite Hb'.
    change (element_is_H (set_hcount None b')) with (element_is_H b').
    rewrite length_map. cbn [length map app].
    destruct rest as [|r rest]; [destruct extra as [|ex extra']|]; cbn [length app].
    + auto.
    + replace (Z.of_nat (S (S (length extra'))) =? 1) with false
        by (symmetry; apply Z.eqb_neq; lia).
      rewrite andb_false_r. discriminate.
    + replace (Z.of_nat (S (S (length (rest ++ extra)))) =? 1) with false
        by (symmetry; apply Z.eqb_neq; lia).
      rewrite andb_false_r. discriminate.
Qed.

Lemma removable_new (k j : node) (ids : list node) (ak : atom) :
  In (k, ids) p -> In j ids -> node_attrs m k = Some ak ->
  removable (with_hydrogens (nodes m) [] (edges m) p) j hydrogen_atom
  = if element_is_H ak then None else Some k.
Proof.
  intros Hq Hj Hak. unfold removable. rewrite (adj_new k j ids Hq Hj).
  rewrite (node_attrs_old k ak Hak).
  change (element_is_H (set_hcount None ak)) with (element_is_H ak).
  cbn. destruct (element_is_H ak); reflexivity.
Qed.
End RoundTrip.

Lemma count_planned (f : node -> bool) (n : node) (a : atom)
  (p : list (node * list node)) (N : list (node * atom)) :
  Forall2 planned p N -> NoDup (map fst N) -> lookup N n = Some a ->
  (forall q j, In q p -> In j (snd q) -> f j = (fst q =? n)) ->
  length (filter f (flat_map snd p)) = Z.to_nat (get (hcount a) 0).
Proof.
  induction 1 as [|q d p N [Hk Hlen] HF IH]; intros Hnd Hn Hf; [discriminate|].
  cbn [flat_map]. rewrite filter_app, length_app.
  destruct d as [k' a']. cbn [fst snd map lookup] in *.
  apply NoDup_cons_iff in Hnd. destruct Hnd as [Hnotin Hnd].
  destruct (Z.eqb_spec k' n) as [E|Hne].
  - inversion Hn as [Ea]. rewrite <- Ea. rewrite filter_all.
    2:{ intros j Hj. rewrite (Hf q j (or_introl eq_refl) Hj), Hk. apply Z.eqb_eq, E. }
    rewrite filter_nil; [cbn [length]; lia|].
    intros j Hj. apply in_flat_map in Hj. destruct Hj as [q' [Hq' Hj]].
    rewrite (Hf q' j (or_intror Hq') Hj). apply Z.eqb_neq. intros E'.
    apply Hnotin. rewrite <- (planned_keys p N HF), E, <- E'. apply in_map. exact Hq'.
  - rewrite filter_nil.
    2:{ intros j Hj. rewrite (Hf q j (or_introl eq_refl) Hj), Hk. apply Z.eqb_neq. exact Hne. }
    cbn [length plus]. apply IH; auto.
    intros q' j Hq' Hj. apply (Hf q' j); [right; exact Hq' | exact Hj].
Qed.

Lemma count_removed_with_hydrogens (m : mol) (p : list (node * list node))
  (n : node) (a : atom) :
  wf m -> wf (with_hydrogens (nodes m) [] (edges m) p) ->
  Forall2 planned p (nodes m) ->
  node_attrs m n = Some a -> element_is_H a = false ->
  (forall x ax, node_attrs m x = Some ax -> removable m x ax <> Some n) ->
  count_removed (with_hydrogens (nodes m) [] (edges m) p) n
  = Z.to_nat (get (hcount a) 0).
Proof.
  intros Hwf Hwf1 Hp Ha HnotH Hnone.
  set (m1 := with_hydrogens (nodes m) [] (edges m) p).
  assert (Hn : In n (keys m)).
  { apply lookup_Some_In in Ha. unfold keys. apply in_map_iff. exists (n, a). auto. }
  unfold count_removed. fold (keys m1). unfold m1. rewrite (keys_m1 m p). fold m1.
  rewrite filter_app, length_app. rewrite filter_nil.
  - cbn [length plus]. apply (count_planned _ n a p (nodes m) Hp); [apply Hwf | exact Ha |].
    intros q j Hq Hj. unfold removed_from.
    assert (Hjn : In j (flat_map snd p)) by (apply in_flat_map; exists q; auto).
    unfold m1. rewrite (node_attrs_new m p Hwf1 j Hjn).
    destruct (lookup_in_keys (nodes m) (fst q) (plan_key_old m p Hp q Hq)) as [ak Hak].
    destruct q as [k ids]. cbn [fst snd] in *.
    rewrite (removable_new m p Hwf Hwf1 Hp k j ids ak Hq Hj Hak).
    destruct (Z.eqb_spec k n) as [->|Hne].
    + unfold node_attrs in Ha. rewrite Ha in Hak. inversion Hak; subst.
      rewrite HnotH. apply Z.eqb_refl.
    + destruct (element_is_H ak); [reflexivity|]. apply Z.eqb_neq. exact Hne.
  - intros x Hx. unfold removed_from.
    destruct (lookup_in_keys (nodes m) x Hx) as [ax Hax].
    unfold m1. rewrite (node_attrs_old m p x ax Hax).
    destruct (removable (with_hydrogens (nodes m) [] (edges m) p) x (set_hcount None ax))
      as [nb|] eqn:Hr; [|reflexivity].
    apply Z.eqb_neq. intros ->.
    apply (removable_old m p Hwf Hwf1 x n ax Hax Hn) in Hr.
    exact (Hnone x ax Hax Hr).
Qed.

(** C9, as stated, fails: in methane written with one explicit hydrogen,
    [[CH3][H]], the carbon has [hcount = 3]; the three hydrogens created for
    it are plain (charge 0, no isotope, no class, one neighbour that is not a
    hydrogen, bond order 1), and after the round trip the carbon has
    [hcount = 4], since the hydrogen that was explicit before is removed with
    them. *)
Lemma round_trip_counts_explicit_hydrogens :
  wf methane_one_explicit /\
  option_map hcount (node_attrs methane_one_explicit 0) = Some (Some 3) /\
  snd (add_explicit_hydrogens methane_one_explicit) = Ok tt /\
  (forall j, In j [2; 3; 4] ->
     node_attrs (fst (add_explicit_hydrogens methane_one_explicit)) j
     = Some hydrogen_atom /\
     adj (fst (add_explicit_hydrogens methane_one_explicit)) j
     = [(0, mkBond (Some (1 : Q)))]) /\
  option_map hcount (node_attrs (round_trip methane_one_explicit) 0) = Some (Some 4).
Proof.
  split.
  { split.
    - unfold keys. cbn. repeat constructor; cbn; intuition discriminate.
    - intros e [<- | []]. cbn. auto. }
  repeat split; try reflexivity;
    destruct H as [<- | [<- | [<- | []]]]; reflexivity.
Qed.

(** C9, amended: on a well-formed graph, for every atom that is not a
    hydrogen, has a non-negative [hcount] (or none) and is not the neighbour
    of a hydrogen that [remove_explicit_hydrogens] removes from the original
    graph, [add_explicit_hydrogens] followed by [remove_explicit_hydrogens]
    raises nothing and leaves the atom with its attributes and with the
    original value of [hcount] (0 where it was absent). *)
Theorem round_trip_restores_hcount (m : mol) (n : node) (a : atom) :
  wf m -> node_attrs m n = Some a -> element_is_H a = false ->
  0 <= get (hcount a) 0 ->
  (forall x ax, node_attrs m x = Some ax -> removable m x ax <> Some n) ->
  snd (add_explicit_hydrogens m) = Ok tt /\
  snd (remove_explicit_hydrogens (fst (add_explicit_hydrogens m))) = Ok tt /\
  node_attrs (round_trip m) n = Some (set_hcount (Some (get (hcount a) 0)) a).
Proof.
  intros Hwf Ha HnotH Hpos Hnone. unfold round_trip.
  destruct (add_explicit_hydrogens_eq m Hwf) as [p [Hadd [Hwf1 Hp]]].
  rewrite Hadd. cbn [fst snd]. split; [reflexivity|].
  pose proof (node_attrs_old m p n a Ha) as Ha1.
  assert (Hr : removable (with_hydrogens (nodes m) [] (edges m) p) n (set_hcount None a)
               = None).
  { unfold removable. change (element_is_H (set_hcount None a)) with (element_is_H a).
    rewrite HnotH, andb_false_r. reflexivity. }
  destruct (remove_explicit_hydrogens_kept _ n _ (proj1 Hwf1) Ha1 Hr) as [Hok Hattrs].
  split; [exact Hok|]. rewrite Hattrs.
  rewrite (count_removed_with_hydrogens m p n a Hwf Hwf1 Hp Ha HnotH Hnone).
  cbn [hcount set_hcount get]. unfold set_hcount. cbn.
  do 3 f_equal. lia.
Qed.

Lemma round_trip_restores_hcount_witness :
  node_attrs (round_trip ethane) 0 = Some (set_hcount (Some 3) CH3).
Proof.
  refine (proj2 (proj2 (round_trip_restores_hcount ethane 0 CH3 _ eq_refl eq_refl _ _))).
  - split.
    + unfold keys. cbn. repeat constructor; cbn; intuition discriminate.
    + intros e [<- | []]. cbn. auto.
  - cbn. lia.
  - intros x ax Hx. apply lookup_Some_In in Hx. cbn in Hx.
    destruct Hx as [E | [E | []]]; inversion E; subst; vm_compute; discriminate.
Defined.

(** ** Kekulization *)

Lemma length_endpoints (M : list (node * node)) :
  length (endpoints M) = (2 * length M)%nat.
Proof.
  induction M as [|e M IH]; cbn [endpoints flat_map length app]; [reflexivity|].
  fold (endpoints M). rewrite IH. lia.
Qed.

Lemma matching_endpoints_in (g : skeleton) (M : list (node * node)) :
  matching g M -> incl (endpoints M) (fst g).
Proof.
  intros [_ H] v Hv. unfold endpoints in Hv. apply in_flat_map in Hv.
  destruct Hv as [e [He Hv]]. destruct (H e He) as (H1 & H2 & _).
  destruct Hv as [<- | [<- | []]]; assumption.
Qed.

(** No matching has more than half as many edges as the graph has nodes. *)
Lemma matching_size (g : skeleton) (M : list (node * node)) :
  matching g M -> (2 * length M <= length (fst g))%nat.
Proof.
  intros HM. rewrite <- length_endpoints.
  apply NoDup_incl_length; [apply HM | apply matching_endpoints_in, HM].
Qed.

Lemma perfect_iff_length (g : skeleton) (M : list (node * node)) :
  NoDup (fst g) -> matching g M ->
  (perfect_matching g M <-> length (endpoints M) = length (fst g)).
Proof.
  intros Hnd HM. split.
  - intros [_ Hcov]. apply Nat.le_antisymm.
    + apply NoDup_incl_length; [apply HM | apply matching_endpoints_in, HM].
    + apply NoDup_incl_length; [exact Hnd | exact Hcov].
  - intros Hlen. split; [exact HM|].
    apply NoDup_length_incl; [apply HM | lia | apply matching_endpoints_in, HM].
Qed.

(** [nx.is_perfect_matching] on a matching: no error, and the answer is the
    comparison of the number of matched nodes with the number of nodes. *)
Lemma is_perfect_matching_from_matching (g : skeleton) (M : list (node * node))
  (seen : list node) :
  matching g M -> (forall v, In v seen -> ~ In v (endpoints M)) ->
  is_perfect_matching_from g M seen
  = Ok (Nat.eqb (length seen + length (endpoints M)) (length (fst g))).
Proof.
  revert seen. induction M as [|[u v] M IH]; intros seen HM Hseen;
    cbn [is_perfect_matching_from endpoints flat_map length app].
  - rewrite Nat.add_0_r. reflexivity.
  - fold (endpoints M). destruct HM as [Hnd He].
    destruct (He (u, v) (or_introl eq_refl)) as (Hu & Hv & Huv). cbn [fst snd] in *.
    apply mem_In in Hu, Hv. rewrite Hu, Hv. cbn [negb orb].
    cbn [endpoints flat_map app fst snd] in Hnd. fold (endpoints M) in Hnd.
    inversion Hnd as [|? ? Hu1 Hnd1]; subst. inversion Hnd1 as [|? ? Hv1 Hnd2]; subst.
    destruct (Z.eqb_spec u v) as [->|Hne]; [exfalso; apply Hu1; left; reflexivity|].
    rewrite Huv. cbn [negb].
    assert (Hus : mem u seen = false).
    { apply mem_false. intros Hin. apply (Hseen u Hin).
      cbn [endpoints flat_map app fst snd]. left. reflexivity. }
    assert (Hvs : mem v seen = false).
    { apply mem_false. intros Hin. apply (Hseen v Hin).
      cbn [endpoints flat_map app fst snd]. right. left. reflexivity. }
    rewrite Hus, Hvs. cbn [orb].
    rewrite IH.
    + cbn [length]. do 2 f_equal. lia.
    + split; [exact Hnd2|]. intros e Hin. apply He. right. exact Hin.
    + intros w [<- | [<- | Hw]] Hin.
      * exact (Hv1 Hin).
      * apply Hu1. right. exact Hin.
      * apply (Hseen w Hw). cbn [endpoints flat_map app fst snd].
        right. right. exact Hin.
Qed.

(** The test of [mark_aromatic_atoms] on a maximum matching: it passes
    exactly when the graph has a perfect matching. *)
Lemma maximum_matching_test (g : skeleton) (M : list (node * node)) :
  NoDup (fst g) -> maximum_matching g M ->
  exists b, is_perfect_matching g M = Ok b /\
            (b = true <-> exists M', perfect_matching g M').
Proof.
  intros Hnd [HM Hmax]. unfold is_perfect_matching.
  rewrite (is_perfect_matching_from_matching g M [] HM) by (intros v []).
  cbn [length plus]. eexists. split; [reflexivity|].
  rewrite Nat.eqb_eq. split.
  - intros Hlen. exists M. apply perfect_iff_length; assumption.
  - intros [M' HM']. pose proof (Hmax M' (proj1 HM')) as Hle.
    apply (perfect_iff_length g M' Hnd (proj1 HM')) in HM'.
    pose proof (matching_size g M HM) as Hsz.
    rewrite length_endpoints in *. lia.
Qed.

Lemma structure_update_node (n : node) (f : atom -> atom) (m : mol) :
  structure (update_node n f m) = structure m.
Proof.
  unfold structure, update_node. cbn [nodes edges]. rewrite keys_update. reflexivity.
Qed.

Lemma structure_update_edge (u v : node) (f : bond -> bond) (m : mol) :
  structure (update_edge u v f m) = structure m.
Proof.
  unfold structure, update_edge. cbn [nodes edges]. f_equal.
  rewrite map_map. apply map_ext. intros [e b]. cbn [fst snd].
  destruct (same_edge u v e); reflexivity.
Qed.

Lemma structure_clear_aromatic (m : mol) : structure (clear_aromatic m) = structure m.
Proof.
  unfold structure, clear_aromatic. cbn [nodes edges]. rewrite map_map. reflexivity.
Qed.

Lemma map_filter_fst {A B : Type} (f : A -> bool) (l : list (A * B)) :
  map fst (filter (fun x => f (fst x)) l) = filter f (map fst l).
Proof.
  induction l as [|[a b] l IH]; cbn [filter map fst]; [reflexivity|].
  destruct (f a); cbn [map fst]; rewrite IH; reflexivity.
Qed.

Lemma structure_subgraph (m : mol) (C : list node) :
  structure (subgraph m C) = induced (structure m) C.
Proof.
  unfold structure, subgraph, induced. cbn [nodes edges fst snd]. f_equal.
  - exact (map_filter_fst (fun k => mem k C) (nodes m)).
  - exact (map_filter_fst (fun e => mem (fst e) C && mem (snd e) C) (edges m)).
Qed.

Lemma has_edge_induced (g : skeleton) (C : list node) (u v : node) :
  has_edge (induced g C) u v = true -> has_edge g u v = true.
Proof.
  unfold has_edge, induced. cbn [snd]. rewrite !existsb_exists.
  intros [e [He Hs]]. apply filter_In in He. exists e. tauto.
Qed.

Lemma edge_attrs_has_edge (m : mol) (u v : node) :
  has_edge (structure m) u v = true -> exists b, edge_attrs m u v = Some b.
Proof.
  unfold has_edge, structure, edge_attrs. cbn [snd]. rewrite existsb_exists.
  intros [e [He Hs]]. apply in_map_iff in He. destruct He as [[e' b] [<- Hin]].
  cbn [fst] in Hs.
  destruct (find (fun e0 => same_edge u v (fst e0)) (edges m)) as [x|] eqn:Hf.
  - eexists. reflexivity.
  - exfalso. apply (find_none _ _ Hf) in Hin. cbn [fst] in Hin. congruence.
Qed.

Section KekulizeProofs.
Variable connected_components : skeleton -> list (list node).
Variable max_weight_matching : skeleton -> list (node * node).
Variable cycle_basis : skeleton -> list (list node).

(** The loop that sets [order = 2] on matched edges outside the cycles
    raises nothing and keeps nodes and edges. *)
Lemma exocyclic_loop (nodes_in_cycles : list node) (M : list (node * node))
  (m : mol) :
  (forall e, In e M -> has_edge (structure m) (fst e) (snd e) = true) ->
  exists m',
    for_each M
      (fun edge m =>
         if negb (mem (fst edge) nodes_in_cycles)
            && negb (mem (snd edge) nodes_in_cycles)
         then match edge_attrs m (fst edge) (snd edge) with
              | Some _ =>
                  (update_edge (fst edge) (snd edge) (set_order 2) m, Ok tt)
              | None => (m, Raise KeyError)
              end
         else (m, Ok tt)) m
    = (m', Ok tt) /\ structure m' = structure m.
Proof.
  revert m. induction M as [|e M IH]; intros m HM; cbn [for_each].
  - exists m. auto.
  - destruct (negb (mem (fst e) nodes_in_cycles) && negb (mem (snd e) nodes_in_cycles)).
    + destruct (edge_attrs_has_edge m (fst e) (snd e) (HM e (or_introl eq_refl)))
        as [b Hb].
      rewrite Hb.
      destruct (IH (update_edge (fst e) (snd e) (set_order 2) m)) as [m' [Hm' Hs]].
      * intros e' He'. rewrite structure_update_edge. apply HM. right. exact He'.
      * exists m'. rewrite Hs, structure_update_edge. auto.
    + destruct (IH m) as [m' [Hm' Hs]].
      * intros e' He'. apply HM. right. exact He'.
      * exists m'. auto.
Qed.

Lemma aromatic_true_loop (cycles : list (list node)) (m : mol) :
  structure
    (fold_left
       (fun m cycle =>
          fold_left (fun m n => update_node n (set_aromatic (Some true)) m) cycle m)
       cycles m)
  = structure m.
Proof.
  revert m. induction cycles as [|c cycles IH]; intros m; cbn [fold_left]; [reflexivity|].
  rewrite IH. clear IH. revert m. induction c as [|n c IHc]; intros m; cbn [fold_left].
  - reflexivity.
  - rewrite IHc. apply structure_update_node.
Qed.

Lemma aromatic_false_loop (nodes_in_cycles ns : list node) (m : mol) :
  structure
    (fold_left
       (fun m n =>
          if negb (mem n nodes_in_cycles)
          then update_node n (set_aromatic (Some false)) m
          else m)
       ns m)
  = structure m.
Proof.
  revert m. induction ns as [|n ns IH]; intros m; cbn [fold_left]; [reflexivity|].
  rewrite IH. destruct (negb (mem n nodes_in_cycles)); [|reflexivity].
  apply structure_update_node.
Qed.

(** One component: the error is raised when the test on the matching fails,
    and otherwise the body raises nothing and keeps nodes and edges. *)
Lemma mark_component_outcome (C : list node) (m : mol) (b : bool) :
  let g := induced (structure m) C in
  matching g (max_weight_matching g) ->
  is_perfect_matching g (max_weight_matching g) = Ok b ->
  if b
  then exists m', mark_component max_weight_matching cycle_basis C m = (m', Ok tt)
                  /\ structure m' = structure m
  else mark_component max_weight_matching cycle_basis C m = (m, Raise SyntaxError).
Proof.
  intros g HM Hb. unfold mark_component. rewrite structure_subgraph.
  fold g. rewrite Hb. destruct b; [|reflexivity].
  match goal with
  | |- exists m', for_each _ ?body ?s = _ /\ _ =>
      destruct (exocyclic_loop (concat (cycle_basis g)) (max_weight_matching g) s)
        as [m' [Hm' Hs]]
  end.
  - intros e He. rewrite aromatic_false_loop, aromatic_true_loop.
    apply (has_edge_induced (structure m) C). apply HM. exact He.
  - exists m'. split; [exact Hm'|].
    rewrite Hs, aromatic_false_loop, aromatic_true_loop. reflexivity.
Qed.

(** The loop over the components raises the kekulization error exactly
    when the test fails on one of them. *)
Lemma components_loop (g0 : skeleton) (Cs : list (list node)) (m : mol) :
  structure m = g0 ->
  (forall C, In C Cs ->
     exists b, matching (induced g0 C) (max_weight_matching (induced g0 C)) /\
               is_perfect_matching (induced g0 C) (max_weight_matching (induced g0 C))
               = Ok b) ->
  (snd (for_each Cs (mark_component max_weight_matching cycle_basis) m) = Raise SyntaxError <->
   exists C, In C Cs /\
             is_perfect_matching (induced g0 C) (max_weight_matching (induced g0 C))
             = Ok false).
Proof.
  revert m. induction Cs as [|C Cs IH]; intros m Hs Hall; cbn [for_each].
  - cbn [snd]. split; [discriminate | intros [C [[] _]]].
  - destruct (Hall C (or_introl eq_refl)) as [b [HM Hb]].
    pose proof (mark_component_outcome C m b) as Hout. cbn zeta in Hout.
    rewrite Hs in Hout. specialize (Hout HM Hb).
    destruct b.
    + destruct Hout as [m' [Hm' Hs']]. rewrite Hm'.
      rewrite (IH m') by (try congruence; intros; apply Hall; right; assumption).
      split.
      * intros [C' [Hin Hf]]. exists C'. split; [right|]; assumption.
      * intros [C' [[<- | Hin] Hf]]; [congruence|]. exists C'. auto.
    + rewrite Hout. cbn [snd]. split; [|reflexivity].
      intros _. exists C. split; [left; reflexivity | exact Hb].
Qed.
End KekulizeProofs.

Lemma filter_filter_impl {A : Type} (f h : A -> bool) (l : list A) :
  (forall x, f x = true -> h x = true) -> filter f (filter h l) = filter f l.
Proof.
  intros H. induction l as [|x l IH]; cbn [filter]; [reflexivity|].
  destruct (h x) eqn:Hh; cbn [filter].
  - rewrite IH. reflexivity.
  - destruct (f x) eqn:Hf; [rewrite (H x Hf) in Hh; discriminate | exact IH].
Qed.

Lemma induced_induced (g : skeleton) (NN C : list node) :
  incl C (fst (induced g NN)) -> induced (induced g NN) C = induced g C.
Proof.
  intros Hincl.
  assert (Hsub : forall x, mem x C = true -> mem x NN = true).
  { intros x Hx. apply mem_In in Hx. apply Hincl in Hx. cbn [induced fst] in Hx.
    apply filter_In in Hx. tauto. }
  unfold induced. cbn [fst snd]. f_equal.
  - apply filter_filter_impl. exact Hsub.
  - apply filter_filter_impl. intros e He. apply andb_true_iff in He.
    apply andb_true_iff. split; apply Hsub; tauto.
Qed.

Lemma mem_ext (C C' : list node) :
  (forall v, In v C <-> In v C') -> forall v, mem v C = mem v C'.
Proof.
  intros H v. destruct (mem v C') eqn:E.
  - apply mem_In. apply H. apply mem_In. exact E.
  - apply mem_false. intros Hin. apply H in Hin. apply mem_In in Hin. congruence.
Qed.

Lemma induced_ext (g : skeleton) (C C' : list node) :
  (forall v, In v C <-> In v C') -> induced g C = induced g C'.
Proof.
  intros H. pose proof (mem_ext C C' H) as E. unfold induced. f_equal.
  - apply filter_ext. intros k. apply E.
  - apply filter_ext. intros e. rewrite !E. reflexivity.
Qed.

Lemma has_edge_sym (g : skeleton) (u v : node) : has_edge g u v = has_edge g v u.
Proof.
  unfold has_edge. induction (snd g) as [|e l IH]; cbn [existsb]; [reflexivity|].
  rewrite IH. f_equal. unfold same_edge. apply orb_comm.
Qed.

Lemma connected_sym (g : skeleton) (u v : node) : connected g u v -> connected g v u.
Proof.
  unfold connected. induction 1 as [x y [Hx [Hy He]] | x | x y z _ IH1 _ IH2].
  - apply rt_step. repeat split; auto. rewrite has_edge_sym. exact He.
  - apply rt_refl.
  - eapply rt_trans; eassumption.
Qed.

(** Two components with a common node have the same nodes. *)
Lemma component_unique (g : skeleton) (C C' : list node) (r : node) :
  is_component g C -> is_component g C' -> In r C -> In r C' ->
  forall v, In v C <-> In v C'.
Proof.
  intros [_ [a [Ha HC]]] [_ [a' [Ha' HC']]] Hr Hr' v.
  apply HC in Hr. apply HC' in Hr'. destruct Hr as [_ Hr]. destruct Hr' as [_ Hr'].
  rewrite HC, HC'. split; intros [Hv Hc]; (split; [exact Hv|]).
  - apply rt_trans with r; [exact Hr'|].
    apply rt_trans with a; [apply connected_sym; exact Hr | exact Hc].
  - apply rt_trans with r; [exact Hr|].
    apply rt_trans with a'; [apply connected_sym; exact Hr' | exact Hc].
Qed.

Lemma component_incl (g : skeleton) (C : list node) :
  is_component g C -> incl C (fst g).
Proof. intros [_ [r [_ H]]] v Hv. apply H in Hv. tauto. Qed.

(** A graph on an odd number of nodes has no perfect matching. *)
Lemma odd_no_perfect_matching (g : skeleton) (M : list (node * node)) :
  NoDup (fst g) -> Nat.odd (length (fst g)) = true -> ~ perfect_matching g M.
Proof.
  intros Hnd Hodd HM.
  apply (perfect_iff_length g M Hnd (proj1 HM)) in HM.
  rewrite length_endpoints in HM. rewrite <- HM in Hodd.
  rewrite Nat.odd_mul in Hodd. discriminate.
Qed.

Lemma induced_component_length (g : skeleton) (C : list node) :
  NoDup (fst g) -> NoDup C -> incl C (fst g) ->
  length (fst (induced g C)) = length C.
Proof.
  intros Hnd HC Hincl. cbn [induced fst]. apply Nat.le_antisymm.
  - apply NoDup_incl_length; [apply NoDup_filter; exact Hnd|].
    intros v Hv. apply filter_In in Hv. apply mem_In. tauto.
  - apply NoDup_incl_length; [exact HC|].
    intros v Hv. apply filter_In. split; [apply Hincl; exact Hv | apply mem_In; exact Hv].
Qed.

Lemma prune_nodes_subgraph (ns : list node) (m ds : mol) :
  _prune_nodes ns m = Ok ds -> exists NN, ds = subgraph m NN.
Proof.
  unfold _prune_nodes. destruct (eligible_nodes m ns) as [NN|e]; cbn [bind];
    [|discriminate].
  intros H. inversion H. exists NN. reflexivity.
Qed.

(** C4: [mark_aromatic_atoms] raises the "cannot be kekulized" error exactly
    when some connected component of the delocalization graph has no perfect
    matching; in particular it raises it when a component has an odd number
    of atoms.  [connected_components] and [max_weight_matching] are the
    functions of [networkx]: the first is taken to yield the connected
    components of the delocalization graph, the second a matching of maximum
    cardinality of each component. *)
Theorem mark_aromatic_atoms_kekulization_error
  (connected_components : skeleton -> list (list node))
  (max_weight_matching : skeleton -> list (node * node))
  (cycle_basis : skeleton -> list (list node))
  (atoms : option (list node)) (m ds : mol) :
  wf m ->
  _prune_nodes (get atoms (keys m)) m = Ok ds ->
  components_of (structure ds) (connected_components (structure ds)) ->
  (forall C, In C (connected_components (structure ds)) ->
     maximum_matching (induced (structure ds) C)
                      (max_weight_matching (induced (structure ds) C))) ->
  let outcome :=
    snd (mark_aromatic_atoms connected_components max_weight_matching cycle_basis
                             atoms m) in
  (outcome = Raise SyntaxError <->
   exists C, is_component (structure ds) C /\
             ~ exists M, perfect_matching (induced (structure ds) C) M) /\
  (forall C, is_component (structure ds) C -> Nat.odd (length C) = true ->
             outcome = Raise SyntaxError).
Proof.
  intros Hwf Hprune [Hcomp Hcover] Hmax outcome.
  destruct (prune_nodes_subgraph _ m ds Hprune) as [NN HNN].
  assert (Hds : structure ds = induced (structure m) NN)
    by (rewrite HNN; apply structure_subgraph).
  assert (Hnd : NoDup (fst (structure ds))).
  { rewrite Hds. cbn [induced fst structure]. apply NoDup_filter. apply Hwf. }
  assert (HndC : forall C, NoDup (fst (induced (structure ds) C)))
    by (intros C; cbn [induced fst]; apply NoDup_filter; exact Hnd).
  assert (Hsame : forall C, In C (connected_components (structure ds)) ->
                            induced (structure m) C = induced (structure ds) C).
  { intros C HC. rewrite Hds. symmetry. apply induced_induced.
    rewrite <- Hds. apply component_incl, Hcomp, HC. }
  assert (Hloop : outcome = Raise SyntaxError <->
                  exists C, In C (connected_components (structure ds)) /\
                            ~ exists M, perfect_matching (induced (structure ds) C) M).
  { unfold outcome, mark_aromatic_atoms. fold (keys m). rewrite Hprune.
    rewrite (components_loop max_weight_matching cycle_basis (structure m)).
    - split; intros [C [HC Hf]]; exists C; (split; [exact HC|]);
        destruct (maximum_matching_test _ _ (HndC C) (Hmax C HC)) as [b [Hb Hiff]];
        rewrite (Hsame C HC) in *.
      + rewrite Hb in Hf. inversion Hf; subst. intros HM. apply Hiff in HM. discriminate.
      + rewrite Hb. destruct b; [|reflexivity]. exfalso. apply Hf, Hiff. reflexivity.
    - apply structure_clear_aromatic.
    - intros C HC. rewrite (Hsame C HC).
      destruct (maximum_matching_test _ _ (HndC C) (Hmax C HC)) as [b [Hb _]].
      exists b. split; [apply (Hmax C HC) | exact Hb]. }
  assert (Hiff : outcome = Raise SyntaxError <->
                 exists C, is_component (structure ds) C /\
                           ~ exists M, perfect_matching (induced (structure ds) C) M).
  { rewrite Hloop. split.
    - intros [C [HC Hf]]. exists C. split; [apply Hcomp, HC | exact Hf].
    - intros [C [HC Hf]]. destruct HC as [HCnd [r [Hr HCr]]].
      destruct (Hcover r Hr) as [C' [HC' Hr']]. exists C'. split; [exact HC'|].
      assert (HrC : In r C) by (apply HCr; split; [exact Hr | apply rt_refl]).
      rewrite (induced_ext (structure ds) C' C); [exact Hf|].
      apply (component_unique (structure ds) C' C r); auto.
      + split; [exact HCnd|]. exists r. auto. }
  split; [exact Hiff|].
  intros C HC Hodd. apply Hiff. exists C. split; [exact HC|].
  intros [M HM]. apply (odd_no_perfect_matching _ M (HndC C)); [|exact HM].
  rewrite induced_component_length; auto.
  - apply HC.
  - apply component_incl, HC.
Qed.

Lemma mark_aromatic_atoms_kekulization_error_witness :
  snd (mark_aromatic_atoms closure_components search_matching
                           (fun _ => [[0; 1; 2; 3; 4]]) None wildcard_ring5)
  = Raise SyntaxError.
Proof.
  assert (Hadj : forall u v,
             In (u, v) [(0, 1); (1, 2); (2, 3); (3, 4)] ->
             connected (structure wildcard_ring5) u v).
  { intros u v Huv. apply rt_step.
    repeat (destruct Huv as [Huv | Huv]; [inversion Huv; subst; clear Huv|]);
      try (destruct Huv); repeat split; cbn; tauto. }
  assert (Hcomp : is_component (structure wildcard_ring5) [0; 1; 4; 2; 3]).
  { split.
    - repeat constructor; cbn; intuition discriminate.
    - exists 0. split; [cbn; tauto|]. intros v.
      split; [|intros [Hv _]; cbn in *; tauto].
      intros Hv. split; [cbn in *; tauto|].
      assert (H1 := Hadj 0 1 ltac:(cbn; tauto)).
      assert (H2 := Hadj 1 2 ltac:(cbn; tauto)).
      assert (H3 := Hadj 2 3 ltac:(cbn; tauto)).
      assert (H4 := Hadj 3 4 ltac:(cbn; tauto)).
      destruct Hv as [<- | [<- | [<- | [<- | [<- | []]]]]].
      + apply rt_refl.
      + exact H1.
      + exact (rt_trans _ _ _ _ _ (rt_trans _ _ _ _ _ (rt_trans _ _ _ _ _ H1 H2) H3) H4).
      + exact (rt_trans _ _ _ _ _ H1 H2).
      + exact (rt_trans _ _ _ _ _ (rt_trans _ _ _ _ _ H1 H2) H3). }
  refine (proj2 (mark_aromatic_atoms_kekulization_error
                   closure_components search_matching (fun _ => [[0; 1; 2; 3; 4]])
                   None wildcard_ring5 wildcard_ring5 _ eq_refl _ _)
                [0; 1; 4; 2; 3] Hcomp eq_refl).
  - split.
    + unfold keys. cbn. repeat constructor; cbn; intuition discriminate.
    + intros e He. cbn in He.
      repeat (destruct He as [<- | He]; [cbn; tauto|]). destruct He.
  - split.
    + intros C HC. vm_compute in HC. destruct HC as [<- | []]. exact Hcomp.
    + intros v Hv. exists [0; 1; 4; 2; 3]. split; [vm_compute; tauto | cbn in *; tauto].
  - intros C HC. vm_compute in HC. destruct HC as [<- | []]. split.
    + split.
      * vm_compute. repeat constructor; cbn; intuition discriminate.
      * intros e He. vm_compute in He.
        repeat (destruct He as [<- | He]; [cbn; tauto|]). destruct He.
    + intros M' HM'. apply matching_size in HM'.
      change (2 * length M' <= 5)%nat in HM'.
      change (length M' <= 2)%nat. lia.
Defined.

(** * Further properties *)

(** ** Rational arithmetic of the bond accounting *)

Lemma py_int_floor (q : Q) : (0 <= q)%Q -> py_int q = Qfloor q.
Proof.
  destruct q as [n d]. unfold Qle, py_int, Qfloor. cbn. intros H.
  apply Z.quot_div_nonneg; lia.
Qed.

Lemma py_int_small (q : Q) : (0 <= q)%Q -> (q < 1)%Q -> py_int q = 0.
Proof.
  intros H0 H1. rewrite (py_int_floor q H0).
  pose proof (Qfloor_le q) as Hle. pose proof (Qlt_floor q) as Hlt.
  assert (A : (inject_Z (Qfloor q) < inject_Z 1)%Q) by (change (inject_Z 1) with 1%Q; lra).
  assert (B : (inject_Z (-1) < inject_Z (Qfloor q))%Q).
  { rewrite inject_Z_plus in Hlt. change (inject_Z 1) with 1%Q in Hlt.
    change (inject_Z (-1)) with (-1 # 1)%Q. lra. }
  rewrite <- Zlt_Qlt in A, B. lia.
Qed.

Lemma Qmax_0_nonneg (q : Q) : (0 <= Qmax q 0)%Q.
Proof. apply Q.le_max_r. Qed.

Lemma Qmax_0_ge (q : Q) : (q <= Qmax q 0)%Q.
Proof. apply Q.le_max_l. Qed.

Lemma Qmax_0_lt (q b : Q) : (q < b)%Q -> (0 < b)%Q -> (Qmax q 0 < b)%Q.
Proof.
  intros H1 H2. destruct (Q.max_spec q 0%Q) as [[_ E] | [_ E]]; rewrite E; assumption.
Qed.

Lemma admissible_compat (val : list Z) (L L' : Q) :
  L == L' -> admissible val L = admissible val L'.
Proof.
  intros E. unfold admissible.
  rewrite (filter_ext (fun v => Qle_bool L (inject_Z v)) (fun v => Qle_bool L' (inject_Z v)));
    [reflexivity|].
  intros v. destruct (Qle_bool L' (inject_Z v)) eqn:H.
  - apply Qle_bool_iff. apply Qle_bool_iff in H. rewrite E. exact H.
  - destruct (Qle_bool L (inject_Z v)) eqn:H'; [|reflexivity].
    apply Qle_bool_iff in H'. rewrite E in H'. apply Qle_bool_iff in H'. congruence.
Qed.

Lemma Qle_bool_false (x y : Q) : Qle_bool x y = false <-> (y < x)%Q.
Proof.
  split.
  - intros H. apply Qnot_le_lt. intros Hle. apply Qle_bool_iff in Hle. congruence.
  - intros H. destruct (Qle_bool x y) eqn:E; [|reflexivity].
    apply Qle_bool_iff in E. lra.
Qed.

(** Filling the missing bonds leaves nothing missing: with [x] the result of
    [bonds_missing] at load [L], the same valence is admissible at load
    [L + x], and nothing is missing there. *)
Lemma missing_after_fill (val : list Z) (L L' : Q) (v0 : Z) :
  StronglySorted Z.lt val ->
  nth_error (admissible val L) 0 = Some v0 ->
  L' == (L + inject_Z (py_int (Qmax (inject_Z v0 - L) 0)))%Q ->
  nth_error (admissible val L') 0 = Some v0 /\
  py_int (Qmax (inject_Z v0 - L') 0%Q) = 0.
Proof.
  intros Hs Hv0 HL'.
  set (M := Qmax (inject_Z v0 - L) 0%Q) in *.
  assert (HM0 : (0 <= M)%Q) by apply Qmax_0_nonneg.
  assert (HMd : (inject_Z v0 - L <= M)%Q) by apply Qmax_0_ge.
  rewrite (py_int_floor M HM0) in HL'.
  pose proof (Qfloor_le M) as Hfl. pose proof (Qlt_floor M) as Hfu.
  rewrite inject_Z_plus in Hfu. change (inject_Z 1) with 1%Q in Hfu.
  assert (Hx0 : (0 <= inject_Z (Qfloor M))%Q).
  { change 0%Q with (inject_Z 0). rewrite <- Zle_Qle.
    change 0%Z with (Qfloor 0%Q). apply Qfloor_resp_le. exact HM0. }
  split.
  - assert (E : admissible val L' = admissible val L); [|rewrite E; exact Hv0].
    unfold admissible in *.
    pose proof (filter_StronglySorted (fun v => Qle_bool L (inject_Z v)) val Hs) as Hfs.
    assert (Hf : filter (fun v => Qle_bool L' (inject_Z v)) val
                 = filter (fun v => Qle_bool L (inject_Z v)) val); [|rewrite Hf; reflexivity].
    apply filter_ext_in. intros v Hv.
    destruct (Qle_bool L (inject_Z v)) eqn:Hlv.
    + apply Qle_bool_iff. apply Qle_bool_iff in Hlv.
      assert (Hin : In v (filter (fun v => Qle_bool L (inject_Z v)) val))
        by (apply filter_In; split; [exact Hv | apply Qle_bool_iff; exact Hlv]).
      destruct (filter (fun v => Qle_bool L (inject_Z v)) val) as [|w rest] eqn:Ef;
        [destruct Hin|].
      cbn [nth_error] in Hv0. inversion Hv0; subst w.
      assert (Hw : In v0 (filter (fun v => Qle_bool L (inject_Z v)) val))
        by (rewrite Ef; left; reflexivity).
      apply filter_In in Hw. destruct Hw as [_ Hw]. apply Qle_bool_iff in Hw.
      assert (Hd : M == (inject_Z v0 - L)%Q).
      { unfold M. destruct (Q.max_spec (inject_Z v0 - L)%Q 0%Q) as [[Hlt _] | [_ E]];
          [lra | rewrite E; reflexivity]. }
      assert (Hvv : (inject_Z v0 <= inject_Z v)%Q).
      { rewrite <- Zle_Qle. inversion Hfs as [|? ? _ Hall]; subst.
        destruct Hin as [<- | Hin]; [lia|].
        rewrite Forall_forall in Hall. specialize (Hall v Hin). lia. }
      lra.
    + apply Qle_bool_false. apply Qle_bool_false in Hlv. lra.
  - apply py_int_small; [apply Qmax_0_nonneg|].
    apply Qmax_0_lt; lra.
Qed.

(** ** fill_valence: what it stores, and that it saturates *)

Lemma valence_set_hcount (h : option Z) (a : atom) :
  valence (set_hcount h a) = valence a.
Proof. reflexivity. Qed.

Lemma node_attrs_update_same (k : node) (f : atom -> atom) (m : mol) :
  node_attrs (update_node k f m) k = option_map f (node_attrs m k).
Proof. unfold node_attrs, update_node. cbn [nodes]. apply lookup_update_same. Qed.

Lemma node_attrs_update_other (k n : node) (f : atom -> atom) (m : mol) :
  n <> k -> node_attrs (update_node k f m) n = node_attrs m n.
Proof.
  intros H. unfold node_attrs, update_node. cbn [nodes].
  apply lookup_update_other. exact H.
Qed.

Lemma bonds_missing_update_other (k n : node) (f : atom -> atom) (m : mol)
  (use_order : bool) :
  n <> k -> bonds_missing (update_node k f m) n use_order = bonds_missing m n use_order.
Proof.
  intros H. unfold bonds_missing. rewrite (node_attrs_update_other k n f m H).
  reflexivity.
Qed.

Lemma bonds_missing_nonneg (m : mol) (n : node) (use_order : bool) (x : Z) :
  bonds_missing m n use_order = Ok x -> 0 <= x.
Proof.
  unfold bonds_missing.
  destruct (node_attrs m n) as [a|]; cbn [of_option bind]; [|discriminate].
  destruct (valence a) as [val|]; cbn [bind]; [|discriminate].
  destruct (nth_error _ 0) as [v0|]; cbn [of_option bind]; [|discriminate].
  intros H. inversion H. apply py_int_Qmax_nonneg.
Qed.

(** The step of [fill_valence] on a node it fills. *)
Lemma fill_valence_node_fills (rh : bool) (n : node) (m : mol) (a : atom) (x : Z) :
  node_attrs m n = Some a -> is_some (hcount a) && rh = false ->
  bonds_missing m n true = Ok x ->
  fill_valence_node rh n m = (update_node n (add_hcount x) m, Ok tt).
Proof.
  intros Ha Hh Hx. unfold fill_valence_node. rewrite Ha, Hh, Hx. reflexivity.
Qed.

Lemma bonds_missing_after_fill (n : node) (m : mol) (a : atom) (x : Z) :
  node_attrs m n = Some a -> bonds_missing m n true = Ok x ->
  bonds_missing (update_node n (add_hcount x) m) n true = Ok 0.
Proof.
  intros Ha Hx. pose proof (bonds_missing_nonneg m n true x Hx) as Hx0.
  unfold bonds_missing in *. rewrite node_attrs_update_same, Ha in *.
  cbn [option_map of_option bind] in *.
  change (valence (add_hcount x a)) with (valence a).
  destruct (valence a) as [val|] eqn:Hv; cbn [bind] in *; [|discriminate].
  change (_bonds (update_node n (add_hcount x) m) n true) with (_bonds m n true).
  change (hcount (add_hcount x a)) with (Some (get (hcount a) 0 + Z.max x 0)).
  cbn [get].
  set (L := (_bonds m n true + inject_Z (get (hcount a) 0%Z))%Q) in *.
  destruct (nth_error (admissible val L) 0) as [v0|] eqn:Hv0;
    cbn [of_option bind] in Hx; [|discriminate].
  injection Hx as Ex.
  destruct (missing_after_fill val L
              (_bonds m n true + inject_Z (get (hcount a) 0 + Z.max x 0)%Z)%Q v0
              (valence_sorted a val Hv) Hv0) as [H1 H2].
  - rewrite Ex, Z.max_l by lia. rewrite inject_Z_plus. unfold L. ring.
  - rewrite H1. cbn [of_option bind]. rewrite H2. reflexivity.
Qed.

(** One step of the loop of [fill_valence] keeps "nothing is missing on
    [n]". *)
Lemma fill_valence_node_keeps_saturated (rh : bool) (k n : node) (m m' : mol) :
  fill_valence_node rh k m = (m', Ok tt) ->
  bonds_missing m n true = Ok 0 -> bonds_missing m' n true = Ok 0.
Proof.
  unfold fill_valence_node.
  destruct (node_attrs m k) as [a|] eqn:Ha; [|discriminate].
  destruct (is_some (hcount a) && rh); [intros H; inversion H; subst; auto|].
  destruct (bonds_missing m k true) as [x|] eqn:Hx; [|discriminate].
  intros H Hn. inversion H; subst m'. fold (add_hcount x).
  destruct (Z.eq_dec n k) as [->|Hne].
  - apply (bonds_missing_after_fill k m a x Ha Hx).
  - rewrite bonds_missing_update_other by exact Hne. exact Hn.
Qed.

Lemma fill_valence_loop_keeps_saturated (rh : bool) (ks : list node) (n : node)
  (m m' : mol) :
  for_each ks (fill_valence_node rh) m = (m', Ok tt) ->
  bonds_missing m n true = Ok 0 -> bonds_missing m' n true = Ok 0.
Proof.
  revert m. induction ks as [|k ks IH]; intros m; cbn [for_each].
  - intros H; inversion H; subst; auto.
  - destruct (fill_valence_node rh k m) as [m1 [[]|e]] eqn:Hk; [|discriminate].
    intros Hrest Hn. apply (IH m1 Hrest).
    apply (fill_valence_node_keeps_saturated rh k n m m1 Hk Hn).
Qed.

Lemma fill_valence_loop_saturates (rh : bool) (ks : list node) (n : node)
  (m m' : mol) (a : atom) :
  for_each ks (fill_valence_node rh) m = (m', Ok tt) ->
  In n ks -> node_attrs m n = Some a -> is_some (hcount a) && rh = false ->
  bonds_missing m' n true = Ok 0.
Proof.
  revert m. induction ks as [|k ks IH]; intros m; cbn [for_each In]; [tauto|].
  destruct (fill_valence_node rh k m) as [m1 [[]|e]] eqn:Hk; [|discriminate].
  intros Hrest Hin Ha Hh.
  destruct (Z.eq_dec k n) as [->|Hne].
  - apply (fill_valence_loop_keeps_saturated rh ks n m1 m' Hrest).
    unfold fill_valence_node in Hk. rewrite Ha, Hh in Hk.
    destruct (bonds_missing m n true) as [x|] eqn:Hx; [|discriminate].
    inversion Hk; subst m1. apply (bonds_missing_after_fill n m a x Ha Hx).
  - destruct Hin as [E | Hin]; [contradiction|].
    apply (IH m1 Hrest Hin); [|exact Hh].
    unfold fill_valence_node in Hk.
    destruct (node_attrs m k) as [ak|]; [|discriminate].
    destruct (is_some (hcount ak) && rh); [inversion Hk; subst; exact Ha|].
    destruct (bonds_missing m k true); [|discriminate].
    inversion Hk; subst m1. rewrite node_attrs_update_other; auto.
Qed.

Lemma node_attrs_in_keys (m : mol) (n : node) (a : atom) :
  node_attrs m n = Some a -> In n (map fst (nodes m)).
Proof.
  intros H. apply lookup_Some_In in H. apply in_map_iff. exists (n, a). auto.
Qed.

(** X1: when [fill_valence] keeps the bond orders and returns, every atom it
    has filled (every atom when [respect_hcount] is false, every atom that
    had no [hcount] otherwise) is saturated: [bonds_missing] is 0 on it in
    the resulting graph, bonds of order 1.5 included. *)
Theorem fill_valence_saturates (respect_hcount : bool) (max_bond_order : Q)
  (m m' : mol) (n : node) (a : atom) :
  fill_valence respect_hcount true max_bond_order m = (m', Ok tt) ->
  node_attrs m n = Some a ->
  respect_hcount = false \/ hcount a = None ->
  bonds_missing m' n true = Ok 0.
Proof.
  unfold fill_valence. cbn [negb]. intros Hrun Ha Hh.
  apply (fill_valence_loop_saturates respect_hcount _ n m m' a Hrun).
  - exact (node_attrs_in_keys m n a Ha).
  - exact Ha.
  - destruct Hh as [-> | ->]; [apply andb_false_r | reflexivity].
Qed.

Lemma fill_valence_saturates_witness :
  bonds_missing (fst (fill_valence_default aromatic_pair)) 0 true = Ok 0.
Proof.
  apply (fill_valence_saturates true 3 aromatic_pair _ 0 aromatic_carbon).
  - reflexivity.
  - reflexivity.
  - right. reflexivity.
Defined.

Lemma add_hcount_absent (x : Z) (a : atom) :
  hcount a = None -> 0 <= x -> add_hcount x a = set_hcount (Some x) a.
Proof.
  intros Hh Hx. unfold add_hcount. rewrite Hh. cbn [get].
  rewrite Z.max_l by lia. reflexivity.
Qed.

Lemma fill_valence_loop_result (ks : list node) (m m' : mol) :
  for_each ks (fill_valence_node true) m = (m', Ok tt) ->
  edges m' = edges m /\
  forall n a, node_attrs m n = Some a ->
    (is_some (hcount a) = true -> node_attrs m' n = Some a) /\
    (hcount a = None -> In n ks ->
     exists x, bonds_missing m n true = Ok x /\
               node_attrs m' n = Some (set_hcount (Some x) a)) /\
    (hcount a = None -> ~ In n ks -> node_attrs m' n = Some a).
Proof.
  revert m. induction ks as [|k ks IH]; intros m; cbn [for_each].
  - intros H. inversion H; subst. split; [reflexivity|].
    intros n a Ha. repeat split; auto. intros _ [].
  - destruct (fill_valence_node true k m) as [m1 [[]|e]] eqn:Hk; [|discriminate].
    intros Hrest. destruct (IH m1 Hrest) as [He IHn]. clear IH.
    unfold fill_valence_node in Hk.
    destruct (node_attrs m k) as [ak|] eqn:Hak; [|discriminate].
    destruct (is_some (hcount ak)) eqn:Hhk; cbn [andb] in Hk.
    + inversion Hk; subst m1. split; [exact He|].
      intros n a Ha. destruct (IHn n a Ha) as (I1 & I2 & I3).
      repeat split; auto.
      * intros Hn [-> | Hin]; [|auto]. rewrite Ha in Hak. inversion Hak; subst.
        rewrite Hn in Hhk. discriminate.
      * intros Hn Hnot. apply I3; auto. intros Hin. apply Hnot. right. exact Hin.
    + destruct (bonds_missing m k true) as [x|] eqn:Hx; [|discriminate].
      inversion Hk; subst m1. fold (add_hcount x) in *.
      split; [rewrite He; reflexivity|].
      intros n a Ha. destruct (Z.eq_dec n k) as [->|Hne].
      * rewrite Ha in Hak. inversion Hak; subst ak.
        assert (Hh : hcount a = None) by (destruct (hcount a); [discriminate | reflexivity]).
        assert (Ha1 : node_attrs (update_node k (add_hcount x) m) k
                      = Some (set_hcount (Some x) a)).
        { rewrite node_attrs_update_same, Ha. cbn [option_map].
          rewrite (add_hcount_absent x a Hh (bonds_missing_nonneg m k true x Hx)).
          reflexivity. }
        destruct (IHn k _ Ha1) as (I1 & _ & _).
        repeat split.
        -- intros Hs. rewrite Hh in Hs. discriminate.
        -- intros _ _. exists x. split; [exact Hx | apply I1; reflexivity].
        -- intros _ Hnot. exfalso. apply Hnot. left. reflexivity.
      * assert (Ha1 : node_attrs (update_node k (add_hcount x) m) n = Some a)
          by (rewrite node_attrs_update_other; auto).
        destruct (IHn n a Ha1) as (I1 & I2 & I3).
        repeat split; auto.
        -- intros Hh [E | Hin]; [congruence|].
           destruct (I2 Hh Hin) as [y [Hy Hy']]. exists y. split; [|exact Hy'].
           rewrite bonds_missing_update_other in Hy; auto.
        -- intros Hh Hnot. apply I3; auto. intros Hin. apply Hnot. right. exact Hin.
Qed.

(** X2: when [fill_valence] with its default flags returns, the edges are
    untouched, an atom that had an [hcount] keeps all its attributes, and an
    atom that had none receives as [hcount] the value of [bonds_missing] on
    the original graph, whatever the order in which the atoms were
    visited; its other attributes are unchanged. *)
Theorem fill_valence_stores_bonds_missing (max_bond_order : Q) (m m' : mol)
  (n : node) (a : atom) :
  fill_valence true true max_bond_order m = (m', Ok tt) ->
  node_attrs m n = Some a ->
  edges m' = edges m /\
  (is_some (hcount a) = true -> node_attrs m' n = Some a) /\
  (hcount a = None ->
   exists x, bonds_missing m n true = Ok x /\
             node_attrs m' n = Some (set_hcount (Some x) a)).
Proof.
  unfold fill_valence. cbn [negb]. intros Hrun Ha.
  destruct (fill_valence_loop_result _ m m' Hrun) as [He Hn].
  destruct (Hn n a Ha) as (I1 & I2 & _).
  repeat split; auto. intros Hh. apply I2; [exact Hh|].
  exact (node_attrs_in_keys m n a Ha).
Qed.

Lemma fill_valence_stores_bonds_missing_witness :
  exists x, bonds_missing propane_chain 1 true = Ok x /\
            node_attrs (fst (fill_valence_default propane_chain)) 1
            = Some (set_hcount (Some x) carbon).
Proof.
  refine (proj2 (proj2 (fill_valence_stores_bonds_missing 3 propane_chain _ 1 carbon
                          _ eq_refl)) eq_refl).
  reflexivity.
Defined.

Lemma bonds_same_edges (m m' : mol) (n : node) (use_order : bool) :
  edges m' = edges m -> _bonds m' n use_order = _bonds m n use_order.
Proof. intros E. unfold _bonds, adj. rewrite E. reflexivity. Qed.

Lemma Qmax_integral (v k : Z) (b : Q) :
  b == inject_Z k -> Qmax (inject_Z v - b) 0%Q == inject_Z (Z.max (v - k) 0).
Proof.
  intros E. rewrite <- Qmax_inject_Z. apply Q.max_compat; [|reflexivity].
  rewrite E. unfold Qminus, Qeq. cbn. lia.
Qed.

Lemma has_default_h_count_filled (max_bond_order : Q) (m m' : mol)
  (n : node) (a : atom) (k : Z) :
  fill_valence true true max_bond_order m = (m', Ok tt) ->
  node_attrs m n = Some a -> hcount a = None ->
  _bonds m n true == inject_Z k ->
  has_default_h_count m' n true = Ok true /\
  exists x, node_attrs m' n = Some (set_hcount (Some x) a).
Proof.
  unfold fill_valence. cbn [negb]. intros Hrun Ha Hh Hk.
  destruct (fill_valence_loop_result _ m m' Hrun) as [He Hn].
  destruct (Hn n a Ha) as (_ & I2 & _).
  destruct (I2 Hh (node_attrs_in_keys m n a Ha)) as [x [Hx Ha']].
  split; [|exists x; exact Ha'].
  unfold has_default_h_count. rewrite Ha'. cbn [of_option bind].
  change (valence (set_hcount (Some x) a)) with (valence a).
  rewrite (bonds_same_edges m m' n true He).
  unfold bonds_missing in Hx. rewrite Ha in Hx. cbn [of_option bind] in Hx.
  rewrite Hh in Hx. cbn [get] in Hx.
  destruct (valence a) as [val|]; cbn [bind] in *; [|discriminate].
  rewrite (admissible_compat val (_bonds m n true + inject_Z 0)%Q (_bonds m n true)) in Hx
    by ring.
  destruct (nth_error (admissible val (_bonds m n true)) 0) as [v0|];
    cbn [of_option bind] in *; [|discriminate].
  injection Hx as Ex. f_equal. cbn [hcount set_hcount get].
  apply Qeq_bool_iff. rewrite (Qmax_integral v0 k (_bonds m n true) Hk).
  rewrite <- Ex. rewrite (py_int_integral _ (Z.max (v0 - k) 0)); [reflexivity|].
  apply Qmax_integral. rewrite Hk. ring.
Qed.

(** X3: an atom that had no [hcount] and whose bond orders sum to an
    integer has its default hydrogen count after [fill_valence] with the
    default flags: [has_default_h_count] returns [True] on it. *)
Theorem has_default_h_count_after_fill_valence (max_bond_order : Q) (m m' : mol)
  (n : node) (a : atom) (k : Z) :
  fill_valence true true max_bond_order m = (m', Ok tt) ->
  node_attrs m n = Some a -> hcount a = None ->
  _bonds m n true == inject_Z k ->
  has_default_h_count m' n true = Ok true.
Proof.
  intros Hrun Ha Hh Hk.
  exact (proj1 (has_default_h_count_filled max_bond_order m m' n a k Hrun Ha Hh Hk)).
Qed.

Lemma has_default_h_count_after_fill_valence_witness :
  has_default_h_count (fst (fill_valence_default propane_chain)) 1 true = Ok true.
Proof.
  apply (has_default_h_count_after_fill_valence 3 propane_chain _ 1 carbon 2).
  - reflexivity.
  - reflexivity.
  - reflexivity.
  - reflexivity.
Defined.

Lemma admissible_nonempty (val : list Z) (L : Q) :
  exists v0, nth_error (admissible val L) 0 = Some v0.
Proof.
  unfold admissible. destruct (filter _ val) as [|v l]; eexists; reflexivity.
Qed.

Lemma bonds_missing_returns (m : mol) (n : node) (use_order : bool) (a : atom)
  (val : list Z) :
  node_attrs m n = Some a -> valence a = Ok val ->
  exists x, bonds_missing m n use_order = Ok x.
Proof.
  intros Ha Hv. unfold bonds_missing. rewrite Ha. cbn [of_option bind].
  rewrite Hv. cbn [bind].
  destruct (admissible_nonempty val
              (_bonds m n use_order + inject_Z (get (hcount a) 0%Z))%Q) as [v0 Hv0].
  rewrite Hv0. cbn [of_option bind]. eexists. reflexivity.
Qed.

Lemma bonds_missing_valence (m : mol) (n : node) (use_order : bool) (a : atom) (x : Z) :
  node_attrs m n = Some a -> bonds_missing m n use_order = Ok x ->
  exists val, valence a = Ok val.
Proof.
  intros Ha. unfold bonds_missing. rewrite Ha. cbn [of_option bind].
  destruct (valence a) as [val|]; cbn [bind]; [eauto | discriminate].
Qed.

Lemma fill_valence_loop_returns (ks : list node) (m : mol) :
  (forall k, In k ks -> exists a, node_attrs m k = Some a) ->
  (forall n a, node_attrs m n = Some a -> hcount a = None ->
               exists val, valence a = Ok val) ->
  snd (for_each ks (fill_valence_node true) m) = Ok tt.
Proof.
  revert m. induction ks as [|k ks IH]; intros m Hin Hval; cbn [for_each];
    [reflexivity|].
  destruct (Hin k (or_introl eq_refl)) as [ak Hak].
  unfold fill_valence_node at 1. rewrite Hak.
  destruct (hcount ak) as [h|] eqn:Hh; cbn [is_some andb].
  - apply IH; auto. intros j Hj. apply Hin. right. exact Hj.
  - destruct (Hval k ak Hak Hh) as [val Hv].
    destruct (bonds_missing_returns m k true ak val Hak Hv) as [x Hx].
    rewrite Hx. apply IH.
    + intros j Hj. destruct (Z.eq_dec j k) as [->|Hne].
      * rewrite node_attrs_update_same, Hak. eexists. reflexivity.
      * rewrite node_attrs_update_other by exact Hne. apply Hin. right. exact Hj.
    + intros n a Ha Hn. destruct (Z.eq_dec n k) as [->|Hne].
      * rewrite node_attrs_update_same, Hak in Ha. cbn [option_map] in Ha.
        inversion Ha; subst a. discriminate.
      * rewrite node_attrs_update_other in Ha by exact Hne. eauto.
Qed.

(** X4: with its default flags [fill_valence] returns exactly when
    [valence] returns for every atom that has no [hcount]; it raises no
    error of its own. *)
Theorem fill_valence_returns_iff (max_bond_order : Q) (m : mol) :
  snd (fill_valence true true max_bond_order m) = Ok tt <->
  forall n a, node_attrs m n = Some a -> hcount a = None ->
              exists val, valence a = Ok val.
Proof.
  unfold fill_valence. cbn [negb]. split.
  - destruct (for_each (map fst (nodes m)) (fill_valence_node true) m) as [m' r] eqn:Hrun.
    cbn [snd]. intros ->. intros n a Ha Hh.
    destruct (fill_valence_loop_result _ m m' Hrun) as [_ Hn].
    destruct (Hn n a Ha) as (_ & I2 & _).
    destruct (I2 Hh (node_attrs_in_keys m n a Ha)) as [x [Hx _]].
    exact (bonds_missing_valence m n true a x Ha Hx).
  - intros Hval. apply fill_valence_loop_returns; [|exact Hval].
    intros k Hk. apply lookup_in_keys. exact Hk.
Qed.

(** ** Reading decimal literals *)

Lemma code_points_ascii (c : ascii) (s : string) :
  byte c < 128 -> code_points (String c s) = byte c :: code_points s.
Proof.
  intros H. unfold code_points. cbn [decode]. cbv zeta.
  destruct (Z.ltb_spec (byte c) 128); [reflexivity | lia].
Qed.

Lemma int_char_of_ascii_digit (d : Z) :
  0 <= d <= 9 -> int_char_of (48 + d) = Digit d.
Proof.
  intros H.
  assert (E : d = 0 \/ d = 1 \/ d = 2 \/ d = 3 \/ d = 4 \/ d = 5 \/ d = 6 \/ d = 7
              \/ d = 8 \/ d = 9) by lia.
  repeat (destruct E as [-> | E]; [reflexivity|]). subst d. reflexivity.
Qed.

Lemma scan_digits_all (ds : list Z) (b : bool) (acc : list Z) :
  ds <> [] \/ b = false ->
  scan_digits (map Digit ds) b acc = Some (rev acc ++ ds, []).
Proof.
  revert b acc. induction ds as [|d ds IH]; intros b acc H; cbn [map scan_digits].
  - destruct H as [H | ->]; [congruence|]. rewrite app_nil_r. reflexivity.
  - rewrite IH by (right; reflexivity). cbn [rev]. rewrite <- app_assoc. reflexivity.
Qed.

(** [int] on a literal made of digits only. *)
Lemma int_of_digits (cps ds : list Z) :
  map int_char_of cps = map Digit ds -> ds <> [] ->
  int_of_code_points cps
  = if int_max_str_digits <? Z.of_nat (length ds)
    then Raise ValueError
    else Ok (decimal_value ds).
Proof.
  intros E Hne. unfold int_of_code_points. rewrite E.
  destruct ds as [|d ds]; [congruence|]. cbn [map skip_blanks].
  change (Digit d :: map Digit ds) with (map Digit (d :: ds)).
  rewrite scan_digits_all by (left; discriminate). cbn [rev app skip_blanks].
  destruct (int_max_str_digits <? Z.of_nat (length (d :: ds))); [reflexivity|].
  f_equal. destruct (decimal_value (d :: ds)); reflexivity.
Qed.

Lemma int_of_code_points_raises (cps : list Z) (e : exn) :
  int_of_code_points cps = Raise e -> e = ValueError.
Proof.
  unfold int_of_code_points.
  destruct (match skip_blanks (map int_char_of cps) with
            | Plus :: l' => (1, l')
            | Minus :: l' => (-1, l')
            | _ => (1, skip_blanks (map int_char_of cps))
            end) as [sign l].
  destruct (scan_digits l true []) as [[digits rest]|]; [|intros H; inversion H; reflexivity].
  destruct (skip_blanks rest); [|intros H; inversion H; reflexivity].
  destruct (int_max_str_digits <? Z.of_nat (length digits)); intros H; inversion H.
  reflexivity.
Qed.

Lemma code_points_uint (u : Decimal.uint) :
  code_points (NilEmpty.string_of_uint u) = map (Z.add 48) (uint_digits u).
Proof.
  induction u; cbn [NilEmpty.string_of_uint uint_digits map]; [reflexivity|..];
    rewrite code_points_ascii by (vm_compute; reflexivity); rewrite IHu; reflexivity.
Qed.

Lemma uint_digits_range (u : Decimal.uint) :
  Forall (fun d => 0 <= d <= 9) (uint_digits u).
Proof. induction u; cbn [uint_digits]; constructor; auto; lia. Qed.

Lemma length_uint_digits (u : Decimal.uint) :
  length (uint_digits u) = Decimal.nb_digits u.
Proof. induction u; cbn [uint_digits length Decimal.nb_digits]; congruence. Qed.

Lemma ascii_digits_tokens (ds : list Z) :
  Forall (fun d => 0 <= d <= 9) ds ->
  map int_char_of (map (Z.add 48) ds) = map Digit ds.
Proof.
  induction 1 as [|d ds Hd _ IH]; cbn [map]; [reflexivity|].
  rewrite (int_char_of_ascii_digit d Hd), IH. reflexivity.
Qed.

Lemma decimal_value_acc (u : Decimal.uint) (a : positive) :
  fold_left (fun acc d => 10 * acc + d) (uint_digits u) (Z.pos a)
  = Z.pos (Pos.of_uint_acc u a).
Proof.
  revert a. induction u; intros a; cbn [uint_digits fold_left Pos.of_uint_acc];
    try reflexivity;
    match goal with
    | |- fold_left _ _ ?z = Z.pos (Pos.of_uint_acc _ ?p) =>
        replace z with (Z.pos p) by lia
    end; apply IHu.
Qed.

Lemma decimal_value_uint (u : Decimal.uint) :
  decimal_value (uint_digits u) = Z.of_N (Pos.of_uint u).
Proof.
  unfold decimal_value.
  induction u; cbn [uint_digits fold_left Pos.of_uint]; try reflexivity;
    [exact IHu | apply decimal_value_acc ..].
Qed.

(** [int(str(p))] is [p] for a positive integer [p] that [str] accepts, and
    [str(p)] starts with a digit. *)
Lemma int_of_py_str (p : positive) (s : string) :
  py_str (Z.pos p) = Ok s ->
  int_of_string s = Ok (Z.pos p) /\
  exists d rest, code_points s = d :: rest /\ isdigit d = true.
Proof.
  unfold py_str. cbn [Z.to_int NilZero.string_of_int].
  destruct (int_max_str_digits <? Z.of_nat (Decimal.nb_digits (Pos.to_uint p))) eqn:L;
    [discriminate|].
  intros H; inversion H; subst s; clear H.
  pose proof (DecimalPos.Unsigned.to_uint_nonnil p) as Hnn.
  assert (E : NilZero.string_of_uint (Pos.to_uint p)
              = NilEmpty.string_of_uint (Pos.to_uint p)).
  { unfold NilZero.string_of_uint. destruct (Pos.to_uint p); congruence. }
  rewrite E. unfold int_of_string. rewrite code_points_uint. split.
  - rewrite (int_of_digits _ (uint_digits (Pos.to_uint p))).
    + rewrite length_uint_digits, L, decimal_value_uint, DecimalPos.Unsigned.of_to.
      reflexivity.
    + apply ascii_digits_tokens, uint_digits_range.
    + destruct (Pos.to_uint p); cbn [uint_digits]; congruence.
  - destruct (Pos.to_uint p); [congruence|..]; cbn [uint_digits map];
      eexists; eexists; (split; [reflexivity|]); reflexivity.
Qed.

(** [str] accepts the integers of at most [int_max_str_digits] digits. *)
Lemma to_uint_unorm (p : positive) : Decimal.unorm (Pos.to_uint p) = Pos.to_uint p.
Proof.
  rewrite <- (DecimalN.Unsigned.to_of (Pos.to_uint p)).
  change (N.of_uint (Pos.to_uint p)) with (Pos.of_uint (Pos.to_uint p)).
  rewrite DecimalPos.Unsigned.of_to. reflexivity.
Qed.

Lemma decimal_value_lower (ds : list Z) (acc : Z) :
  Forall (fun d => 0 <= d <= 9) ds -> 0 <= acc ->
  acc * 10 ^ Z.of_nat (length ds) <= fold_left (fun a d => 10 * a + d) ds acc.
Proof.
  intros H. revert acc. induction H as [|d ds Hd _ IH]; intros acc Hacc;
    cbn [fold_left length].
  - rewrite Z.pow_0_r. lia.
  - rewrite Nat2Z.inj_succ, Z.pow_succ_r by lia.
    specialize (IH (10 * acc + d) ltac:(lia)).
    assert (0 <= 10 ^ Z.of_nat (length ds)) by (apply Z.pow_nonneg; lia). nia.
Qed.

Lemma nb_digits_bound (p : positive) :
  Z.pos p < 10 ^ int_max_str_digits ->
  Z.of_nat (Decimal.nb_digits (Pos.to_uint p)) <= int_max_str_digits.
Proof.
  intros Hp.
  pose proof (DecimalPos.Unsigned.of_to p) as Hof.
  pose proof (decimal_value_uint (Pos.to_uint p)) as Hval. rewrite Hof in Hval.
  pose proof (to_uint_unorm p) as Hun.
  pose proof (DecimalPos.Unsigned.to_uint_nonzero p) as Hnz.
  pose proof (uint_digits_range (Pos.to_uint p)) as Hr.
  rewrite <- length_uint_digits.
  assert (Hhead : exists d ds, uint_digits (Pos.to_uint p) = d :: ds /\ 1 <= d).
  { destruct (Pos.to_uint p) as [|u|u|u|u|u|u|u|u|u|u] eqn:E;
      try (cbn [uint_digits]; eexists; eexists; split; [reflexivity | lia]).
    - exfalso. exact (DecimalPos.Unsigned.to_uint_nonnil p E).
    - exfalso. rewrite DecimalFacts.unorm_D0 in Hun.
      destruct u as [|u|u|u|u|u|u|u|u|u|u]; [congruence|..];
        match goal with
        | H : Decimal.unorm ?v = Decimal.D0 ?v |- _ =>
            pose proof (DecimalFacts.nb_digits_unorm v ltac:(discriminate)) as Hle;
            rewrite H in Hle; cbn [Decimal.nb_digits] in Hle; lia
        end. }
  destruct Hhead as (d & ds & Eds & Hd). rewrite Eds in *.
  inversion Hr as [|? ? Hd9 Hrest]; subst.
  unfold decimal_value in Hval. cbn [fold_left] in Hval.
  pose proof (decimal_value_lower ds (10 * 0 + d) Hrest ltac:(lia)) as Hlow.
  rewrite Hval in Hlow. cbn [length]. rewrite Nat2Z.inj_succ.
  destruct (Z_le_gt_dec (Z.succ (Z.of_nat (length ds))) int_max_str_digits) as [Hle|Hgt];
    [exact Hle|exfalso].
  assert (Hpow : 10 ^ int_max_str_digits <= 10 ^ Z.of_nat (length ds))
    by (apply Z.pow_le_mono_r; lia).
  assert (0 < 10 ^ Z.of_nat (length ds)) by (apply Z.pow_pos_nonneg; lia).
  nia.
Qed.

Lemma py_str_returns (z : Z) :
  Z.abs z < 10 ^ int_max_str_digits -> exists s, py_str z = Ok s.
Proof.
  intros Hz. unfold py_str. destruct z as [|p|p]; cbn [Z.to_int].
  - eexists. reflexivity.
  - pose proof (nb_digits_bound p Hz) as Hb.
    destruct (Z.ltb_spec int_max_str_digits (Z.of_nat (Decimal.nb_digits (Pos.to_uint p))));
      [lia|]. eexists. reflexivity.
  - pose proof (nb_digits_bound p Hz) as Hb.
    destruct (Z.ltb_spec int_max_str_digits (Z.of_nat (Decimal.nb_digits (Pos.to_uint p))));
      [lia|]. eexists. reflexivity.
Qed.

(** ** Writing and reading hydrogen counts and charges *)

Lemma parse_charge_reads_chargestr (c : Z) (s : string) :
  chargestr c = Ok s -> parse_charge (Some s) = Ok c.
Proof.
  unfold chargestr.
  destruct (Z.ltb_spec 0 c) as [Hpos|Hnpos].
  - destruct (Z.ltb_spec 1 c) as [H1|H1].
    + destruct c as [|p|p]; try lia.
      destruct (py_str (Z.pos p)) as [s'|] eqn:Hs; cbn [bind]; [|discriminate].
      intros H; inversion H; subst s; clear H.
      destruct (int_of_py_str p s' Hs) as [Hint [d [rest [Hcp Hd]]]].
      unfold parse_charge. cbn [append].
      rewrite code_points_ascii by (vm_compute; reflexivity).
      change (byte "+") with 43. rewrite Hcp.
      change (43 =? 45) with false. change (43 =? 43) with true. cbn [bind].
      rewrite Hd, <- Hcp. fold (int_of_string s'). rewrite Hint. cbn [bind].
      f_equal.
    + replace c with 1 by lia. intros H; inversion H. reflexivity.
  - destruct (Z.ltb_spec c 0) as [Hneg|Hnneg].
    + destruct (Z.ltb_spec c (-1)) as [H1|H1].
      * destruct c as [|p|p]; try lia. cbn [Z.opp].
        destruct (py_str (Z.pos p)) as [s'|] eqn:Hs; cbn [bind]; [|discriminate].
        intros H; inversion H; subst s; clear H.
        destruct (int_of_py_str p s' Hs) as [Hint [d [rest [Hcp Hd]]]].
        unfold parse_charge. cbn [append].
        rewrite code_points_ascii by (vm_compute; reflexivity).
        change (byte "-") with 45. rewrite Hcp.
        change (45 =? 45) with true. cbn [bind].
        rewrite Hd, <- Hcp. fold (int_of_string s'). rewrite Hint. cbn [bind].
        f_equal.
      * replace c with (-1) by lia. intros H; inversion H. reflexivity.
    + replace c with 0 by lia. intros H; inversion H. reflexivity.
Qed.

(** X5: [parse_charge] reads back every charge string that [format_atom]
    builds: whenever the block of [format_atom] that writes the charge [c]
    returns a string, [parse_charge] of this string is [c]; and the block
    returns a string for every [c] of at most [int_max_str_digits] decimal
    digits, the limit of [str] on the size of an integer. *)
Theorem parse_charge_chargestr (c : Z) :
  (forall s, chargestr c = Ok s -> parse_charge (Some s) = Ok c) /\
  (Z.abs c < 10 ^ int_max_str_digits -> exists s, chargestr c = Ok s).
Proof.
  split; [intros s; apply parse_charge_reads_chargestr|].
  intros Hc. unfold chargestr.
  destruct (0 <? c).
  - destruct (1 <? c); [|eexists; reflexivity].
    destruct (py_str_returns c Hc) as [s ->]. eexists. reflexivity.
  - destruct (c <? 0); [|eexists; reflexivity].
    destruct (c <? -1); [|eexists; reflexivity].
    destruct (py_str_returns (- c) ltac:(lia)) as [s ->]. eexists. reflexivity.
Qed.

Lemma parse_charge_chargestr_witness : parse_charge (Some "-12"%string) = Ok (-12).
Proof. apply (proj1 (parse_charge_chargestr (-12)) "-12"%string). reflexivity. Defined.

Lemma parse_hcount_reads_hcountstr (h : Z) (s : string) :
  0 <= h -> hcountstr h = Ok s -> parse_hcount (Some s) = Ok h.
Proof.
  intros Hh. unfold hcountstr.
  destruct (Z.eqb_spec h 0) as [->|Hne]; [intros H; inversion H; reflexivity|].
  cbn [negb].
  destruct (Z.ltb_spec 1 h) as [H1|H1].
  - destruct h as [|p|p]; try lia.
    destruct (py_str (Z.pos p)) as [s'|] eqn:Hs; cbn [bind]; [|discriminate].
    intros H; inversion H; subst s; clear H.
    destruct (int_of_py_str p s' Hs) as [Hint [d [rest [Hcp Hd]]]].
    unfold parse_hcount. cbn [append].
    rewrite code_points_ascii by (vm_compute; reflexivity).
    change (byte "H") with 72. rewrite Hcp.
    change (72 =? 72) with true. cbn [andb]. rewrite <- Hcp. exact Hint.
  - replace h with 1 by lia. intros H; inversion H. reflexivity.
Qed.

(** X6: [parse_hcount] reads back every hydrogen-count string that
    [format_atom] builds for a non-negative count [h], and [format_atom]
    builds one for every [h] of at most [int_max_str_digits] decimal
    digits. *)
Theorem parse_hcount_hcountstr (h : Z) :
  0 <= h ->
  (forall s, hcountstr h = Ok s -> parse_hcount (Some s) = Ok h) /\
  (h < 10 ^ int_max_str_digits -> exists s, hcountstr h = Ok s).
Proof.
  intros Hh. split; [intros s; apply parse_hcount_reads_hcountstr; exact Hh|].
  intros Hlt. unfold hcountstr.
  destruct (negb (h =? 0)); [|eexists; reflexivity].
  destruct (1 <? h); [|eexists; reflexivity].
  destruct (py_str_returns h ltac:(lia)) as [s ->]. eexists. reflexivity.
Qed.

Lemma parse_hcount_hcountstr_witness : parse_hcount (Some "H12"%string) = Ok 12.
Proof.
  apply (proj1 (parse_hcount_hcountstr 12 ltac:(lia)) "H12"%string). reflexivity.
Defined.

(** ** Writing an atom back *)




(** ** parse_atom *)

(** A character that [\d] matches is a digit to [int] and to
    [str.isdigit]. *)
Lemma unicode_decimal_spec (cp d : Z) :
  unicode_decimal cp = Some d ->
  0 <= d <= 9 /\ int_char_of cp = Digit d /\ isdigit cp = true.
Proof.
  unfold unicode_decimal.
  destruct (find (fun zero => (zero <=? cp) && (cp <? zero + 10)) DECIMAL_ZEROS)
    as [z|] eqn:F; [|discriminate].
  cbn [option_map]. intros H; inversion H; subst d; clear H.
  apply find_some in F. destruct F as [Hin Hb].
  apply andb_true_iff in Hb. destruct Hb as [H1 H2].
  apply Z.leb_le in H1. apply Z.ltb_lt in H2.
  split; [lia|].
  unfold DECIMAL_ZEROS in Hin. cbn [In] in Hin.
  repeat (destruct Hin as [<- | Hin];
          [match goal with
           | H : ?z <= cp |- _ =>
               assert (K : cp = z \/ cp = z + 1 \/ cp = z + 2 \/ cp = z + 3
                           \/ cp = z + 4 \/ cp = z + 5 \/ cp = z + 6 \/ cp = z + 7
                           \/ cp = z + 8 \/ cp = z + 9) by lia;
               clear H1 H2;
               repeat (destruct K as [-> | K]; [split; vm_compute; reflexivity|]);
               subst cp; split; vm_compute; reflexivity
           end|]).
  destruct Hin.
Qed.

Lemma decimal_digits_tokens (l : list Z) :
  Forall decimal_digit l ->
  exists ds, map int_char_of l = map Digit ds /\ length ds = length l /\
             Forall (fun d => 0 <= d <= 9) ds.
Proof.
  induction 1 as [|cp l [d Hd] _ (ds & E & Hlen & Hr)].
  - exists []. repeat split; constructor.
  - destruct (unicode_decimal_spec cp d Hd) as (Hd9 & Hc & _).
    exists (d :: ds). cbn [map length]. rewrite Hc, E, Hlen.
    repeat split; constructor; assumption.
Qed.

Lemma decimal_value_nonneg (ds : list Z) :
  Forall (fun d => 0 <= d <= 9) ds -> 0 <= decimal_value ds.
Proof.
  intros H. pose proof (decimal_value_lower ds 0 H (Z.le_refl 0)) as Hl.
  unfold decimal_value. lia.
Qed.

(** [int] on one or two characters that [\d] matches. *)
Lemma int_of_decimal_digits (l : list Z) :
  Forall decimal_digit l -> l <> [] -> (length l <= 2)%nat ->
  exists v, int_of_code_points l = Ok v /\ 0 <= v /\
            (forall cp, l = [cp] -> v <= 9).
Proof.
  intros Hl Hne Hlen. destruct (decimal_digits_tokens l Hl) as (ds & E & Hlen' & Hr).
  assert (Hds : ds <> []) by (destruct ds, l; cbn in *; congruence).
  rewrite (int_of_digits l ds E Hds).
  destruct (Z.ltb_spec int_max_str_digits (Z.of_nat (length ds))) as [Hbig|_].
  - unfold int_max_str_digits in Hbig. lia.
  - eexists. split; [reflexivity|]. split; [apply decimal_value_nonneg; exact Hr|].
    intros cp ->. destruct ds as [|d [|d' ds]]; cbn in Hlen'; try discriminate.
    inversion Hr; subst. unfold decimal_value. cbn [fold_left]. lia.
Qed.

Lemma parse_hcount_group (s : string) :
  hcount_group s -> exists h, parse_hcount (Some s) = Ok h /\ 0 <= h <= 9.
Proof.
  intros (ds & E & Hlen & Hds). unfold parse_hcount. rewrite E.
  change (72 =? 72) with true. cbn [andb].
  destruct ds as [|cp [|cp' ds]]; cbn [length] in Hlen; try lia.
  - exists 1. split; [reflexivity | lia].
  - destruct (int_of_decimal_digits [cp] Hds ltac:(discriminate) ltac:(cbn; lia))
      as (v & -> & Hv0 & Hv9).
    exists v. split; [reflexivity|]. specialize (Hv9 cp eq_refl). lia.
Qed.

Lemma parse_charge_group (s : string) :
  charge_group s -> exists c, parse_charge (Some s) = Ok c.
Proof.
  intros (c & rest & E & Hc & Hrest). unfold parse_charge. rewrite E.
  assert (Hsign : exists sign,
             (if c =? 45 then Ok (-1) else if c =? 43 then Ok 1 else Raise KeyError)
             = Ok sign) by (destruct Hc as [-> | ->]; eexists; reflexivity).
  destruct Hsign as [sign ->]. cbn [bind].
  destruct rest as [|d rest]; [eexists; reflexivity|].
  destruct (isdigit d) eqn:Hd; [|eexists; reflexivity].
  destruct Hrest as [Hr | [Hr | [Hlen Hr]]].
  - inversion Hr; subst. discriminate.
  - inversion Hr; subst. discriminate.
  - destruct (int_of_decimal_digits (d :: rest) Hr ltac:(discriminate) Hlen)
      as (v & -> & _). cbn [bind]. eexists. reflexivity.
Qed.

(** X8: for a pattern whose numeric groups are spelled as [ATOM_PATTERN]
    spells them, [parse_atom] raises nothing but [ValueError], and an atom
    it returns has the keys [charge] and [aromatic], an [hcount] that is
    absent or between 0 and 9, and, when its element is hydrogen, no
    hydrogens of its own. *)
Theorem parse_atom_result (ATOM_PATTERN : string -> option groups) (token : string) :
  (forall t g, ATOM_PATTERN t = Some g -> pattern_groups g) ->
  match parse_atom ATOM_PATTERN token with
  | Raise e => e = ValueError
  | Ok a =>
      is_some (charge a) = true /\ is_some (aromatic a) = true /\
      0 <= get (hcount a) 0 <= 9 /\
      (element_is_H a = true -> get (hcount a) 0 = 0)
  end.
Proof.
  intros Hpat. unfold parse_atom.
  destruct (negb (startswith token "[") && negb (endswith token "]")).
  - destruct (negb (String.eqb token "*")); cbn; repeat split; try lia; auto.
  - unfold parse_atom_match. destruct (ATOM_PATTERN token) as [g|] eqn:Hg; [|reflexivity].
    destruct (Hpat token g Hg) as (Hiso & Hhc & Hch & Hcl).
    assert (Ec : exists c, parse_charge (g_charge g) = Ok c).
    { destruct (g_charge g) as [s|]; [|exists 0; reflexivity].
      exact (parse_charge_group s (Hch s eq_refl)). }
    destruct Ec as [c ->]. cbn [bind].
    assert (Eh : exists h, parse_hcount (g_hcount g) = Ok h /\ 0 <= h <= 9).
    { destruct (g_hcount g) as [s|]; [|exists 0; split; [reflexivity | lia]].
      exact (parse_hcount_group s (Hhc s eq_refl)). }
    destruct Eh as [h [-> Hh]]. cbn [bind].
    assert (Eint : forall o : option string,
               match (match o with
                      | None => Ok None
                      | Some s => n <- int_of_string s ;; Ok (Some n)
                      end) with
               | Raise e => e = ValueError
               | Ok _ => True
               end).
    { intros [s|]; [|exact I]. unfold int_of_string.
      destruct (int_of_code_points (code_points s)) as [v|e] eqn:E; cbn [bind]; [exact I|].
      exact (int_of_code_points_raises _ e E). }
    pose proof (Eint (g_isotope g)) as Ei.
    destruct (match g_isotope g with
              | None => Ok None
              | Some s => n <- int_of_string s ;; Ok (Some n)
              end) as [iso|e]; cbn [bind]; [|exact Ei].
    pose proof (Eint (g_class g)) as Ek.
    destruct (match g_class g with
              | None => Ok None
              | Some s => n <- int_of_string s ;; Ok (Some n)
              end) as [cl|e]; cbn [bind]; [|exact Ek].
    destruct (String.eqb (capitalize (g_element g)) "*") eqn:Estar.
    + cbn [andb]. cbn. repeat split; auto; try lia; try discriminate.
    + destruct (String.eqb (capitalize (g_element g)) "H") eqn:EH.
      * destruct (Z.eqb_spec h 0) as [->|Hne]; cbn [negb andb]; [|reflexivity].
        cbn. repeat split; auto; try lia; try discriminate.
      * cbn [andb]. unfold element_is_H. cbn [element charge aromatic hcount get is_some].
        rewrite EH. repeat split; auto; try lia; try discriminate.
Qed.

Lemma parse_atom_result_witness :
  parse_atom carbanion_pattern "[13CH2-:7]" = Ok carbanion /\
  match parse_atom carbanion_pattern "[13CH2-:7]" with
  | Raise e => e = ValueError
  | Ok a =>
      is_some (charge a) = true /\ is_some (aromatic a) = true /\
      0 <= get (hcount a) 0 <= 9 /\
      (element_is_H a = true -> get (hcount a) 0 = 0)
  end.
Proof.
  split; [vm_compute; reflexivity|].
  apply (parse_atom_result carbanion_pattern "[13CH2-:7]").
  intros t g. unfold carbanion_pattern.
  destruct (String.eqb t "[13CH2-:7]"); [|discriminate].
  intros H; inversion H; subst g; clear H.
  assert (D : forall cp, 48 <= cp <= 57 -> decimal_digit cp).
  { intros cp Hcp. exists (cp - 48).
    assert (K : cp = 48 \/ cp = 49 \/ cp = 50 \/ cp = 51 \/ cp = 52 \/ cp = 53
                \/ cp = 54 \/ cp = 55 \/ cp = 56 \/ cp = 57) by lia.
    repeat (destruct K as [-> | K]; [reflexivity|]). subst cp. reflexivity. }
  refine (conj _ (conj _ (conj _ _))); cbn [g_isotope g_hcount g_charge g_class];
    intros s Hs; inversion Hs; subst s; clear Hs.
  - split; [discriminate|]. change (code_points "13") with [49; 51].
    repeat (apply Forall_cons; [apply D; lia|]). apply Forall_nil.
  - exists [50]. split; [reflexivity|]. split; [cbn; lia|].
    repeat (apply Forall_cons; [apply D; lia|]). apply Forall_nil.
  - exists 45, []. split; [reflexivity|]. split; [left; reflexivity|]. left.
    apply Forall_nil.
  - split; [discriminate|]. change (code_points "7") with [55].
    repeat (apply Forall_cons; [apply D; lia|]). apply Forall_nil.
Defined.

(** [+] followed by an Arabic-Indic digit three (U+0663, the bytes D9 A3 in
    UTF-8) is the charge 3: [str.isdigit] and [int] know the digits of all
    scripts. *)
Example parse_charge_arabic_indic :
  parse_charge
    (Some (String "+" (String (ascii_of_nat 217)
                              (String (ascii_of_nat 163) EmptyString))))
  = Ok 3.
Proof. vm_compute. reflexivity. Qed.

Lemma code_points_replicate (c : ascii) (n : nat) :
  byte c < 128 -> code_points (replicate c n) = repeat (byte c) n.
Proof.
  intros H. induction n as [|n IH]; cbn [replicate repeat]; [reflexivity|].
  rewrite (code_points_ascii c _ H), IH. reflexivity.
Qed.

Lemma count_char_repeat (c : Z) (n : nat) : count_char c (repeat c n) = Z.of_nat n.
Proof.
  induction n as [|n IH]; cbn [repeat count_char]; [reflexivity|].
  rewrite Z.eqb_refl, IH. lia.
Qed.

(** X9: a charge written as a run of signs is read by [parse_charge] as the
    length of the run, positive for [+] and negative for [-]. *)
Theorem parse_charge_repeated_sign (n : nat) :
  parse_charge (Some (replicate "+" (S n))) = Ok (Z.of_nat (S n)) /\
  parse_charge (Some (replicate "-" (S n))) = Ok (- Z.of_nat (S n)).
Proof.
  split.
  - unfold parse_charge.
    rewrite (code_points_replicate "+" (S n)) by (vm_compute; reflexivity).
    change (byte "+") with 43. cbn [repeat].
    change (43 =? 45) with false. change (43 =? 43) with true. cbn [bind].
    assert (E : count_char 43 (43 :: repeat 43 n) = Z.of_nat (S n))
      by apply (count_char_repeat 43 (S n)).
    rewrite E. destruct n as [|n]; cbn [repeat]; [reflexivity|].
    change (isdigit 43) with false. cbv iota.
    destruct (Z.of_nat (S (S n))); reflexivity.
  - unfold parse_charge.
    rewrite (code_points_replicate "-" (S n)) by (vm_compute; reflexivity).
    change (byte "-") with 45. cbn [repeat].
    change (45 =? 45) with true. cbn [bind].
    assert (E : count_char 45 (45 :: repeat 45 n) = Z.of_nat (S n))
      by apply (count_char_repeat 45 (S n)).
    rewrite E. destruct n as [|n]; cbn [repeat]; [reflexivity|].
    change (isdigit 45) with false. cbv iota.
    destruct (Z.of_nat (S (S n))); reflexivity.
Qed.


(** ** _prune_nodes *)

Lemma eligible_nodes_spec (m : mol) (ns NN : list node) :
  eligible_nodes m ns = Ok NN ->
  forall n, In n NN <-> In n ns /\ eligible m n.
Proof.
  revert NN. induction ns as [|k ns IH]; intros NN; cbn [eligible_nodes].
  - intros H; inversion H; subst. intros n. cbn [In]. tauto.
  - destruct (node_attrs m k) as [a|] eqn:Ha; cbn [of_option bind]; [|discriminate].
    destruct (String.eqb (get (element a) "*"%string) "*") eqn:Ew.
    + destruct (eligible_nodes m ns) as [rest|]; cbn [bind]; [|discriminate].
      intros H; inversion H; subst NN. intros n. cbn [In]. rewrite (IH rest eq_refl n).
      split.
      * intros [<- | [Hin He]]; [|tauto]. split; [left; reflexivity|].
        exists a. split; [exact Ha|]. left. apply String.eqb_eq. exact Ew.
      * intros [[<- | Hin] He]; [left; reflexivity | right; tauto].
    + destruct (bonds_missing m k true) as [x|] eqn:Hx; cbn [bind]; [|discriminate].
      destruct (eligible_nodes m ns) as [rest|]; cbn [bind]; [|discriminate].
      intros H; inversion H; subst NN. intros n.
      assert (Hk : 0 < x <-> eligible m k).
      { split.
        - intros H0. exists a. split; [exact Ha|]. right. exists x. auto.
        - intros [a' [Ha' [Hw | [x' [Hx' H0]]]]].
          + rewrite Ha in Ha'. inversion Ha'; subst a'.
            apply String.eqb_eq in Hw. congruence.
          + congruence. }
      destruct (Z.ltb_spec 0 x) as [H0|H0]; cbn [In]; rewrite (IH rest eq_refl n).
      * split.
        -- intros [<- | [Hin He]]; [|tauto]. split; [left; reflexivity | apply Hk; exact H0].
        -- intros [[<- | Hin] He]; [left; reflexivity | right; tauto].
      * split.
        -- intros [Hin He]. tauto.
        -- intros [[<- | Hin] He]; [|tauto]. apply Hk in He. lia.
Qed.

Lemma keys_subgraph (m : mol) (NN : list node) (n : node) :
  In n (keys (subgraph m NN)) <-> In n (keys m) /\ In n NN.
Proof.
  unfold keys, subgraph. cbn [nodes].
  rewrite (map_filter_fst (fun k => mem k NN) (nodes m)).
  rewrite filter_In, mem_In. reflexivity.
Qed.

(** X10: when [_prune_nodes] returns, the delocalization graph holds
    exactly the listed atoms that are wildcards or miss a bond, each with
    its attributes, and exactly the edges of the molecule between them. *)
Theorem prune_nodes_keeps_eligible (ns : list node) (m ds : mol) :
  _prune_nodes ns m = Ok ds ->
  (forall n, In n (keys ds) <-> In n ns /\ eligible m n) /\
  (forall n, In n (keys ds) -> node_attrs ds n = node_attrs m n) /\
  (forall e, In e (edges ds) <->
             In e (edges m) /\ In (fst (fst e)) (keys ds) /\ In (snd (fst e)) (keys ds)).
Proof.
  unfold _prune_nodes.
  destruct (eligible_nodes m ns) as [NN|] eqn:HNN; cbn [bind]; [|discriminate].
  intros H; inversion H; subst ds. clear H.
  pose proof (eligible_nodes_spec m ns NN HNN) as Hspec.
  assert (Hkeys : forall n, In n (keys (subgraph m NN)) <-> In n NN).
  { intros n. rewrite keys_subgraph. split; [tauto|]. intros Hn. split; [|exact Hn].
    apply Hspec in Hn. destruct Hn as [_ [a [Ha _]]].
    exact (node_attrs_in_keys m n a Ha). }
  split; [|split].
  - intros n. rewrite Hkeys. apply Hspec.
  - intros n Hn. apply Hkeys in Hn. unfold node_attrs, subgraph. cbn [nodes].
    apply (lookup_filter_keys (fun k => mem k NN)). apply mem_In. exact Hn.
  - intros e. rewrite !Hkeys. unfold subgraph. cbn [edges].
    rewrite filter_In, andb_true_iff, !mem_In. tauto.
Qed.

Lemma prune_nodes_keeps_eligible_witness :
  In 2 (keys wildcard_ring5) <-> In 2 [0; 1; 2; 3; 4] /\ eligible wildcard_ring5 2.
Proof.
  exact (proj1 (prune_nodes_keeps_eligible [0; 1; 2; 3; 4] wildcard_ring5 wildcard_ring5
                  eq_refl) 2).
Defined.

(** ** add_explicit_hydrogens: the graph it builds *)

Lemma length_new_nodes (p : list (node * list node)) (N : list (node * atom)) :
  Forall2 planned p N ->
  length (new_nodes p)
  = list_sum (map (fun kv => Z.to_nat (get (hcount (snd kv)) 0)) N).
Proof.
  induction 1 as [|q d p N [_ Hlen] _ IH]; cbn [new_nodes flat_map map list_sum];
    [reflexivity|].
  fold (new_nodes p). rewrite length_app, length_map, Hlen, IH. reflexivity.
Qed.

Lemma in_new_nodes (p : list (node * list node)) (n : node) (a : atom) :
  In (n, a) (new_nodes p) -> a = hydrogen_atom /\ In n (flat_map snd p).
Proof.
  unfold new_nodes. intros H. apply in_flat_map in H. destruct H as [q [Hq H]].
  apply in_map_iff in H. destruct H as [j [E Hj]]. inversion E; subst.
  split; [reflexivity|]. apply in_flat_map. exists q. auto.
Qed.

(** X11: on a well-formed graph [add_explicit_hydrogens] raises nothing and
    returns a well-formed graph in which no atom has an [hcount]; the atoms
    of the original graph keep their other attributes; every added atom is a
    plain hydrogen joined by one bond of order 1 to an atom of the original
    graph; and the number of atoms grows by the sum of the hydrogen
    counts. *)
Theorem add_explicit_hydrogens_result (m : mol) :
  wf m ->
  let m1 := fst (add_explicit_hydrogens m) in
  snd (add_explicit_hydrogens m) = Ok tt /\ wf m1 /\
  (forall n a, node_attrs m1 n = Some a -> hcount a = None) /\
  (forall n a, node_attrs m n = Some a -> node_attrs m1 n = Some (set_hcount None a)) /\
  (forall n, In n (keys m1) -> ~ In n (keys m) ->
     node_attrs m1 n = Some hydrogen_atom /\
     exists k, In k (keys m) /\ adj m1 n = [(k, mkBond (Some (1 : Q)))]) /\
  length (nodes m1) = (length (nodes m) + total_hcount m)%nat.
Proof.
  intros Hwf. destruct (add_explicit_hydrogens_eq m Hwf) as [p [Hadd [Hwf1 Hp]]].
  rewrite Hadd. cbn [fst snd]. cbv zeta.
  split; [reflexivity|]. split; [exact Hwf1|]. split; [|split; [|split]].
  - intros n a Ha. apply lookup_Some_In in Ha. unfold with_hydrogens in Ha.
    cbn [nodes] in Ha. rewrite app_nil_r in Ha. apply in_app_iff in Ha.
    destruct Ha as [Ha | Ha].
    + apply in_map_iff in Ha. destruct Ha as [[k b] [E _]]. inversion E. reflexivity.
    + apply in_new_nodes in Ha. destruct Ha as [-> _]. reflexivity.
  - intros n a Ha. exact (node_attrs_old m p n a Ha).
  - intros n Hn Hnot. rewrite keys_m1 in Hn. apply in_app_iff in Hn.
    destruct Hn as [Hn | Hn]; [contradiction|].
    split; [exact (node_attrs_new m p Hwf1 n Hn)|].
    apply in_flat_map in Hn. destruct Hn as [[k ids] [Hq Hj]]. cbn [snd] in Hj.
    exists k. split; [exact (plan_key_old m p Hp (k, ids) Hq)|].
    exact (adj_new m p Hwf Hwf1 Hp k n ids Hq Hj).
  - unfold with_hydrogens. cbn [nodes]. rewrite app_nil_r, length_app, length_map.
    rewrite (length_new_nodes p (nodes m) Hp). reflexivity.
Qed.

Lemma add_explicit_hydrogens_result_witness :
  length (nodes (fst (add_explicit_hydrogens ethane)))
  = (length (nodes ethane) + total_hcount ethane)%nat.
Proof.
  refine (proj2 (proj2 (proj2 (proj2 (proj2 (add_explicit_hydrogens_result ethane _)))))).
  split.
  - unfold keys. cbn. repeat constructor; cbn; intuition discriminate.
  - intros e [<- | []]. cbn. auto.
Defined.

Lemma fold_Qplus_acc (l : list Q) (acc : Q) :
  fold_left Qplus l acc == (acc + fold_left Qplus l 0%Q)%Q.
Proof.
  revert acc. induction l as [|x l IH]; intros acc; cbn [fold_left].
  - ring.
  - rewrite (IH (acc + x)%Q), (IH (0 + x)%Q). ring.
Qed.

Lemma Qsum_app (l1 l2 : list Q) : Qsum (l1 ++ l2) == (Qsum l1 + Qsum l2)%Q.
Proof.
  unfold Qsum. rewrite fold_left_app. apply fold_Qplus_acc.
Qed.

Lemma Qsum_ones (l : list Q) :
  Forall (fun x => x = 1%Q) l -> Qsum l == inject_Z (Z.of_nat (length l)).
Proof.
  induction 1 as [|x l Hx _ IH].
  - reflexivity.
  - change (x :: l) with ([x] ++ l). rewrite Qsum_app, IH. subst x.
    change (length ([1%Q] ++ l)) with (S (length l)).
    rewrite Nat2Z.inj_succ. unfold Z.succ. rewrite inject_Z_plus.
    unfold Qsum. cbn [fold_left]. change (inject_Z 1) with 1%Q. ring.
Qed.

Lemma py_int_compat (q q' : Q) : (0 <= q)%Q -> q == q' -> py_int q = py_int q'.
Proof.
  intros H0 E. rewrite (py_int_floor q H0).
  rewrite (py_int_floor q') by (rewrite <- E; exact H0).
  rewrite E. reflexivity.
Qed.

(** [bonds_missing] is a function of the attributes other than [hcount] and
    of the load. *)
Lemma bonds_missing_same_load (m m' : mol) (n : node) (use_order : bool)
  (a : atom) (h' : option Z) :
  node_attrs m n = Some a -> node_attrs m' n = Some (set_hcount h' a) ->
  (_bonds m' n use_order + inject_Z (get h' 0%Z) ==
   _bonds m n use_order + inject_Z (get (hcount a) 0%Z))%Q ->
  bonds_missing m' n use_order = bonds_missing m n use_order.
Proof.
  intros Ha Ha' HL. unfold bonds_missing. rewrite Ha, Ha'. cbn [of_option bind].
  change (valence (set_hcount h' a)) with (valence a).
  change (hcount (set_hcount h' a)) with h'.
  destruct (valence a) as [val|]; cbn [bind]; [|reflexivity].
  rewrite (admissible_compat val _ _ HL).
  destruct (nth_error _ 0) as [v0|]; cbn [of_option bind]; [|reflexivity].
  f_equal. apply py_int_compat; [apply Qmax_0_nonneg|].
  apply Q.max_compat; [|reflexivity]. rewrite HL. reflexivity.
Qed.

Lemma count_new_edges (n : node) (a : atom) (p : list (node * list node))
  (N : list (node * atom)) :
  Forall2 planned p N -> NoDup (map fst N) -> lookup N n = Some a ->
  (forall j, In j (flat_map snd p) -> j <> n) ->
  length (filter (fun e => incident n (fst e)) (new_edges p))
  = Z.to_nat (get (hcount a) 0).
Proof.
  induction 1 as [|q d p N [Hk Hlen] HF IH]; intros Hnd Hn Hnew; [discriminate|].
  unfold new_edges. cbn [flat_map]. fold (new_edges p).
  rewrite filter_app, length_app.
  destruct d as [k' a']. cbn [fst snd map lookup] in *.
  apply NoDup_cons_iff in Hnd. destruct Hnd as [Hnotin Hnd].
  assert (Hinc : forall j, In j (snd q) ->
                 incident n (fst q, j) = (fst q =? n)).
  { intros j Hj. unfold incident. cbn [fst snd].
    destruct (Z.eqb_spec j n) as [E|_]; [|apply orb_false_r].
    exfalso. apply (Hnew j); [apply in_or_app; left; exact Hj | exact E]. }
  destruct (Z.eqb_spec k' n) as [E|Hne].
  - inversion Hn as [Ea]. rewrite <- Ea. rewrite filter_all.
    2:{ intros e He. apply in_map_iff in He. destruct He as [j [<- Hj]]. cbn [fst].
        rewrite (Hinc j Hj), Hk. apply Z.eqb_eq, E. }
    rewrite length_map, Hlen. rewrite filter_nil; [cbn [length]; lia|].
    intros e He. unfold new_edges in He. apply in_flat_map in He.
    destruct He as [q' [Hq' He]]. apply in_map_iff in He. destruct He as [j [<- Hj]].
    cbn [fst]. unfold incident. cbn [fst snd].
    destruct (Z.eqb_spec (fst q') n) as [E'|_].
    + exfalso. apply Hnotin. rewrite <- (planned_keys p N HF), E, <- E'.
      apply in_map. exact Hq'.
    + destruct (Z.eqb_spec j n) as [E'|_]; [|reflexivity].
      exfalso. apply (Hnew j); [|exact E']. apply in_or_app. right.
      apply in_flat_map. exists q'. auto.
  - rewrite filter_nil.
    2:{ intros e He. apply in_map_iff in He. destruct He as [j [<- Hj]]. cbn [fst].
        rewrite (Hinc j Hj), Hk. apply Z.eqb_neq. exact Hne. }
    cbn [length plus]. apply IH; auto.
    intros j Hj. apply Hnew. apply in_or_app. right. exact Hj.
Qed.

Lemma new_edges_order (p : list (node * list node)) (e : (node * node) * bond) :
  In e (new_edges p) -> snd e = mkBond (Some (1 : Q)).
Proof.
  unfold new_edges. intros H. apply in_flat_map in H. destruct H as [q [_ H]].
  apply in_map_iff in H. destruct H as [j [<- _]]. reflexivity.
Qed.

Lemma bonds_with_hydrogens (m : mol) (p : list (node * list node)) (n : node)
  (a : atom) (use_order : bool) :
  wf m -> wf (with_hydrogens (nodes m) [] (edges m) p) ->
  Forall2 planned p (nodes m) ->
  node_attrs m n = Some a -> 0 <= get (hcount a) 0 ->
  _bonds (with_hydrogens (nodes m) [] (edges m) p) n use_order
  == (_bonds m n use_order + inject_Z (get (hcount a) 0%Z))%Q.
Proof.
  intros Hwf Hwf1 Hp Ha Hh.
  set (extra := filter (fun e => incident n (fst e)) (new_edges p)).
  assert (Hlen : length extra = Z.to_nat (get (hcount a) 0)).
  { apply (count_new_edges n a p (nodes m) Hp); [apply Hwf | exact Ha |].
    intros j Hj E. subst j.
    apply (new_not_old m p Hwf1 n Hj). exact (node_attrs_in_keys m n a Ha). }
  assert (Hadj : adj (with_hydrogens (nodes m) [] (edges m) p) n
                 = adj m n ++ map (fun e => (other n (fst e), snd e)) extra).
  { unfold adj at 1. unfold with_hydrogens. cbn [edges].
    rewrite filter_app, map_app. reflexivity. }
  unfold _bonds. rewrite Hadj. destruct use_order.
  - rewrite map_app, Qsum_app. apply Qplus_comp; [reflexivity|].
    rewrite Qsum_ones.
    + rewrite !length_map, Hlen, Z2Nat.id by lia. reflexivity.
    + apply Forall_forall. intros x Hx. apply in_map_iff in Hx.
      destruct Hx as [nb [<- Hnb]]. apply in_map_iff in Hnb.
      destruct Hnb as [e [<- He]]. cbn [snd]. unfold extra in He.
      apply filter_In in He. destruct He as [He _].
      rewrite (new_edges_order p e He). reflexivity.
  - rewrite length_app, length_map, Hlen, Nat2Z.inj_add, Z2Nat.id by lia.
    rewrite inject_Z_plus. reflexivity.
Qed.

(** X12: [add_explicit_hydrogens] does not change how many bonds an atom
    misses: on a well-formed graph, [bonds_missing] on an atom with a
    non-negative [hcount] (or none) is the same before and after, with or
    without bond orders. *)
Theorem add_explicit_hydrogens_keeps_bonds_missing (m : mol) (n : node) (a : atom)
  (use_order : bool) :
  wf m -> node_attrs m n = Some a -> 0 <= get (hcount a) 0 ->
  bonds_missing (fst (add_explicit_hydrogens m)) n use_order
  = bonds_missing m n use_order.
Proof.
  intros Hwf Ha Hh. destruct (add_explicit_hydrogens_eq m Hwf) as [p [Hadd [Hwf1 Hp]]].
  rewrite Hadd. cbn [fst].
  apply (bonds_missing_same_load m _ n use_order a None Ha (node_attrs_old m p n a Ha)).
  cbn [get]. rewrite (bonds_with_hydrogens m p n a use_order Hwf Hwf1 Hp Ha Hh).
  change (inject_Z 0) with 0%Q. ring.
Qed.

Lemma add_explicit_hydrogens_keeps_bonds_missing_witness :
  bonds_missing (fst (add_explicit_hydrogens ethane)) 0 true
  = bonds_missing ethane 0 true.
Proof.
  apply (add_explicit_hydrogens_keeps_bonds_missing ethane 0 CH3 true).
  - split.
    + unfold keys. cbn. repeat constructor; cbn; intuition discriminate.
    + intros e [<- | []]. cbn. auto.
  - reflexivity.
  - cbn. lia.
Defined.

(** ** remove_explicit_hydrogens: the graph it leaves *)

Lemma remove_fold_marks (m : mol) (ks : list node)
  (s : (node -> option Z) * list node) (x : node) :
  In x (snd s) \/ (In x ks /\ is_removed m x) ->
  In x (snd (fold_left (remove_step m) ks s)).
Proof.
  revert s. induction ks as [|k ks IH]; intros s; cbn [fold_left In].
  - intros [H | [[] _]]. exact H.
  - intros H. apply IH. unfold remove_step.
    destruct H as [H | [[-> | Hin] Hr]].
    + left. destruct (node_attrs m k) as [a|]; [|exact H].
      destruct (removable m k a); [right|]; exact H.
    + left. destruct Hr as [a [nb [Ha Hr]]]. rewrite Ha, Hr. left. reflexivity.
    + right. auto.
Qed.

Lemma removed_set (m : mol) (x : node) :
  In x (snd (fold_left (remove_step m) (map fst (nodes m)) (hcount_of m, [])))
  <-> is_removed m x.
Proof.
  split.
  - intros H.
    destruct (proj2 (remove_fold_hcount m x (map fst (nodes m)) (hcount_of m, [])) x H)
      as [[] | [a [Ha Hr]]].
    destruct (removable m x a) as [nb|] eqn:E; [|congruence]. exists a, nb. auto.
  - intros Hr. apply remove_fold_marks. right. split; [|exact Hr].
    destruct Hr as [a [nb [Ha _]]]. exact (node_attrs_in_keys m x a Ha).
Qed.

Lemma element_is_H_iff (a : atom) :
  element_is_H a = true <-> element a = Some "H"%string.
Proof.
  unfold element_is_H. rewrite String.eqb_eq.
  destruct (element a) as [e|]; cbn [get]; split; intros H;
    try congruence; try discriminate.
Qed.

(** The test of the first loop of [remove_explicit_hydrogens] holds on the
    simple explicit hydrogens, and on no other atom. *)
Lemma is_removed_iff (m : mol) (n : node) : is_removed m n <-> simple_hydrogen m n.
Proof.
  split.
  - intros (a & nb & Ha & Hr). revert Hr. unfold removable.
    destruct (get (charge a) 0 =? 0) eqn:Ec; cbn [andb]; [|discriminate].
    destruct (element_is_H a) eqn:Eh; cbn [andb]; [|discriminate].
    destruct (isotope a) as [i|] eqn:Ei; cbn [is_some negb andb]; [discriminate|].
    destruct (get (class_ a) 0 =? 0) eqn:Ecl; cbn [andb]; [|discriminate].
    rewrite length_map.
    destruct (adj m n) as [|[nb' attrs] rest] eqn:Eadj; [cbn; discriminate|].
    destruct rest as [|r rest].
    2:{ cbn [length]. replace (Z.of_nat (S (S (length rest))) =? 1) with false
          by (symmetry; apply Z.eqb_neq; lia). discriminate. }
    cbn [length]. change (Z.of_nat 1 =? 1) with true. cbv iota.
    destruct (node_attrs m nb') as [b|] eqn:Eb; [|discriminate].
    destruct (element_is_H b) eqn:Ehb; cbn [orb]; [discriminate|].
    destruct (Qeq_bool (get (order attrs) 1%Q) 1%Q) eqn:Eo; cbn [negb]; [|discriminate].
    intros _. exists a, nb', attrs, b.
    apply Z.eqb_eq in Ec. apply Z.eqb_eq in Ecl. apply element_is_H_iff in Eh.
    apply Qeq_bool_iff in Eo.
    repeat split; auto.
    intros Hb. apply element_is_H_iff in Hb. congruence.
  - intros (a & nb & attrs & b & Ha & He & Hc & Hi & Hcl & Hadj & Hb & Hnb & Ho).
    exists a, nb. split; [exact Ha|]. unfold removable.
    apply Z.eqb_eq in Hc. apply Z.eqb_eq in Hcl. apply element_is_H_iff in He.
    rewrite Hc, He, Hi, Hcl, Hadj. cbn [is_some negb andb map length].
    change (Z.of_nat 1 =? 1) with true. cbv iota. rewrite Hb.
    destruct (element_is_H b) eqn:Ehb.
    + apply element_is_H_iff in Ehb. contradiction.
    + apply Qeq_bool_iff in Ho. rewrite Ho. reflexivity.
Qed.

(** X13: on a well-formed graph [remove_explicit_hydrogens] raises nothing
    and removes exactly the simple explicit hydrogens: the atoms with
    element H, charge 0, no isotope and class 0 that are bonded to exactly
    one atom, which is not a hydrogen, by a bond of order 1.  It keeps
    exactly the edges between the atoms that stay, and every atom that stays
    has an [hcount]. *)
Theorem remove_explicit_hydrogens_result (m : mol) :
  wf m ->
  let m' := fst (remove_explicit_hydrogens m) in
  snd (remove_explicit_hydrogens m) = Ok tt /\
  (forall n, In n (keys m') <-> In n (keys m) /\ ~ simple_hydrogen m n) /\
  (forall e, In e (edges m') <->
     In e (edges m) /\ ~ simple_hydrogen m (fst (fst e))
     /\ ~ simple_hydrogen m (snd (fst e))) /\
  (forall n a, node_attrs m' n = Some a -> is_some (hcount a) = true).
Proof.
  intros [Hnd _]. cbv zeta. unfold remove_explicit_hydrogens.
  pose proof (remove_loop_eq m (map fst (nodes m)) (hcount_of m) [] (fun x H => H)) as E.
  rewrite (with_hcounts_self m Hnd) in E. rewrite E. clear E. cbn zeta.
  pose proof (removed_set m) as Hset.
  destruct (fold_left (remove_step m) (map fst (nodes m)) (hcount_of m, [])) as [H' tr].
  cbn [fst snd] in *.
  assert (Hmem : forall x, negb (mem x tr) = true <-> ~ simple_hydrogen m x).
  { intros x. rewrite negb_true_iff, mem_false, Hset, is_removed_iff. reflexivity. }
  split; [reflexivity|]. split; [|split].
  - intros n. unfold keys. cbn [nodes remove_nodes_from with_hcounts].
    rewrite map_map. cbn [fst].
    rewrite (map_filter_fst (fun k => negb (mem k tr))), map_map. cbn [fst].
    rewrite filter_In, Hmem. reflexivity.
  - intros e. cbn [edges remove_nodes_from with_hcounts].
    rewrite filter_In, andb_true_iff, !Hmem. reflexivity.
  - intros n a Ha. unfold node_attrs in Ha. cbn [nodes] in Ha.
    rewrite (lookup_map_values (fun _ a => default_hcount a)) in Ha.
    destruct (lookup _ n) as [b|]; cbn [option_map] in Ha; [|discriminate].
    inversion Ha. unfold default_hcount. destruct (is_some (hcount b)) eqn:Eb; auto.
Qed.

Lemma remove_explicit_hydrogens_result_witness :
  In 1 (keys (fst (remove_explicit_hydrogens methane_one_explicit)))
  <-> In 1 (keys methane_one_explicit) /\ ~ simple_hydrogen methane_one_explicit 1.
Proof.
  refine (proj1 (proj2 (remove_explicit_hydrogens_result methane_one_explicit _)) 1).
  split.
  - unfold keys. cbn. repeat constructor; cbn; intuition discriminate.
  - intros e [<- | []]. cbn. auto.
Defined.

(** X14: an atom that [remove_explicit_hydrogens] does not remove keeps its
    attributes, and its [hcount] becomes the stored one (0 when absent) plus
    the number of hydrogens removed from it. *)
Theorem remove_explicit_hydrogens_counts (m : mol) (n : node) (a : atom) :
  NoDup (keys m) -> node_attrs m n = Some a -> removable m n a = None ->
  node_attrs (fst (remove_explicit_hydrogens m)) n
  = Some (set_hcount (Some (get (hcount a) 0 + Z.of_nat (count_removed m n))) a).
Proof.
  intros Hnd Ha Hr. exact (proj2 (remove_explicit_hydrogens_kept m n a Hnd Ha Hr)).
Qed.

Lemma remove_explicit_hydrogens_counts_witness :
  node_attrs (fst (remove_explicit_hydrogens methane_one_explicit)) 0
  = Some (set_hcount (Some (get (hcount CH3) 0
                            + Z.of_nat (count_removed methane_one_explicit 0))) CH3).
Proof.
  apply (remove_explicit_hydrogens_counts methane_one_explicit 0 CH3).
  - unfold keys. cbn. repeat constructor; cbn; intuition discriminate.
  - reflexivity.
  - reflexivity.
Defined.

(** ** mark_aromatic_edges *)

Lemma same_edge_spec (u v : node) (e : node * node) :
  same_edge u v e = true <-> (fst e = u /\ snd e = v) \/ (fst e = v /\ snd e = u).
Proof.
  unfold same_edge. rewrite orb_true_iff, !andb_true_iff, !Z.eqb_eq. reflexivity.
Qed.

Lemma same_edge_trans (u v : node) (e1 e2 : node * node) :
  same_edge u v e1 = true -> same_edge u v e2 = true ->
  same_edge (fst e1) (snd e1) e2 = true.
Proof.
  rewrite !same_edge_spec. intros [[A B] | [A B]] [[C D] | [C D]]; subst; auto.
Qed.

Lemma unique_match (u v : node) (l : list ((node * node) * bond))
  (e e1 : (node * node) * bond) :
  ForallOrdPairs (fun a b => same_edge (fst (fst a)) (snd (fst a)) (fst b) = false) l ->
  find (fun x => same_edge u v (fst x)) l = Some e1 ->
  In e l -> same_edge u v (fst e) = true -> e = e1.
Proof.
  induction 1 as [|x l Hx _ IH]; cbn [find In]; [discriminate|].
  destruct (same_edge u v (fst x)) eqn:Ex.
  - intros H; inversion H; subst e1. intros [-> | Hin] He; [reflexivity|].
    rewrite Forall_forall in Hx. specialize (Hx e Hin).
    rewrite (same_edge_trans u v (fst x) (fst e) Ex He) in Hx. discriminate.
  - intros Hf [-> | Hin] He; [congruence | auto].
Qed.

Lemma find_map_fst (p : node * node -> bool)
  (G : (node * node) * bond -> (node * node) * bond) (l : list ((node * node) * bond)) :
  (forall e, fst (G e) = fst e) ->
  find (fun x => p (fst x)) (map G l) = option_map G (find (fun x => p (fst x)) l).
Proof.
  intros HG. induction l as [|x l IH]; cbn [map find option_map]; [reflexivity|].
  rewrite HG. destruct (p (fst x)); [reflexivity | exact IH].
Qed.

Lemma covered_app (done : list (node * node)) (pr : node * node)
  (e : (node * node) * bond) :
  covered (done ++ [pr]) e = covered done e || same_edge (fst pr) (snd pr) (fst e).
Proof.
  unfold covered. rewrite existsb_app. cbn [existsb]. rewrite orb_false_r. reflexivity.
Qed.

Lemma bond_eta (b : bond) : mkBond (order b) = b.
Proof. destruct b; reflexivity. Qed.

Lemma marked_aromatic (m : mol) (u v : node) (e : (node * node) * bond) :
  same_edge u v (fst e) = true ->
  marked m e
  = (fst e, mkBond (Some (if reads_aromatic m u && reads_aromatic m v
                          then 3 # 2 else get (order (snd e)) (1 : Q)))).
Proof.
  intros H. apply same_edge_spec in H. unfold marked.
  destruct H as [[-> ->] | [-> ->]]; [reflexivity|].
  rewrite (andb_comm (reads_aromatic m v)). reflexivity.
Qed.

(** The state of the loop of [mark_aromatic_edges] once the pairs [done]
    have been visited. *)
Lemma mark_aromatic_edge_step (m : mol) (done : list (node * node)) (u v : node)
  (au av : atom) (e0 : (node * node) * bond) :
  simple m ->
  node_attrs m u = Some au -> node_attrs m v = Some av ->
  In e0 (edges m) -> same_edge u v (fst e0) = true ->
  mark_aromatic_edge (u, v)
    (mkMol (nodes m) (map (fun e => if covered done e then marked m e else e) (edges m)))
  = (mkMol (nodes m)
           (map (fun e => if covered (done ++ [(u, v)]) e then marked m e else e)
                (edges m)),
     Ok tt).
Proof.
  intros Hsimple Hu Hv Hin He0.
  set (G := fun e => if covered done e then marked m e else e).
  assert (HG : forall e, fst (G e) = fst e).
  { intros e. unfold G. destruct (covered done e); reflexivity. }
  destruct (find (fun x => same_edge u v (fst x)) (edges m)) as [e1|] eqn:Hfind.
  2:{ apply (find_none _ _ Hfind) in Hin. congruence. }
  assert (Huniq : forall e, In e (edges m) -> same_edge u v (fst e) = true -> e = e1)
    by (intros e; apply (unique_match u v (edges m) e e1 Hsimple Hfind)).
  assert (Hra : reads_aromatic m u = truthy (get_aromatic_or_False_string au))
    by (unfold reads_aromatic; rewrite Hu; reflexivity).
  assert (Hrv : reads_aromatic m v = truthy (get_aromatic_or_False_string av))
    by (unfold reads_aromatic; rewrite Hv; reflexivity).
  unfold mark_aromatic_edge.
  change (node_attrs (mkMol (nodes m) (map G (edges m))) u) with (node_attrs m u).
  change (node_attrs (mkMol (nodes m) (map G (edges m))) v) with (node_attrs m v).
  rewrite Hu, Hv. unfold edge_attrs. cbn [edges].
  rewrite (find_map_fst (same_edge u v) G (edges m) HG), Hfind. cbn [option_map].
  rewrite <- Hra, <- Hrv.
  assert (Hext : forall (F : (node * node) * bond -> (node * node) * bond),
             (forall e, In e (edges m) ->
                F e = if covered (done ++ [(u, v)]) e then marked m e else e) ->
             map F (edges m)
             = map (fun e => if covered (done ++ [(u, v)]) e then marked m e else e)
                   (edges m))
    by (intros F HF; apply map_ext_in; exact HF).
  destruct (reads_aromatic m u && reads_aromatic m v) eqn:Har.
  - f_equal. unfold update_edge. cbn [nodes edges]. f_equal. rewrite map_map.
    apply Hext. intros e Hine. rewrite HG, covered_app. cbn [fst snd].
    destruct (same_edge u v (fst e)) eqn:Ee.
    + rewrite orb_true_r. rewrite (marked_aromatic m u v e Ee), Har. reflexivity.
    + rewrite orb_false_r. reflexivity.
  - destruct (order (snd (G e1))) as [q|] eqn:Eo; cbn [is_some negb].
    + f_equal. f_equal. apply Hext. intros e Hine. rewrite covered_app. cbn [fst snd].
      destruct (same_edge u v (fst e)) eqn:Ee.
      * rewrite orb_true_r. rewrite (Huniq e Hine Ee). unfold G in *.
        destruct (covered done e1); [reflexivity|].
        rewrite (marked_aromatic m u v e1 (eq_trans (f_equal _ (eq_sym (f_equal fst (Huniq e Hine Ee)))) Ee)).
        rewrite Har, Eo. cbn [get].
        destruct e1 as [pr b]. cbn [fst snd] in *. rewrite <- Eo, bond_eta. reflexivity.
      * rewrite orb_false_r. reflexivity.
    + f_equal. unfold update_edge. cbn [nodes edges]. f_equal. rewrite map_map.
      apply Hext. intros e Hine. rewrite HG, covered_app. cbn [fst snd].
      destruct (same_edge u v (fst e)) eqn:Ee.
      * rewrite orb_true_r. rewrite (marked_aromatic m u v e Ee), Har.
        pose proof (Huniq e Hine Ee) as ->. unfold G in Eo.
        destruct (covered done e1); [discriminate|]. rewrite Eo. reflexivity.
      * rewrite orb_false_r. reflexivity.
Qed.

Lemma adj_edge (m : mol) (x y : node) (b : bond) :
  In (y, b) (adj m x) ->
  exists e, In e (edges m) /\ same_edge x y (fst e) = true.
Proof.
  unfold adj. intros H. apply in_map_iff in H. destruct H as [e [E H]].
  apply filter_In in H. destruct H as [Hin Hinc]. exists e. split; [exact Hin|].
  inversion E as [[Ey Eb]]. unfold incident in Hinc. unfold other, same_edge.
  destruct (Z.eqb_spec (fst (fst e)) x) as [E1|N1].
  - rewrite Z.eqb_refl. cbn [andb orb]. reflexivity.
  - cbn [orb] in Hinc. rewrite Hinc, Z.eqb_refl. cbn [andb]. apply orb_true_r.
Qed.

(** Every pair that the iteration over [mol.edges] yields is an edge, seen
    from a node of the list. *)
Lemma edge_view_sound (m : mol) (ns seen : list node) (x y : node) :
  In (x, y) (edge_view_from m ns seen) ->
  In x ns /\ exists e, In e (edges m) /\ same_edge x y (fst e) = true.
Proof.
  revert seen. induction ns as [|n ns IH]; intros seen; cbn [edge_view_from In];
    [tauto|].
  intros H. apply in_app_iff in H. destruct H as [H | H].
  - apply in_map_iff in H. destruct H as [[nb b] [E H]]. inversion E; subst.
    apply filter_In in H. destruct H as [H _]. split; [left; reflexivity|].
    exact (adj_edge m x y b H).
  - destruct (IH _ H) as [H1 H2]. split; [right; exact H1 | exact H2].
Qed.

(** Every edge is yielded, as one of its two orientations. *)
Lemma edge_view_covers (m : mol) (ns seen : list node) (e : (node * node) * bond) :
  In e (edges m) ->
  In (fst (fst e)) ns \/ In (snd (fst e)) ns ->
  ~ In (fst (fst e)) seen -> ~ In (snd (fst e)) seen ->
  covered (edge_view_from m ns seen) e = true.
Proof.
  intros Hin. destruct e as [[u v] b]. cbn [fst snd] in *.
  revert seen. induction ns as [|n ns IH]; intros seen Hns Hu Hv;
    cbn [edge_view_from]; [destruct Hns as [[] | []]|].
  unfold covered. rewrite existsb_app. apply orb_true_iff.
  destruct (Z.eq_dec n u) as [->|Hnu].
  - left. apply existsb_exists. exists (u, v). split.
    + apply in_map_iff. exists (v, b). split; [reflexivity|].
      apply filter_In. split.
      * unfold adj. apply in_map_iff. exists ((u, v), b). split.
        -- unfold other. cbn [fst snd]. rewrite Z.eqb_refl. reflexivity.
        -- apply filter_In. split; [exact Hin|]. unfold incident. cbn [fst snd].
           rewrite Z.eqb_refl. reflexivity.
      * cbn [fst]. apply negb_true_iff, mem_false. exact Hv.
    + cbn [fst snd]. unfold same_edge. cbn [fst snd]. rewrite !Z.eqb_refl. reflexivity.
  - destruct (Z.eq_dec n v) as [->|Hnv].
    + left. apply existsb_exists. exists (v, u). split.
      * apply in_map_iff. exists (u, b). split; [reflexivity|].
        apply filter_In. split.
        -- unfold adj. apply in_map_iff. exists ((u, v), b). split.
           ++ unfold other. cbn [fst snd].
              destruct (Z.eqb_spec u v) as [E|_]; [congruence | reflexivity].
           ++ apply filter_In. split; [exact Hin|]. unfold incident. cbn [fst snd].
              rewrite Z.eqb_refl. apply orb_true_r.
        -- cbn [fst]. apply negb_true_iff, mem_false. exact Hu.
      * cbn [fst snd]. unfold same_edge. cbn [fst snd]. rewrite !Z.eqb_refl.
        apply orb_true_r.
    + right. apply IH.
      * destruct Hns as [[E | H] | [E | H]]; try congruence; auto.
      * intros [E | H]; [congruence | auto].
      * intros [E | H]; [congruence | auto].
Qed.

Lemma mark_aromatic_edges_loop (m : mol) (prs done : list (node * node)) :
  simple m ->
  (forall x y, In (x, y) prs ->
     (exists ax, node_attrs m x = Some ax) /\ (exists ay, node_attrs m y = Some ay) /\
     exists e, In e (edges m) /\ same_edge x y (fst e) = true) ->
  for_each prs mark_aromatic_edge
    (mkMol (nodes m) (map (fun e => if covered done e then marked m e else e) (edges m)))
  = (mkMol (nodes m)
           (map (fun e => if covered (done ++ prs) e then marked m e else e) (edges m)),
     Ok tt).
Proof.
  intros Hsimple. revert done. induction prs as [|[u v] prs IH]; intros done Hprs;
    cbn [for_each].
  - rewrite app_nil_r. reflexivity.
  - destruct (Hprs u v (or_introl eq_refl)) as ([au Hu] & [av Hv] & [e0 [Hin He0]]).
    rewrite (mark_aromatic_edge_step m done u v au av e0 Hsimple Hu Hv Hin He0).
    rewrite (IH (done ++ [(u, v)])).
    + rewrite <- app_assoc. reflexivity.
    + intros x y Hxy. apply Hprs. right. exact Hxy.
Qed.

Lemma mark_aromatic_edges_view (m : mol) :
  wf m -> simple m ->
  for_each (edge_view m) mark_aromatic_edge m
  = (mkMol (nodes m) (map (marked m) (edges m)), Ok tt).
Proof.
  intros [Hnd Hcl] Hsimple.
  assert (E0 : m = mkMol (nodes m)
                     (map (fun e => if covered [] e then marked m e else e) (edges m))).
  { cbn [covered existsb]. rewrite map_id. destruct m; reflexivity. }
  rewrite E0 at 2.
  rewrite (mark_aromatic_edges_loop m (edge_view m) [] Hsimple).
  - f_equal. f_equal. apply map_ext_in. intros e He. cbn [app].
    unfold edge_view. rewrite (edge_view_covers m (map fst (nodes m)) [] e He); auto.
    left. apply (Hcl e He).
  - intros x y Hxy. unfold edge_view in Hxy.
    destruct (edge_view_sound m _ _ x y Hxy) as [Hx [e [He Hs]]].
    split; [apply lookup_in_keys; exact Hx|]. split; [|exists e; auto].
    apply lookup_in_keys. destruct (Hcl e He) as [H1 H2].
    apply same_edge_spec in Hs. destruct Hs as [[_ <-] | [<- _]]; assumption.
Qed.

(** X15: on a well-formed graph without parallel edges [mark_aromatic_edges]
    raises nothing, leaves the atoms as they are, and gives every edge an
    order: 1.5 when the value read on both end points is true (a stored
    [True], or the default for an atom without the key), otherwise the order
    the edge had, or 1 when it had none. *)
Theorem mark_aromatic_edges_result (m : mol) :
  wf m -> simple m ->
  mark_aromatic_edges m = (mkMol (nodes m) (map (marked m) (edges m)), Ok tt).
Proof.
  intros Hwf Hsimple. unfold mark_aromatic_edges.
  apply mark_aromatic_edges_view; assumption.
Qed.

Lemma mark_aromatic_edges_result_witness :
  mark_aromatic_edges propane_chain
  = (mkMol (nodes propane_chain) (map (marked propane_chain) (edges propane_chain)),
     Ok tt).
Proof.
  apply (mark_aromatic_edges_result propane_chain).
  - split.
    + unfold keys. cbn. repeat constructor; cbn; intuition discriminate.
    + intros e He. cbn in He.
      repeat (destruct He as [<- | He]; [cbn; tauto|]). destruct He.
  - unfold simple. cbn. repeat constructor.
Defined.

(** ** mark_aromatic_atoms: what it may change *)

Lemma for_each_invariant {S X : Type} (I : S -> Prop) (body : X -> S -> S * result unit)
  (xs : list X) (s : S) :
  (forall x s, I s -> I (fst (body x s))) -> I s -> I (fst (for_each xs body s)).
Proof.
  intros Hbody. revert s. induction xs as [|x xs IH]; intros s Hs; cbn [for_each];
    [exact Hs|].
  pose proof (Hbody x s Hs) as H1.
  destruct (body x s) as [s1 [[]|e]]; cbn [fst] in *; auto.
Qed.

Lemma fold_left_invariant {S X : Type} (I : S -> Prop) (f : S -> X -> S)
  (xs : list X) (s : S) :
  (forall s x, I s -> I (f s x)) -> I s -> I (fold_left f xs s).
Proof.
  intros Hf. revert s. induction xs as [|x xs IH]; intros s Hs; cbn [fold_left]; auto.
Qed.

Lemma same_but_aromatic_refl (m : mol) : same_but_aromatic m m.
Proof. split; reflexivity. Qed.

Lemma same_but_aromatic_update_node (m s : mol) (n : node) (b : option bool) :
  same_but_aromatic m s -> same_but_aromatic m (update_node n (set_aromatic b) s).
Proof.
  intros [Hs Hn]. split; [rewrite structure_update_node; exact Hs|].
  intros k. rewrite <- Hn. destruct (Z.eq_dec k n) as [->|Hne].
  - rewrite node_attrs_update_same. destruct (node_attrs s n); reflexivity.
  - rewrite node_attrs_update_other by exact Hne. reflexivity.
Qed.

Lemma same_but_aromatic_update_edge (m s : mol) (u v : node) (f : bond -> bond) :
  same_but_aromatic m s -> same_but_aromatic m (update_edge u v f s).
Proof.
  intros [Hs Hn]. split; [rewrite structure_update_edge; exact Hs | exact Hn].
Qed.

Lemma same_but_aromatic_clear (m : mol) : same_but_aromatic m (clear_aromatic m).
Proof.
  split; [apply structure_clear_aromatic|].
  intros n. unfold node_attrs, clear_aromatic. cbn [nodes].
  rewrite (lookup_map_values (fun _ a => set_aromatic (Some false) a)).
  destruct (lookup (nodes m) n); reflexivity.
Qed.

Lemma all_aromatic_set_clear (m : mol) : all_aromatic_set (clear_aromatic m).
Proof.
  intros n a. unfold node_attrs, clear_aromatic. cbn [nodes].
  rewrite (lookup_map_values (fun _ a => set_aromatic (Some false) a)).
  destruct (lookup (nodes m) n); cbn [option_map]; [|discriminate].
  intros H; inversion H. reflexivity.
Qed.

Lemma all_aromatic_set_update_node (s : mol) (n : node) (b : bool) :
  all_aromatic_set s -> all_aromatic_set (update_node n (set_aromatic (Some b)) s).
Proof.
  intros Hs k a. destruct (Z.eq_dec k n) as [->|Hne].
  - rewrite node_attrs_update_same. destruct (node_attrs s n); cbn [option_map];
      [|discriminate]. intros H; inversion H. reflexivity.
  - rewrite node_attrs_update_other by exact Hne. apply Hs.
Qed.

Lemma all_aromatic_set_update_edge (s : mol) (u v : node) (f : bond -> bond) :
  all_aromatic_set s -> all_aromatic_set (update_edge u v f s).
Proof. intros Hs k a. exact (Hs k a). Qed.

Section MarkInvariant.
Variable connected_components : skeleton -> list (list node).
Variable max_weight_matching : skeleton -> list (node * node).
Variable cycle_basis : skeleton -> list (list node).
Variable I : mol -> Prop.
Hypothesis I_node : forall s n b, I s -> I (update_node n (set_aromatic (Some b)) s).
Hypothesis I_edge : forall s u v f, I s -> I (update_edge u v f s).

Lemma mark_component_invariant (C : list node) (s : mol) :
  I s -> I (fst (mark_component max_weight_matching cycle_basis C s)).
Proof.
  intros Hs. unfold mark_component.
  destruct (is_perfect_matching _ _) as [[|]|e]; cbn [fst]; try exact Hs.
  apply for_each_invariant.
  - intros edge s' Hs'.
    destruct (negb (mem (fst edge) _) && negb (mem (snd edge) _)); [|exact Hs'].
    destruct (edge_attrs s' (fst edge) (snd edge)); cbn [fst]; auto.
  - apply fold_left_invariant.
    + intros s' n Hs'. destruct (negb (mem n _)); auto.
    + apply fold_left_invariant; [|exact Hs].
      intros s' cycle Hs'. apply fold_left_invariant; auto.
Qed.

Lemma mark_aromatic_atoms_invariant (atoms : option (list node)) (m : mol) :
  I (clear_aromatic m) -> I m ->
  I (fst (mark_aromatic_atoms connected_components max_weight_matching cycle_basis
                              atoms m)).
Proof.
  intros Hc Hm. unfold mark_aromatic_atoms.
  destruct (_prune_nodes _ m) as [ds|e]; cbn [fst]; [|exact Hm].
  apply for_each_invariant; [|exact Hc].
  intros C s Hs. apply mark_component_invariant. exact Hs.
Qed.
End MarkInvariant.

(** X16: whatever the graph algorithms return and however
    [mark_aromatic_atoms] ends, the graph it leaves has the nodes and edges
    of the original one, and every atom has its original attributes except
    possibly [aromatic]; when [_prune_nodes] has returned, every atom has a
    stored [aromatic] value. *)
Theorem mark_aromatic_atoms_changes_aromatic_only
  (connected_components : skeleton -> list (list node))
  (max_weight_matching : skeleton -> list (node * node))
  (cycle_basis : skeleton -> list (list node))
  (atoms : option (list node)) (m : mol) :
  let m' := fst (mark_aromatic_atoms connected_components max_weight_matching
                                     cycle_basis atoms m) in
  same_but_aromatic m m' /\
  ((exists ds, _prune_nodes (get atoms (map fst (nodes m))) m = Ok ds) ->
   all_aromatic_set m').
Proof.
  cbv zeta. split.
  - apply (mark_aromatic_atoms_invariant connected_components max_weight_matching
             cycle_basis (same_but_aromatic m)).
    + intros s n b. apply same_but_aromatic_update_node.
    + intros s u v f. apply same_but_aromatic_update_edge.
    + apply same_but_aromatic_clear.
    + apply same_but_aromatic_refl.
  - intros [ds Hds]. unfold mark_aromatic_atoms. rewrite Hds.
    apply (for_each_invariant all_aromatic_set).
    + intros C s Hs.
      apply (mark_component_invariant max_weight_matching cycle_basis all_aromatic_set).
      * intros s' n b. apply all_aromatic_set_update_node.
      * intros s' u v f. apply all_aromatic_set_update_edge.
      * exact Hs.
    + apply all_aromatic_set_clear.
Qed.

Lemma fill_valence_stores_aux (m m1 : mol) (n : node) (a : atom) :
  fill_valence true true 3 m = (m1, Ok tt) -> node_attrs m n = Some a ->
  exists a1, node_attrs m1 n = Some a1 /\
    element a1 = element a /\ charge a1 = charge a /\
    (is_some (hcount a) = true -> hcount a1 = hcount a) /\
    (hcount a = None -> exists x, bonds_missing m n true = Ok x /\ hcount a1 = Some x).
Proof.
  unfold fill_valence. cbn [negb]. intros Hrun Ha.
  destruct (fill_valence_loop_result _ m m1 Hrun) as [_ Hn].
  destruct (Hn n a Ha) as (I1 & I2 & _).
  destruct (hcount a) as [h|] eqn:Hh.
  - exists a. rewrite (I1 eq_refl). repeat split; auto. discriminate.
  - destruct (I2 eq_refl (node_attrs_in_keys m n a Ha)) as [x [Hx Hx']].
    exists (set_hcount (Some x) a). rewrite Hx'. repeat split; auto.
    + intros H. discriminate.
    + intros _. exists x. auto.
Qed.

(** ** correct_aromatic_rings *)

Lemma ForallOrdPairs_map {A B : Type} (f : A -> B) (R : B -> B -> Prop) (l : list A) :
  ForallOrdPairs (fun a b => R (f a) (f b)) l <-> ForallOrdPairs R (map f l).
Proof.
  induction l as [|x l IH]; cbn [map].
  - split; intros _; constructor.
  - split; intros H; inversion H; subst; constructor.
    + apply Forall_map. assumption.
    + apply IH. assumption.
    + apply Forall_map. assumption.
    + apply IH. assumption.
Qed.

Lemma simple_structure (m s : mol) : structure s = structure m -> simple m -> simple s.
Proof.
  unfold structure, simple. intros E H. injection E as _ Ee.
  apply (ForallOrdPairs_map fst
           (fun a b => same_edge (fst a) (snd a) b = false)).
  rewrite Ee.
  apply (ForallOrdPairs_map fst
           (fun a b => same_edge (fst a) (snd a) b = false)). exact H.
Qed.

Lemma wf_structure (m s : mol) : structure s = structure m -> wf m -> wf s.
Proof.
  unfold structure. intros E [Hnd Hcl]. injection E as Ek Ee.
  split; [unfold keys; rewrite Ek; exact Hnd|].
  intros e He. unfold keys. rewrite Ek.
  assert (Hin : In (fst e) (map fst (edges m))) by (rewrite <- Ee; apply in_map; exact He).
  apply in_map_iff in Hin. destruct Hin as [e' [E' He']]. rewrite <- E'.
  exact (Hcl e' He').
Qed.

Lemma fill_valence_default_structure (m m' : mol) (r : result unit) :
  fill_valence_default m = (m', r) -> structure m' = structure m.
Proof.
  unfold fill_valence_default, fill_valence. cbn [negb]. intros Hrun.
  pose proof (fill_valence_loop_keys true (map fst (nodes m)) m) as Hk.
  rewrite Hrun in Hk. cbn [fst] in Hk.
  assert (He : edges m' = edges m).
  { pose proof (for_each_invariant (fun s => edges s = edges m)
                  (fill_valence_node true) (map fst (nodes m)) m) as H.
    rewrite Hrun in H. apply H; [|reflexivity].
    intros x s Hs. unfold fill_valence_node.
    destruct (node_attrs s x) as [a|]; [|exact Hs].
    destruct (is_some (hcount a) && true); [exact Hs|].
    destruct (bonds_missing s x true); exact Hs. }
  unfold structure. rewrite Hk, He. reflexivity.
Qed.

Lemma reads_stored_aromatic (m : mol) (n : node) :
  stored_aromatic m n -> reads_aromatic m n = true.
Proof.
  intros [a [Ha Har]]. unfold reads_aromatic, get_aromatic_or_False_string.
  rewrite Ha, Har. reflexivity.
Qed.

(** X17: when [correct_aromatic_rings] returns on a well-formed graph
    without parallel edges, the graph has the nodes and edges it had; every
    atom keeps its element and charge, has an [hcount] (its own if it had
    one, [bonds_missing] of the original graph otherwise) and a stored
    [aromatic] value; every edge has an order, and the order is 1.5 when both
    its end points are marked aromatic. *)
Theorem correct_aromatic_rings_result
  (connected_components : skeleton -> list (list node))
  (max_weight_matching : skeleton -> list (node * node))
  (cycle_basis : skeleton -> list (list node)) (m m' : mol) :
  wf m -> simple m ->
  correct_aromatic_rings connected_components max_weight_matching cycle_basis m
  = (m', Ok tt) ->
  structure m' = structure m /\
  (forall n a, node_attrs m n = Some a ->
     exists a', node_attrs m' n = Some a' /\
       element a' = element a /\ charge a' = charge a /\
       is_some (aromatic a') = true /\
       (is_some (hcount a) = true -> hcount a' = hcount a) /\
       (hcount a = None -> exists x, bonds_missing m n true = Ok x /\ hcount a' = Some x)) /\
  (forall e, In e (edges m') ->
     exists q, order (snd e) = Some q /\
       (stored_aromatic m' (fst (fst e)) -> stored_aromatic m' (snd (fst e)) ->
        q = 3 # 2)).
Proof.
  intros Hwf Hsimple. unfold correct_aromatic_rings.
  destruct (fill_valence_default m) as [m1 r1] eqn:H1.
  destruct r1 as [[]|e1]; [|discriminate].
  destruct (mark_aromatic_atoms connected_components max_weight_matching cycle_basis
              (Some (map fst (nodes m1))) m1) as [m2 r2] eqn:H2.
  destruct r2 as [[]|e2]; [|discriminate].
  intros H3.
  pose proof (fill_valence_default_structure m m1 _ H1) as Hs1.
  pose proof (mark_aromatic_atoms_invariant connected_components max_weight_matching
                cycle_basis (same_but_aromatic m1)
                (fun s n b => same_but_aromatic_update_node m1 s n (Some b))
                (fun s u v f => same_but_aromatic_update_edge m1 s u v f)
                (Some (map fst (nodes m1))) m1
                (same_but_aromatic_clear m1) (same_but_aromatic_refl m1)) as Hsame.
  rewrite H2 in Hsame. cbn [fst] in Hsame. destruct Hsame as [Hs2 Hn2].
  assert (Harom : all_aromatic_set m2).
  { revert H2. unfold mark_aromatic_atoms. cbn [get].
    destruct (_prune_nodes (map fst (nodes m1)) m1) as [ds|e]; [|discriminate].
    intros H2.
    pose proof (for_each_invariant all_aromatic_set
                  (mark_component max_weight_matching cycle_basis)
                  (connected_components (structure ds)) (clear_aromatic m1)) as H.
    rewrite H2 in H. apply H; [|apply all_aromatic_set_clear].
    intros C s Hs.
    apply (mark_component_invariant max_weight_matching cycle_basis all_aromatic_set);
      auto using all_aromatic_set_update_node, all_aromatic_set_update_edge. }
  assert (Hs20 : structure m2 = structure m) by congruence.
  unfold mark_aromatic_edges in H3.
  rewrite (mark_aromatic_edges_view m2 (wf_structure m m2 Hs20 Hwf)
             (simple_structure m m2 Hs20 Hsimple)) in H3.
  inversion H3; subst m'. clear H3.
  split; [|split].
  - rewrite <- Hs20. unfold structure. cbn [nodes edges]. f_equal.
    rewrite map_map. reflexivity.
  - intros n a Ha.
    change (node_attrs (mkMol (nodes m2) (map (marked m2) (edges m2))) n)
      with (node_attrs m2 n).
    unfold fill_valence_default in H1.
    destruct (fill_valence_stores_aux m m1 n a H1 Ha) as [a1 [Ha1 (He & Hc & Hh1 & Hh2)]].
    specialize (Hn2 n). rewrite Ha1 in Hn2. cbn [option_map] in Hn2.
    destruct (node_attrs m2 n) as [a2|] eqn:Ha2; cbn [option_map] in Hn2; [|discriminate].
    inversion Hn2 as [[E1 E2 E3 E4 E5 E6]].
    exists a2. split; [reflexivity|].
    split; [congruence|]. split; [congruence|]. split; [exact (Harom n a2 Ha2)|].
    split.
    + intros Hh. rewrite E3. apply Hh1. exact Hh.
    + intros Hh. destruct (Hh2 Hh) as [x [Hx Hx']]. exists x. split; [exact Hx|].
      congruence.
  - intros e He. cbn [edges] in He. apply in_map_iff in He. destruct He as [e2 [<- He2]].
    eexists. split; [reflexivity|]. intros Hu Hv. cbn [marked fst snd] in Hu, Hv.
    assert (Hu' : stored_aromatic m2 (fst (fst e2))) by exact Hu.
    assert (Hv' : stored_aromatic m2 (snd (fst e2))) by exact Hv.
    rewrite (reads_stored_aromatic m2 _ Hu'), (reads_stored_aromatic m2 _ Hv').
    reflexivity.
Qed.

Lemma correct_aromatic_rings_result_witness :
  let m' := fst (correct_aromatic_rings closure_components search_matching
                   (fun _ => [[0; 1; 2; 3; 4; 5]]) benzene_ring) in
  (structure m' = structure benzene_ring /\
   (forall n a, node_attrs benzene_ring n = Some a ->
      exists a', node_attrs m' n = Some a' /\
        element a' = element a /\ charge a' = charge a /\
        is_some (aromatic a') = true /\
        (is_some (hcount a) = true -> hcount a' = hcount a) /\
        (hcount a = None ->
         exists x, bonds_missing benzene_ring n true = Ok x /\ hcount a' = Some x)) /\
   (forall e, In e (edges m') ->
      exists q, order (snd e) = Some q /\
        (stored_aromatic m' (fst (fst e)) -> stored_aromatic m' (snd (fst e)) ->
         q = 3 # 2))) /\
  _prune_nodes [0; 1; 2; 3; 4; 5] benzene_ring = Ok benzene_ring /\
  Forall (stored_aromatic m') [0; 1; 2; 3; 4; 5] /\
  map snd (edges m') = repeat (mkBond (Some (3 # 2))) 6.
Proof.
  cbv zeta. split.
  - apply (correct_aromatic_rings_result closure_components search_matching
             (fun _ => [[0; 1; 2; 3; 4; 5]]) benzene_ring).
    + split.
      * unfold keys. cbn. repeat constructor; cbn; intuition discriminate.
      * intros e He. cbn in He.
        repeat (destruct He as [<- | He]; [cbn; tauto|]). destruct He.
    + unfold simple. cbn. repeat constructor.
    + vm_compute. reflexivity.
  - split; [vm_compute; reflexivity|]. split; [|vm_compute; reflexivity].
    repeat (apply Forall_cons; [exists cH; split; vm_compute; reflexivity|]).
    apply Forall_nil.
Defined.

(** ** increment_bond_orders *)

Lemma Forall2_map_eq {A B C : Type} (R : A -> B -> Prop) (f : A -> C) (g : B -> C)
  (l : list A) (l' : list B) :
  (forall a b, R a b -> g b = f a) -> Forall2 R l l' -> map g l' = map f l.
Proof.
  intros H. induction 1 as [|a b l l' Hab _ IH]; cbn [map]; [reflexivity|].
  rewrite (H a b Hab), IH. reflexivity.
Qed.

Lemma Forall2_pair_r {A B : Type} (R : A -> B -> Prop) (l : list A) (l' : list B) (b : B) :
  Forall2 R l l' -> In b l' -> exists a, In a l /\ R a b.
Proof.
  induction 1 as [|a0 b0 l l' Hab _ IH]; cbn [In]; [tauto|].
  intros [<- | Hin].
  - exists a0. auto.
  - destruct (IH Hin) as [a [Ha HR]]. exists a. auto.
Qed.

Lemma Forall2_pair_l {A B : Type} (R : A -> B -> Prop) (l : list A) (l' : list B) (a : A) :
  Forall2 R l l' -> In a l -> exists b, In b l' /\ R a b.
Proof.
  induction 1 as [|a0 b0 l l' Hab _ IH]; cbn [In]; [tauto|].
  intros [<- | Hin].
  - exists b0. auto.
  - destruct (IH Hin) as [b [Hb HR]]. exists b. auto.
Qed.

Lemma Forall2_map_r_in {A B : Type} (R R' : A -> B -> Prop) (g : B -> B)
  (l : list A) (l' : list B) :
  Forall2 R l l' ->
  (forall a b, In a l -> In b l' -> R a b -> R' a (g b)) ->
  Forall2 R' l (map g l').
Proof.
  induction 1 as [|a b l l' Hab _ IH]; intros H; cbn [map]; constructor.
  - apply H; cbn; auto.
  - apply IH. intros a' b' Ha Hb. apply H; cbn; auto.
Qed.

Lemma Forall2_refl_in {A : Type} (R : A -> A -> Prop) (l : list A) :
  (forall a, R a a) -> Forall2 R l l.
Proof. intros H. induction l; constructor; auto. Qed.

Lemma simple_fst (m s : mol) :
  map fst (edges s) = map fst (edges m) -> simple m -> simple s.
Proof.
  unfold simple. intros Ee H.
  apply (ForallOrdPairs_map fst
           (fun a b => same_edge (fst a) (snd a) b = false)).
  rewrite Ee.
  apply (ForallOrdPairs_map fst
           (fun a b => same_edge (fst a) (snd a) b = false)). exact H.
Qed.

Lemma same_edge_sym (u v : node) (e : node * node) :
  same_edge u v e = true -> same_edge (fst e) (snd e) (u, v) = true.
Proof.
  rewrite !same_edge_spec. cbn [fst snd]. intros [[A B] | [A B]]; subst; auto.
Qed.

(** In a graph without parallel edges, the edge between [u] and [v] splits
    the list of edges in two parts that hold no edge between [u] and [v]. *)
Lemma simple_split (u v : node) (l : list ((node * node) * bond))
  (e1 : (node * node) * bond) :
  ForallOrdPairs (fun a b => same_edge (fst (fst a)) (snd (fst a)) (fst b) = false) l ->
  In e1 l -> same_edge u v (fst e1) = true ->
  exists l1 l2, l = l1 ++ e1 :: l2 /\
    (forall e, In e l1 -> same_edge u v (fst e) = false) /\
    (forall e, In e l2 -> same_edge u v (fst e) = false).
Proof.
  induction 1 as [|x l Hx Hl IH]; cbn [In]; [tauto|].
  rewrite Forall_forall in Hx.
  intros [-> | Hin] He.
  - exists [], l. split; [reflexivity|]. split; [intros e []|].
    intros e Hine. destruct (same_edge u v (fst e)) eqn:Ee; [|reflexivity].
    rewrite <- (Hx e Hine). symmetry. exact (same_edge_trans u v _ _ He Ee).
  - destruct (IH Hin He) as (l1 & l2 & -> & H1 & H2).
    exists (x :: l1), l2. split; [reflexivity|]. split; [|exact H2].
    intros e [<- | Hine]; [|auto].
    destruct (same_edge u v (fst x)) eqn:Ex; [|reflexivity].
    rewrite <- (Hx e1 Hin). symmetry. exact (same_edge_trans u v _ _ Ex He).
Qed.

Lemma Qsum_cons (x : Q) (l : list Q) : Qsum (x :: l) == (x + Qsum l)%Q.
Proof.
  change (x :: l) with ([x] ++ l). rewrite Qsum_app. unfold Qsum at 1.
  cbn [fold_left]. ring.
Qed.

Lemma incident_same_edge (u v n : node) (e : node * node) :
  same_edge u v e = true -> incident n e = (n =? u) || (n =? v).
Proof.
  intros H. apply same_edge_spec in H. unfold incident.
  destruct H as [[-> ->] | [-> ->]].
  - rewrite (Z.eqb_sym u n), (Z.eqb_sym v n). reflexivity.
  - rewrite (Z.eqb_sym u n), (Z.eqb_sym v n). apply orb_comm.
Qed.

(** Setting the order of the edge between [u] and [v] changes the bond sum
    of its two end points by the difference, and of no other atom. *)
Lemma bonds_update_edge (s : mol) (u v n : node) (o : Q) (e1 : (node * node) * bond) :
  simple s -> In e1 (edges s) -> same_edge u v (fst e1) = true ->
  _bonds (update_edge u v (set_order o) s) n true
  == (_bonds s n true
      + (if (n =? u) || (n =? v) then o - current_order e1 else 0))%Q.
Proof.
  intros Hs Hin He.
  destruct (simple_split u v (edges s) e1 Hs Hin He) as (l1 & l2 & El & H1 & H2).
  unfold _bonds, adj, update_edge. cbn [edges]. rewrite El.
  set (g := fun e : (node * node) * bond =>
              if same_edge u v (fst e) then (fst e, set_order o (snd e)) else e).
  assert (Hid : forall l, (forall e, In e l -> same_edge u v (fst e) = false) ->
                          map g l = l).
  { intros l Hl. rewrite <- (map_id l) at 2. apply map_ext_in. intros e Hine.
    unfold g. rewrite (Hl e Hine). reflexivity. }
  rewrite map_app. cbn [map]. rewrite (Hid l1 H1), (Hid l2 H2).
  unfold g at 1. rewrite He.
  rewrite !filter_app. cbn [filter fst snd].
  rewrite (incident_same_edge u v n (fst e1) He).
  destruct ((n =? u) || (n =? v)).
  - rewrite !map_app. cbn [map snd set_order order get].
    rewrite !Qsum_app, !Qsum_cons. unfold current_order. ring.
  - ring.
Qed.

Lemma gather_missing_result (m : mol) (ns : list node) (mb : list (node * Z)) :
  gather_missing m ns = Ok mb ->
  map fst mb = ns /\
  forall n x, lookup mb n = Some x ->
    exists y, bonds_missing m n true = Ok y /\ x = Z.max y 0.
Proof.
  revert mb. induction ns as [|k ns IH]; intros mb; cbn [gather_missing].
  - intros H; inversion H. split; [reflexivity|]. intros n x Hx. discriminate.
  - destruct (bonds_missing m k true) as [y|e] eqn:Ey; cbn [bind]; [|discriminate].
    destruct (gather_missing m ns) as [rest|e]; cbn [bind]; [|discriminate].
    intros H; inversion H; subst mb. destruct (IH rest eq_refl) as [Hk Hl].
    split; [cbn; rewrite Hk; reflexivity|].
    intros n x. cbn [lookup]. destruct (Z.eqb_spec k n) as [->|Hne].
    + intros Hx; inversion Hx. exists y. auto.
    + apply Hl.
Qed.

Lemma gather_missing_returns (m : mol) (ns : list node) :
  (forall n, In n ns -> exists y, bonds_missing m n true = Ok y) ->
  exists mb, gather_missing m ns = Ok mb.
Proof.
  induction ns as [|k ns IH]; intros H; cbn [gather_missing].
  - exists []. reflexivity.
  - destruct (H k (or_introl eq_refl)) as [y ->].
    destruct IH as [rest ->]; [intros n Hn; apply H; right; exact Hn|].
    cbn [bind]. eexists. reflexivity.
Qed.

(** One visit of the loop of [increment_bond_orders] keeps the state of the
    loop. *)
Lemma increment_edge_step (q : Q) (m : mol) (mb0 : list (node * Z))
  (done : list (node * node)) (u v : node) (s : mol * list (node * Z))
  (e0 : (node * node) * bond) :
  simple m -> increment_state q m mb0 done s ->
  In u (map fst (nodes m)) -> In v (map fst (nodes m)) -> u <> v ->
  In e0 (edges m) -> same_edge u v (fst e0) = true ->
  exists s', increment_edge q (u, v) s = (s', Ok tt) /\
             increment_state q m mb0 (done ++ [(u, v)]) s'.
Proof.
  intros Hsimple Hst Hu Hv Huv Hin He0. destruct s as [s mb].
  destruct Hst as (Hn & HF & Hk & Hpos & Hb). cbn [fst snd] in *.
  assert (Hrel : forall a b,
             (if covered done a then raised q a b else b = a) -> fst b = fst a).
  { intros a b. destruct (covered done a); [intros [E _]; exact E | intros ->; reflexivity]. }
  assert (Hfst : map fst (edges s) = map fst (edges m))
    by exact (Forall2_map_eq _ fst fst _ _ Hrel HF).
  assert (Hss : simple s) by exact (simple_fst m s Hfst Hsimple).
  destruct (lookup_in_keys mb u ltac:(rewrite Hk; exact Hu)) as [xu Exu].
  destruct (lookup_in_keys mb v ltac:(rewrite Hk; exact Hv)) as [xv Exv].
  destruct (Forall2_pair_l _ _ _ e0 HF Hin) as [e0' [Hin' Hr0]].
  assert (He0' : same_edge u v (fst e0') = true) by (rewrite (Hrel _ _ Hr0); exact He0).
  destruct (find (fun x => same_edge u v (fst x)) (edges s)) as [e1|] eqn:Hfind.
  2:{ apply (find_none _ _ Hfind) in Hin'. congruence. }
  assert (Huniq : forall e, In e (edges s) -> same_edge u v (fst e) = true -> e = e1)
    by (intros e; apply (unique_match u v (edges s) e e1 Hss Hfind)).
  assert (E1 : e0' = e1) by auto. subst e1.
  pose proof (Hpos u xu Exu) as Hxu. pose proof (Hpos v xv Exv) as Hxv.
  assert (Hk0 : (0 <= inject_Z (Z.min xu xv))%Q)
    by (change 0%Q with (inject_Z 0); rewrite <- Zle_Qle; lia).
  unfold increment_edge. rewrite Exu, Exv. unfold edge_attrs. rewrite Hfind.
  cbn [option_map]. fold (current_order e0').
  destruct (Qeq_bool (current_order e0') (3 # 2)) eqn:E15.
  - exists (s, mb). split; [reflexivity|].
    split; [exact Hn|]. split; [|split; [exact Hk|split; [exact Hpos|exact Hb]]].
    cbn [fst]. rewrite <- (map_id (edges s)).
    apply (Forall2_map_r_in _ _ _ _ _ HF). intros a b Ha Hb' Hab.
    rewrite covered_app. cbn [fst snd]. pose proof (Hrel a b Hab) as Efst.
    destruct (same_edge u v (fst a)) eqn:Ea.
    + rewrite orb_true_r.
      assert (Eb : b = e0') by (apply Huniq; [exact Hb'|rewrite Efst; exact Ea]).
      destruct (covered done a); [exact Hab|]. subst a.
      split; [reflexivity|]. rewrite Eb, E15. reflexivity.
    + rewrite orb_false_r. exact Hab.
  - eexists. split; [reflexivity|].
    set (k := Z.min xu xv) in *.
    set (new := Qmin (inject_Z k + current_order e0') q).
    unfold increment_state. cbn [fst snd].
    split; [exact Hn|]. split; [|split; [|split]].
    + unfold update_edge. cbn [edges].
      apply (Forall2_map_r_in _ _ _ _ _ HF). intros a b Ha Hb' Hab.
      rewrite covered_app. cbn [fst snd]. pose proof (Hrel a b Hab) as Efst.
      rewrite <- Efst.
      destruct (same_edge u v (fst b)) eqn:Eb.
      * rewrite orb_true_r.
        assert (Eb' : b = e0') by (apply Huniq; assumption).
        split; [exact Efst|].
        destruct (Qeq_bool (current_order a) (3 # 2)) eqn:Ea15.
        -- assert (b = a).
           { destruct (covered done a); [|exact Hab].
             destruct Hab as [_ Hab]. rewrite Ea15 in Hab. exact Hab. }
           subst a. rewrite Eb' in Ea15. congruence.
        -- exists new. split; [reflexivity|]. split; [apply Q.le_min_r|].
           apply Q.min_glb; [|apply Q.le_min_r].
           destruct (covered done a).
           ++ destruct Hab as [_ Hab]. rewrite Ea15 in Hab.
              destruct Hab as (q1 & Eq1 & Hq1 & Hq1').
              assert (Ec : current_order e0' = q1)
                by (rewrite <- Eb'; unfold current_order; rewrite Eq1; reflexivity).
              rewrite Ec. lra.
           ++ subst a. rewrite <- Eb'.
              pose proof (Q.le_min_l (current_order b) q). lra.
      * rewrite orb_false_r. exact Hab.
    + rewrite !keys_update. exact Hk.
    + intros n x. destruct (Z.eq_dec n v) as [->|Hnv].
      * rewrite lookup_update_same, (lookup_update_other u v) by congruence.
        rewrite Exv. cbn [option_map]. intros Hx; inversion Hx. lia.
      * rewrite (lookup_update_other v n) by exact Hnv.
        destruct (Z.eq_dec n u) as [->|Hnu].
        -- rewrite lookup_update_same, Exu. cbn [option_map].
           intros Hx; inversion Hx. lia.
        -- rewrite (lookup_update_other u n) by exact Hnu. apply Hpos.
    + assert (Hnew : (new - current_order e0' <= inject_Z k)%Q).
      { pose proof (Q.le_min_l (inject_Z k + current_order e0') q). unfold new. lra. }
      intros n x0 x H0.
      rewrite (bonds_update_edge s u v n new e0' Hss Hin' He0').
      destruct (Z.eq_dec n v) as [->|Hnv].
      * rewrite lookup_update_same, (lookup_update_other u v) by congruence.
        rewrite Exv. cbn [option_map]. intros Hx; inversion Hx.
        rewrite Z.eqb_refl, orb_true_r.
        pose proof (Hb v x0 xv H0 Exv).
        unfold Z.sub. rewrite inject_Z_plus, inject_Z_opp. lra.
      * rewrite (lookup_update_other v n) by exact Hnv.
        destruct (Z.eq_dec n u) as [->|Hnu].
        -- rewrite lookup_update_same, Exu. cbn [option_map].
           intros Hx; inversion Hx. rewrite Z.eqb_refl. cbn [orb].
           pose proof (Hb u x0 xu H0 Exu).
           unfold Z.sub. rewrite inject_Z_plus, inject_Z_opp. lra.
        -- rewrite (lookup_update_other u n) by exact Hnu. intros Hx.
           destruct (Z.eqb_spec n u); [contradiction|].
           destruct (Z.eqb_spec n v); [contradiction|]. cbn [orb].
           pose proof (Hb n x0 x H0 Hx). lra.
Qed.

Lemma increment_loop_state (q : Q) (m : mol) (mb0 : list (node * Z))
  (prs : list (node * node)) :
  simple m ->
  (forall x y, In (x, y) prs ->
     In x (map fst (nodes m)) /\ In y (map fst (nodes m)) /\ x <> y /\
     exists e, In e (edges m) /\ same_edge x y (fst e) = true) ->
  forall done s, increment_state q m mb0 done s ->
  exists s', for_each prs (increment_edge q) s = (s', Ok tt) /\
             increment_state q m mb0 (done ++ prs) s'.
Proof.
  intros Hsimple. induction prs as [|[u v] prs IH]; intros Hprs done s Hst;
    cbn [for_each].
  - exists s. rewrite app_nil_r. auto.
  - destruct (Hprs u v (or_introl eq_refl)) as (Hu & Hv & Huv & e0 & Hin & He0).
    destruct (increment_edge_step q m mb0 done u v s e0 Hsimple Hst Hu Hv Huv Hin He0)
      as (s1 & -> & Hst1).
    destruct (IH (fun x y H => Hprs x y (or_intror H)) (done ++ [(u, v)]) s1 Hst1)
      as (s' & Hrun & Hst').
    exists s'. rewrite <- app_assoc in Hst'. auto.
Qed.

(** The state in which [increment_bond_orders] leaves the loop over the
    edges. *)
Lemma increment_bond_orders_state (q : Q) (m : mol) (mb0 : list (node * Z)) :
  wf m -> simple m -> loop_free m ->
  gather_missing m (map fst (nodes m)) = Ok mb0 ->
  exists m' mb, increment_bond_orders q m = (m', Ok tt) /\
                increment_state q m mb0 (edge_view m) (m', mb).
Proof.
  intros [Hnd Hcl] Hsimple Hloop Hg. unfold increment_bond_orders, increment_loop.
  rewrite Hg. destruct (gather_missing_result m _ mb0 Hg) as [Hk Hmb].
  destruct (increment_loop_state q m mb0 (edge_view m) Hsimple) with (done := @nil (node * node)) (s := (m, mb0))
    as ([m' mb] & Hrun & Hst).
  - intros x y Hxy. unfold edge_view in Hxy.
    destruct (edge_view_sound m _ _ x y Hxy) as [Hx [e [He Hs]]].
    pose proof (Hloop e He) as Hne. destruct (Hcl e He) as [H1 H2].
    apply same_edge_spec in Hs as Hs'.
    split; [exact Hx|]. split; [|split; [|exists e; auto]].
    + destruct Hs' as [[_ <-] | [<- _]]; assumption.
    + destruct Hs' as [[<- <-] | [<- <-]]; congruence.
  - split; [reflexivity|]. split; [|split; [exact Hk|split]].
    + cbn [fst covered existsb]. apply Forall2_refl_in. reflexivity.
    + intros n x Hx. destruct (Hmb n x Hx) as [y [_ ->]]. lia.
    + cbn [fst snd]. intros n x0 x H0 Hx. rewrite H0 in Hx. inversion Hx. lra.
  - exists m', mb. rewrite Hrun. cbn [app] in Hst. auto.
Qed.

(** X18: on a well-formed graph without parallel edges and self loops on
    which [bonds_missing] returns for every atom, [increment_bond_orders]
    raises nothing and leaves the atoms as they are; an edge of order 1.5 is
    unchanged, and every other edge ends with an order that is at most
    [max_bond_order] and at least the smaller of [max_bond_order] and the
    order it had (1 when it had none). *)
Theorem increment_bond_orders_result (max_bond_order : Q) (m : mol) :
  wf m -> simple m -> loop_free m ->
  (forall n, In n (map fst (nodes m)) -> exists y, bonds_missing m n true = Ok y) ->
  exists m', increment_bond_orders max_bond_order m = (m', Ok tt) /\
             nodes m' = nodes m /\
             Forall2 (raised max_bond_order) (edges m) (edges m').
Proof.
  intros Hwf Hsimple Hloop Hall.
  destruct (gather_missing_returns m _ Hall) as [mb0 Hg].
  destruct (increment_bond_orders_state max_bond_order m mb0 Hwf Hsimple Hloop Hg)
    as (m' & mb & Hrun & Hn & HF & _).
  exists m'. split; [exact Hrun|]. split; [exact Hn|]. cbn [fst] in HF.
  rewrite <- (map_id (edges m')).
  apply (Forall2_map_r_in _ _ _ _ _ HF). intros a b Ha Hb Hab.
  destruct Hwf as [_ Hcl]. unfold edge_view in Hab.
  rewrite (edge_view_covers m (map fst (nodes m)) [] a Ha) in Hab; auto.
  left. apply (Hcl a Ha).
Qed.

Lemma increment_bond_orders_result_witness :
  exists m', increment_bond_orders (3 : Q) two_carbons = (m', Ok tt) /\
             nodes m' = nodes two_carbons /\
             Forall2 (raised (3 : Q)) (edges two_carbons) (edges m').
Proof.
  apply (increment_bond_orders_result (3 : Q) two_carbons).
  - split.
    + unfold keys. cbn. repeat constructor; cbn; intuition discriminate.
    + intros e He. cbn in He.
      repeat (destruct He as [<- | He]; [cbn; tauto|]). destruct He.
  - unfold simple. cbn. repeat constructor.
  - intros e He. cbn in He.
    repeat (destruct He as [<- | He]; [cbn; discriminate|]). destruct He.
  - intros n Hn. cbn in Hn.
    repeat (destruct Hn as [<- | Hn]; [eexists; vm_compute; reflexivity|]). destruct Hn.
Defined.

(** X19: on a well-formed graph without parallel edges and self loops on
    which [bonds_missing] returns for every atom, [increment_bond_orders]
    lets the sum of the bond orders around an atom grow by at most the number
    of bonds that [bonds_missing] reported as missing before the call. *)
Theorem increment_bond_orders_within_valence (max_bond_order : Q) (m m' : mol)
  (r : result unit) :
  wf m -> simple m -> loop_free m ->
  (forall n, In n (map fst (nodes m)) -> exists y, bonds_missing m n true = Ok y) ->
  increment_bond_orders max_bond_order m = (m', r) ->
  forall n x, bonds_missing m n true = Ok x ->
    (_bonds m' n true <= _bonds m n true + inject_Z x)%Q.
Proof.
  intros Hwf Hsimple Hloop Hall Hrun n x Hx.
  destruct (gather_missing_returns m _ Hall) as [mb0 Hg].
  destruct (increment_bond_orders_state max_bond_order m mb0 Hwf Hsimple Hloop Hg)
    as (m1 & mb & Hrun1 & Hn & HF & Hk & Hpos & Hb).
  rewrite Hrun in Hrun1. inversion Hrun1; subst m1 r. cbn [fst snd] in *.
  destruct (gather_missing_result m _ mb0 Hg) as [Hk0 Hmb].
  assert (Hin : In n (map fst (nodes m))).
  { unfold bonds_missing in Hx. destruct (node_attrs m n) as [a|] eqn:Ha;
      [exact (node_attrs_in_keys m n a Ha) | discriminate]. }
  destruct (lookup_in_keys mb0 n ltac:(rewrite Hk0; exact Hin)) as [x0 E0].
  destruct (lookup_in_keys mb n ltac:(rewrite Hk; exact Hin)) as [xf Ef].
  destruct (Hmb n x0 E0) as [y [Hy ->]]. rewrite Hx in Hy. inversion Hy; subst y.
  pose proof (bonds_missing_nonneg m n true x Hx) as Hx0.
  pose proof (Hpos n xf Ef) as Hxf. pose proof (Hb n _ xf E0 Ef) as Hle.
  rewrite Z.max_l in Hle by exact Hx0.
  assert (Hf : (0 <= inject_Z xf)%Q)
    by (change 0%Q with (inject_Z 0); rewrite <- Zle_Qle; exact Hxf).
  lra.
Qed.

Lemma increment_bond_orders_within_valence_witness :
  (_bonds (fst (increment_bond_orders (3 : Q) two_carbons)) 0 true
   <= _bonds two_carbons 0 true + inject_Z 3)%Q.
Proof.
  apply (increment_bond_orders_within_valence (3 : Q) two_carbons
           (fst (increment_bond_orders (3 : Q) two_carbons))
           (snd (increment_bond_orders (3 : Q) two_carbons))).
  - split.
    + unfold keys. cbn. repeat constructor; cbn; intuition discriminate.
    + intros e He. cbn in He.
      repeat (destruct He as [<- | He]; [cbn; tauto|]). destruct He.
  - unfold simple. cbn. repeat constructor.
  - intros e He. cbn in He.
    repeat (destruct He as [<- | He]; [cbn; discriminate|]). destruct He.
  - intros n Hn. cbn in Hn.
    repeat (destruct Hn as [<- | Hn]; [eexists; vm_compute; reflexivity|]). destruct Hn.
  - apply surjective_pairing.
  - vm_compute. reflexivity.
Defined.
